(** * A dynamic 2D QuadTree (quadtree.py): shallow embedding and properties

    Numbers.  The points and rectangles a caller passes are only compared,
    never computed with: such a coordinate is an exact rational ([Qc]; every
    finite int, float or Fraction is one), and the equality Python uses on
    points (value equality of the two coordinates) is Leibniz equality.
    The centre and the half-size of a node are computed: they are binary64
    floats ([float], the primitive floats, whose operations are the IEEE 754
    ones Python uses, with their rounding, infinities and NaN).  A
    comparison between the two compares their values ([value]); with NaN
    every comparison is false.  The corners of the region given to the
    constructor are floats.  [math.log2] is the platform's: the embedding
    takes it as a parameter [log2] and assumes nothing about it.

    The mutable object graph is modelled by explicit state passing.  A
    [QuadTreeNode] owns its children exclusively, so an in-place update of a
    child is the parent with that child slot replaced.  Where the source
    keeps references into the tree ([trace] in [remove] and [_reduce]) a
    reference is the location of the node: the list of child indices that
    leads to it from the root.  Python's recursion in [_insert] can exceed
    any bound; it is modelled with a depth budget, [None] meaning the
    budget was exhausted (the interpreter raises RecursionError). *)

From Stdlib Require Import QArith Qcanon Qround Qpower Lqa.
From Stdlib Require Import List Bool Arith Lia ZArith.
From Stdlib Require Import Floats.
Import ListNotations.

Set Implicit Arguments.

Open Scope Qc_scope.

(** ** Numbers and their comparisons *)

(** The value a number has in a comparison. *)
Inductive fval : Type :=
| NaN
| NegInf
| Fin (q : Q)
| PosInf.

(** The value of a binary64 float. *)
Definition value (f : float) : fval :=
  match Prim2SF f with
  | S754_zero _ => Fin 0
  | S754_infinity s => if s then NegInf else PosInf
  | S754_nan => NaN
  | S754_finite s m e =>
      Fin (inject_Z (if s then Z.neg m else Z.pos m) * 2 ^ e)%Q
  end.

(** The numbers of the program: each has a value. *)
Class Num (A : Type) : Type := val : A -> fval.

#[global] Instance Num_Qc : Num Qc := fun a => Fin (this a).

#[global] Instance Num_float : Num float := value.

Definition fle (a b : fval) : bool :=
  match a, b with
  | Fin x, Fin y => Qle_bool x y
  | NegInf, NegInf | NegInf, Fin _ | NegInf, PosInf => true
  | Fin _, PosInf | PosInf, PosInf => true
  | _, _ => false
  end.

Definition flt (a b : fval) : bool :=
  match a, b with
  | Fin x, Fin y => negb (Qle_bool y x)
  | NegInf, Fin _ | NegInf, PosInf | Fin _, PosInf => true
  | _, _ => false
  end.

(** [a <= b], [a >= b], [a < b], [a > b] *)
Definition leb {A B : Type} {NA : Num A} {NB : Num B} (a : A) (b : B) : bool :=
  fle (val a) (val b).
Definition geb {A B : Type} {NA : Num A} {NB : Num B} (a : A) (b : B) : bool :=
  leb b a.
Definition ltb {A B : Type} {NA : Num A} {NB : Num B} (a : A) (b : B) : bool :=
  flt (val a) (val b).
Definition gtb {A B : Type} {NA : Num A} {NB : Num B} (a : A) (b : B) : bool :=
  ltb b a.

(** [a == b] *)
Definition eqb {A B : Type} {NA : Num A} {NB : Num B} (a : A) (b : B) : bool :=
  fle (val a) (val b) && fle (val b) (val a).

(** ** Points *)

(** A point of the caller, and a point the tree computes. *)
Definition point : Type := (Qc * Qc)%type.
Definition fpoint : Type := (float * float)%type.

(** [p[X]] and [p[Y]] *)
Definition X {A : Type} (p : A * A) : A := fst p.
Definition Y {A : Type} (p : A * A) : A := snd p.

Definition LOWER_LEFT_QUAD : nat := 0.
Definition UPPER_LEFT_QUAD : nat := 1.
Definition LOWER_RIGHT_QUAD : nat := 2.
Definition UPPER_RIGHT_QUAD : nat := 3.

Inductive status : Type :=
| NODE_NOT_IN_REGION
| NODE_PARTIALLY_IN_REGION
| NODE_CONTAINED_BY_REGION.

(** [a / 2.0] *)
Definition half (a : float) : float := (a / 2)%float.

Definition point_eqb (p q : point) : bool :=
  Qc_eq_bool (X p) (X q) && Qc_eq_bool (Y p) (Y q).

(** [v in bucket] *)
Definition mem (v : point) (l : list point) : bool := existsb (point_eqb v) l.

(** [bucket.remove(v)]: drops the first element equal to [v].  The source
    only calls it after [v in bucket] succeeded. *)
Fixpoint remove_first (v : point) (l : list point) : list point :=
  match l with
  | [] => []
  | w :: l' => if point_eqb v w then l' else w :: remove_first v l'
  end.

(** ** Geometry helpers *)

(** [math.ceil(x)]: [None] where it raises (NaN and the infinities). *)
Definition ceil (x : float) : option Z :=
  match value x with
  | Fin q => Some (Qceiling q)
  | _ => None
  end.

(** [next_pow2(value)]: [float(1 << int(math.ceil(math.log2(value))))].
    [log2] is [math.log2], [None] where it raises.  The shift raises for a
    negative count, and the conversion of [1 << n] to a float raises from
    [n = 1024] on; below, [2^n] is a float. *)
Definition next_pow2 (log2 : float -> option float) (v : float) : option float :=
  match log2 v with
  | Some l =>
      match ceil l with
      | Some n =>
          if (n <? 0)%Z then None
          else if (1023 <? n)%Z then None
          else Some (Z.ldexp 1 n)
      | None => None
      end
  | None => None
  end.

(** [max(a, b)] on floats *)
Definition fmax (a b : float) : float := if PrimFloat.ltb a b then b else a.

(** [center_size(region)] *)
Definition center_size (log2 : float -> option float) (region : fpoint * fpoint)
  : option (fpoint * fpoint) :=
  let (xymin, xymax) := region in
  let x_min := X xymin in let y_min := Y xymin in
  let x_max := X xymax in let y_max := Y xymax in
  let x_size := (x_max - x_min)%float in
  let y_size := (y_max - y_min)%float in
  let center := ((x_min + 0.5 * x_size)%float, (y_min + 0.5 * y_size)%float) in
  match next_pow2 log2 x_size, next_pow2 log2 y_size with
  | Some px, Some py =>
      let hsize := fmax px py in
      Some (center, (hsize, hsize))
  | _, _ => None
  end.

(** [point_in_region(point, minXY, maxXY)] *)
Definition point_in_region {A B : Type} {NA : Num A} {NB : Num B}
  (pt : A * A) (minXY maxXY : B * B) : bool :=
  geb (X pt) (X minXY) && leb (X pt) (X maxXY)
  && geb (Y pt) (Y minXY) && leb (Y pt) (Y maxXY).

(** [enclosure_status(center, size, minXY, maxXY)] *)
Definition enclosure_status (center size : fpoint) (minXY maxXY : point) : status :=
  let node_min := ((X center - X size)%float, (Y center - Y size)%float) in
  let node_max := ((X center + X size)%float, (Y center + Y size)%float) in
  if gtb (X node_min) (X maxXY) || ltb (X node_max) (X minXY)
     || gtb (Y node_min) (Y maxXY) || ltb (Y node_max) (Y minXY)
  then NODE_NOT_IN_REGION
  else
    let c1 := point_in_region
                ((X center - X size)%float, (Y center - Y size)%float) minXY maxXY in
    let c2 := point_in_region
                ((X center - X size)%float, (Y center + Y size)%float) minXY maxXY in
    let c3 := point_in_region
                ((X center + X size)%float, (Y center - Y size)%float) minXY maxXY in
    let c4 := point_in_region
                ((X center + X size)%float, (Y center + Y size)%float) minXY maxXY in
    let enclosed_pts := (Nat.b2n c1 + Nat.b2n c2 + Nat.b2n c3 + Nat.b2n c4)%nat in
    if (enclosed_pts =? 4)%nat then NODE_CONTAINED_BY_REGION
    else NODE_PARTIALLY_IN_REGION.

(** ** QuadTreeNode *)

(** The four slots of [child], then [center], [size], [bucket], [leaf]. *)
#[warnings="-register-all"]
Inductive QuadTreeNode : Type :=
  Node {
    child0 : option QuadTreeNode;
    child1 : option QuadTreeNode;
    child2 : option QuadTreeNode;
    child3 : option QuadTreeNode;
    center : fpoint;
    size : fpoint;
    bucket : list point;
    leaf : bool
  }.

(** [QuadTreeNode(center, size)] *)
Definition new_node (c s : fpoint) : QuadTreeNode :=
  Node None None None None c s [] true.

(** [node.child[quad]]; the source only indexes with 0..3. *)
Definition get_child (node : QuadTreeNode) (quad : nat) : option QuadTreeNode :=
  match quad with
  | 0%nat => child0 node
  | 1%nat => child1 node
  | 2%nat => child2 node
  | 3%nat => child3 node
  | _ => None
  end.

(** [node.child[quad] = c] *)
Definition set_child (node : QuadTreeNode) (quad : nat) (c : option QuadTreeNode)
  : QuadTreeNode :=
  match node with
  | Node c0 c1 c2 c3 ce sz b l =>
      match quad with
      | 0%nat => Node c c1 c2 c3 ce sz b l
      | 1%nat => Node c0 c c2 c3 ce sz b l
      | 2%nat => Node c0 c1 c c3 ce sz b l
      | 3%nat => Node c0 c1 c2 c ce sz b l
      | _ => node
      end
  end.

Definition set_bucket (node : QuadTreeNode) (b : list point) : QuadTreeNode :=
  Node (child0 node) (child1 node) (child2 node) (child3 node)
       (center node) (size node) b (leaf node).

Definition set_leaf (node : QuadTreeNode) (l : bool) : QuadTreeNode :=
  Node (child0 node) (child1 node) (child2 node) (child3 node)
       (center node) (size node) (bucket node) l.

(** [node.region()] *)
Definition region (node : QuadTreeNode) : fpoint * fpoint :=
  (((X (center node) - X (size node))%float, (Y (center node) - Y (size node))%float),
   ((X (center node) + X (size node))%float, (Y (center node) + Y (size node))%float)).

(** [node.preorder()]: the node, then the subtree of each present child in
    slot order. *)
Fixpoint preorder (node : QuadTreeNode) : list QuadTreeNode :=
  match node with
  | Node c0 c1 c2 c3 _ _ _ _ =>
      let sub := fun c => match c with Some m => preorder m | None => [] end in
      node :: sub c0 ++ sub c1 ++ sub c2 ++ sub c3
  end.

(** [node.quadrant(point)] *)
Definition quadrant (node : QuadTreeNode) (pt : point) : nat :=
  ((if geb (X pt) (X (center node)) then 2 else 0)
   + (if geb (Y pt) (Y (center node)) then 1 else 0))%nat.

(** [node.child_center(quad)] *)
Definition child_center (node : QuadTreeNode) (quad : nat) : fpoint :=
  let cx := X (center node) in let cy := Y (center node) in
  let hx := half (X (size node)) in let hy := half (Y (size node)) in
  match quad with
  | 0%nat => ((cx - hx)%float, (cy - hy)%float)
  | 1%nat => ((cx - hx)%float, (cy + hy)%float)
  | 2%nat => ((cx + hx)%float, (cy - hy)%float)
  | 3%nat => ((cx + hx)%float, (cy + hy)%float)
  | _ => (cx, cy)
  end.

(** [node.fitting_child_node(v)]: the node after the call (the slot is
    filled when it was empty), the slot index, and the child the returned
    reference denotes. *)
Definition fitting_child_node (node : QuadTreeNode) (v : point)
  : QuadTreeNode * nat * QuadTreeNode :=
  let quad := quadrant node v in
  match get_child node quad with
  | Some c => (node, quad, c)
  | None =>
      let r := (half (X (size node)), half (Y (size node))) in
      let c := new_node (child_center node quad) r in
      (set_child node quad (Some c), quad, c)
  end.

(** [node.add_all_points_to_results(results)] *)
Fixpoint add_all_points_to_results (node : QuadTreeNode) (results : list point)
  : list point :=
  match node with
  | Node c0 c1 c2 c3 _ _ b l =>
      if l then results ++ b
      else
        let sub := fun c r =>
          match c with Some m => add_all_points_to_results m r | None => r end in
        sub c3 (sub c2 (sub c1 (sub c0 results)))
  end.

(** ** QuadTree *)

Record QuadTree : Type := mkQuadTree {
  root : QuadTreeNode;
  max_bucket_size : nat
}.

(** [QuadTree(region, bucketSize)] *)
Definition QuadTree_init (log2 : float -> option float) (rg : fpoint * fpoint)
  (bucketSize : nat) : option QuadTree :=
  match center_size log2 rg with
  | Some (c, s) => Some (mkQuadTree (new_node c s) bucketSize)
  | None => None
  end.

(** [self._insert(w, n.fitting_child_node(w))], the callee given as [rec]:
    the child is updated in place, so [n] afterwards has the updated child
    in the same slot. *)
Definition insert_fitting (rec : point -> QuadTreeNode -> option QuadTreeNode)
  (w : point) (n : QuadTreeNode) : option QuadTreeNode :=
  let '(n1, quad, ch) := fitting_child_node n w in
  match rec w ch with
  | Some ch' => Some (set_child n1 quad (Some ch'))
  | None => None
  end.

(** [for v in node.bucket: self._insert(v, node.fitting_child_node(v))] *)
Definition reinsert (rec : point -> QuadTreeNode -> option QuadTreeNode)
  (b : list point) (n : option QuadTreeNode) : option QuadTreeNode :=
  fold_left (fun acc w => match acc with
                          | Some m => insert_fitting rec w m
                          | None => None
                          end) b n.

(** [self._insert(v, node)] with a budget [fuel] on the depth of the
    recursion. *)
Fixpoint _insert (fuel cap : nat) (v : point) (node : QuadTreeNode)
  : option QuadTreeNode :=
  match fuel with
  | O => None
  | S fuel' =>
      if leaf node then
        if (length (bucket node) <? cap)%nat then
          if negb (mem v (bucket node)) then
            Some (set_bucket node (bucket node ++ [v]))
          else Some node
        else
          let node1 := set_leaf node false in
          match insert_fitting (_insert fuel' cap) v node1 with
          | Some node2 =>
              match reinsert (_insert fuel' cap) (bucket node) (Some node2) with
              | Some node3 => Some (set_bucket node3 [])
              | None => None
              end
          | None => None
          end
      else insert_fitting (_insert fuel' cap) v node
  end.

(** [tree.add(v)] *)
Definition add (fuel : nat) (v : point) (t : QuadTree) : option QuadTree :=
  match _insert fuel (max_bucket_size t) v (root t) with
  | Some r => Some (mkQuadTree r (max_bucket_size t))
  | None => None
  end.

(** The loop of [__contains__], from the node [node] on.  The child in
    slot [node.quadrant(v)] is selected by cases on the index (see
    [contains_from_eq] for the reading with [get_child]). *)
Fixpoint contains_from (v : point) (node : QuadTreeNode) : bool :=
  match node with
  | Node c0 c1 c2 c3 _ _ b l =>
      if negb l then
        let next := fun c =>
          match c with Some m => contains_from v m | None => false end in
        match quadrant node v with
        | 0%nat => next c0
        | 1%nat => next c1
        | 2%nat => next c2
        | 3%nat => next c3
        | _ => false
        end
      else mem v b
  end.

(** [v in tree] *)
Definition contains (v : point) (t : QuadTree) : bool := contains_from v (root t).

(** [iter(tree)]: the buckets of the leaves in pre-order. *)
Definition iter_points (t : QuadTree) : list point :=
  flat_map (fun n => if leaf n then bucket n else []) (preorder (root t)).

(** ** Removal *)

(** A reference to a node of the tree is its location, a [list nat]: the
    child indices from the root. *)

(** The node a reference denotes. *)
Fixpoint node_at (l : list nat) (r : QuadTreeNode) : option QuadTreeNode :=
  match l with
  | [] => Some r
  | q :: l' =>
      match get_child r q with
      | Some c => node_at l' c
      | None => None
      end
  end.

(** An in-place update [f] of the node a reference denotes. *)
Fixpoint update_at (l : list nat) (f : QuadTreeNode -> QuadTreeNode) (r : QuadTreeNode)
  : QuadTreeNode :=
  match l with
  | [] => f r
  | q :: l' =>
      match get_child r q with
      | Some c => set_child r q (Some (update_at l' f c))
      | None => r
      end
  end.

(** The descent of [remove]: [top] is the node [trace[-1]] denotes, at
    location [toploc].  [None] is the [return False] on an empty slot. *)
Fixpoint descend (v : point) (top : QuadTreeNode) (toploc : list nat) (trace : list (list nat))
  : option (list (list nat)) :=
  match top with
  | Node c0 c1 c2 c3 _ _ _ l =>
      if negb l then
        let quad := quadrant top v in
        let next := fun c =>
          match c with
          | Some m => descend v m (toploc ++ [quad]) (trace ++ [toploc ++ [quad]])
          | None => None
          end in
        match quad with
        | 0%nat => next c0
        | 1%nat => next c1
        | 2%nat => next c2
        | 3%nat => next c3
        | _ => None
        end
      else Some trace
  end.

(** First [for i in range(4)] of [_reduce]: [None] is the [return] taken
    when a present child is a stem, otherwise the total [numKeys]. *)
Definition count_keys (top : QuadTreeNode) : option nat :=
  fold_left (fun acc i =>
               match acc with
               | None => None
               | Some numKeys =>
                   match get_child top i with
                   | Some c =>
                       if negb (leaf c) then None
                       else Some (numKeys + length (bucket c))%nat
                   | None => Some numKeys
                   end
               end) (seq 0 4) (Some 0%nat).

(** Second [for i in range(4)] of [_reduce], then [top.leaf = True]. *)
Definition absorb (top : QuadTreeNode) : QuadTreeNode :=
  set_leaf
    (fold_left (fun t i =>
                  match get_child t i with
                  | Some c => set_child (set_bucket t (bucket t ++ bucket c)) i None
                  | None => t
                  end) (seq 0 4) top)
    true.

(** The [while canReduce and trace] loop of [_reduce]; [rtrace] is [trace]
    read from its end, so its head is [trace[-1]]. *)
Fixpoint reduce_loop (cap : nat) (rtrace : list (list nat)) (r : QuadTreeNode)
  : QuadTreeNode :=
  match rtrace with
  | [] => r
  | toploc :: rest =>
      match node_at toploc r with
      | None => r
      | Some top =>
          match count_keys top with
          | None => r
          | Some numKeys =>
              if (numKeys <=? cap)%nat
              then reduce_loop cap rest (update_at toploc absorb r)
              else r
          end
      end
  end.

(** [self._reduce(trace)]: the first [trace.pop()] drops the leaf. *)
Definition _reduce (cap : nat) (trace : list (list nat)) (r : QuadTreeNode) : QuadTreeNode :=
  reduce_loop cap (tl (rev trace)) r.

(** [self.remove(v)] on the root node: the returned boolean and the tree
    afterwards. *)
Definition remove_node (cap : nat) (v : point) (r : QuadTreeNode)
  : bool * QuadTreeNode :=
  match descend v r [] [[]] with
  | None => (false, r)
  | Some trace =>
      let toploc := last trace [] in
      match node_at toploc r with
      | None => (false, r)
      | Some top =>
          if mem v (bucket top) then
            (true,
             _reduce cap trace
               (update_at toploc
                  (fun n => set_bucket n (remove_first v (bucket n))) r))
          else (false, r)
      end
  end.

(** [tree.remove(v)] *)
Definition remove (v : point) (t : QuadTree) : bool * QuadTree :=
  let (b, r) := remove_node (max_bucket_size t) v (root t) in
  (b, mkQuadTree r (max_bucket_size t)).

(** ** Range search *)

(** The slots of [top.child] in index order. *)
Definition child_list (node : QuadTreeNode) : list (option QuadTreeNode) :=
  map (get_child node) (seq 0 4).

(** One pass of [for child in top.child] on a stem: the work queue and the
    results afterwards. *)
Definition scan_children (minXY maxXY : point) (top : QuadTreeNode)
  (nodes : list QuadTreeNode) (results : list point)
  : list QuadTreeNode * list point :=
  fold_left (fun (acc : list QuadTreeNode * list point) child =>
               let (ns, rs) := acc in
               match child with
               | Some c =>
                   match enclosure_status (center c) (size c) minXY maxXY with
                   | NODE_CONTAINED_BY_REGION => (ns, add_all_points_to_results c rs)
                   | NODE_PARTIALLY_IN_REGION => (ns ++ [c], rs)
                   | NODE_NOT_IN_REGION => (ns, rs)
                   end
               | None => (ns, rs)
               end) (child_list top) (nodes, results).

(** The [while nodes] loop of [range_search]; [fuel] bounds the number of
    iterations and [None] means it was exhausted. *)
Fixpoint search_loop (fuel : nat) (minXY maxXY : point)
  (nodes : list QuadTreeNode) (results : list point) : option (list point) :=
  match nodes with
  | [] => Some results
  | top :: _ =>
      match fuel with
      | O => None
      | S fuel' =>
          if leaf top then
            let results' :=
              match enclosure_status (center top) (size top) minXY maxXY with
              | NODE_CONTAINED_BY_REGION => results ++ bucket top
              | NODE_PARTIALLY_IN_REGION =>
                  results ++ filter (fun v => point_in_region v minXY maxXY) (bucket top)
              | NODE_NOT_IN_REGION => results
              end in
            search_loop fuel' minXY maxXY (tl nodes) results'
          else
            let (nodes', results') := scan_children minXY maxXY top nodes results in
            search_loop fuel' minXY maxXY (tl nodes') results'
      end
  end.

(** [tree.range_search(rect)]: every iteration takes one node of the tree
    off the queue and no node is queued twice, so the number of nodes is
    budget enough. *)
Definition range_search (t : QuadTree) (rect : point * point) : option (list point) :=
  let (minXY, maxXY) := rect in
  search_loop (length (preorder (root t))) minXY maxXY [root t] [].

(** ** Scenarios *)

(** A [math.log2] for the scenarios: exact at the powers of two, as the
    platform's is, and half way between the two neighbouring integers
    elsewhere, so that [math.ceil] of it is the least [n] with [x <= 2^n].
    It raises for zero and for a negative number, and returns its argument
    for NaN and for the positive infinity, as [math.log2] does. *)
Definition log2_ref (x : float) : option float :=
  match Prim2SF x with
  | S754_finite false m e =>
      let n := (Z.log2 (Z.pos m) + e)%Z in
      let fn := if (n =? 0)%Z then 0%float
                else SF2Prim (S754_finite (n <? 0)%Z (Z.to_pos (Z.abs n)) 0) in
      if (Z.pos m =? 2 ^ Z.log2 (Z.pos m))%Z then Some fn
      else Some (fn + 0.5)%float
  | S754_infinity false => Some x
  | S754_nan => Some x
  | _ => None
  end.

Definition pt (x y : Z) : point := (Q2Qc (inject_Z x), Q2Qc (inject_Z y)).

Definition coords (p : point) : Q * Q := (this (X p), this (Y p)).

(** [add] of each point of a list in turn. *)
Definition add_all (fuel : nat) (l : list point) (t : QuadTree) : option QuadTree :=
  fold_left (fun acc p => match acc with Some u => add fuel p u | None => None end)
            l (Some t).

(** Operations on a tree, and the states a sequence of completed calls
    leads to.  An [add] is completed when [_insert] returns within some
    recursion depth. *)
Inductive reachable (t0 : QuadTree) : QuadTree -> Prop :=
| reach_init : reachable t0 t0
| reach_add : forall t fuel v t',
    reachable t0 t -> add fuel v t = Some t' -> reachable t0 t'
| reach_remove : forall t v,
    reachable t0 t -> reachable t0 (snd (remove v t)).

(** A freshly constructed tree: one empty leaf. *)
Definition fresh (c s : fpoint) (cap : nat) : QuadTree :=
  mkQuadTree (new_node c s) cap.

(** ** Invariants *)

(** The present children of a node, in slot order. *)
Definition children (n : QuadTreeNode) : list QuadTreeNode :=
  flat_map (fun q => match get_child n q with Some c => [c] | None => [] end)
           (seq 0 4).

(** Every point held in a bucket of the subtree. *)
Definition points (n : QuadTreeNode) : list point :=
  flat_map bucket (preorder n).

(** The child in slot [q] has the centre and half-size [fitting_child_node]
    gives a child it creates. *)
Definition geom (n : QuadTreeNode) (q : nat) (c : QuadTreeNode) : Prop :=
  center c = child_center n q /\
  size c = (half (X (size n)), half (Y (size n))).

(** The shape the complete operations maintain: a leaf has no child, at
    most [cap] points and no point twice; a stem has an empty bucket, holds
    a point somewhere below, and each child is well formed, placed as
    [fitting_child_node] places it, and holds only points routed to its
    slot. *)
#[warnings="-register-all"]
Inductive WF (cap : nat) : QuadTreeNode -> Prop :=
| WF_leaf : forall n,
    leaf n = true ->
    (forall q, get_child n q = None) ->
    (length (bucket n) <= cap)%nat ->
    NoDup (bucket n) ->
    WF cap n
| WF_stem : forall n,
    leaf n = false ->
    bucket n = [] ->
    (forall q c, get_child n q = Some c ->
                 WF cap c /\ geom n q c /\
                 forall p, In p (points c) -> quadrant n p = q) ->
    points n <> [] ->
    WF cap n.

(** The children of a node are well formed, placed and filled as for a
    stem, whatever the node's own bucket and flag. *)
Definition stem_ok (cap : nat) (n : QuadTreeNode) : Prop :=
  forall q c, get_child n q = Some c ->
              WF cap c /\ geom n q c /\
              forall p, In p (points c) -> quadrant n p = q.

(** The points below the children of a node. *)
Definition below (n : QuadTreeNode) (p : point) : Prop :=
  exists q c, get_child n q = Some c /\ In p (points c).

(** What a completed insertion does to a well-formed subtree. *)
Definition insert_ok (cap : nat)
  (rec : point -> QuadTreeNode -> option QuadTreeNode) : Prop :=
  forall v n n', WF cap n -> rec v n = Some n' ->
    WF cap n' /\ (forall p, In p (points n') <-> p = v \/ In p (points n)) /\
    center n' = center n /\ size n' = size n.

(** ** Consequences of the shape *)

Definition opt_points (o : option QuadTreeNode) : list point :=
  match o with Some c => points c | None => [] end.

(** ** Removal, by recursion on the tree *)

(** One step of the loop of [_reduce] at the node [n1], when the loop is
    still running ([go]): the node afterwards and whether the loop goes on
    to the parent. *)
Definition climb (cap : nat) (go : bool) (n1 : QuadTreeNode) : QuadTreeNode * bool :=
  if go then
    match count_keys n1 with
    | None => (n1, false)
    | Some numKeys => if (numKeys <=? cap)%nat then (absorb n1, true) else (n1, false)
    end
  else (n1, false).

(** [remove] read as a recursion on the subtree: [None] when [v] is not
    found, otherwise the subtree after the removal and the part of
    [_reduce] that runs inside it, and whether [_reduce] goes on above. *)
Fixpoint remove_rec (cap : nat) (v : point) (n : QuadTreeNode)
  : option (QuadTreeNode * bool) :=
  match n with
  | Node c0 c1 c2 c3 _ _ b l =>
      if negb l then
        let quad := quadrant n v in
        let next := fun c =>
          match c with
          | Some m =>
              match remove_rec cap v m with
              | Some (m', go) => Some (climb cap go (set_child n quad (Some m')))
              | None => None
              end
          | None => None
          end in
        match quad with
        | 0%nat => next c0
        | 1%nat => next c1
        | 2%nat => next c2
        | 3%nat => next c3
        | _ => None
        end
      else if mem v b then Some (set_bucket n (remove_first v b), true)
      else None
  end.

(** The slots the descent for [v] goes through, down to a leaf. *)
Fixpoint leaf_path (v : point) (n : QuadTreeNode) : option (list nat) :=
  match n with
  | Node c0 c1 c2 c3 _ _ _ l =>
      if negb l then
        let quad := quadrant n v in
        let next := fun c =>
          match c with
          | Some m => option_map (cons quad) (leaf_path v m)
          | None => None
          end in
        match quad with
        | 0%nat => next c0
        | 1%nat => next c1
        | 2%nat => next c2
        | 3%nat => next c3
        | _ => None
        end
      else Some []
  end.

(** The locations on a path, from the root on. *)
Fixpoint prefixes (p : list nat) : list (list nat) :=
  match p with
  | [] => [[]]
  | q :: p' => [] :: map (cons q) (prefixes p')
  end.

(** [reduce_loop] together with the final value of [canReduce]: whether
    the loop ran through the whole trace. *)
Fixpoint reduce_loop_go (cap : nat) (rtrace : list (list nat)) (r : QuadTreeNode)
  : QuadTreeNode * bool :=
  match rtrace with
  | [] => (r, true)
  | toploc :: rest =>
      match node_at toploc r with
      | None => (r, false)
      | Some top =>
          match count_keys top with
          | None => (r, false)
          | Some numKeys =>
              if (numKeys <=? cap)%nat
              then reduce_loop_go cap rest (update_at toploc absorb r)
              else (r, false)
          end
      end
  end.

(** The trace of [_reduce] after its first [pop], read from the end. *)
Definition ancestors (p : list nat) : list (list nat) := tl (rev (prefixes p)).

Definition opt_bucket (o : option QuadTreeNode) : list point :=
  match o with Some c => bucket c | None => [] end.

Definition opt_leaf (o : option QuadTreeNode) : bool :=
  match o with Some c => leaf c | None => true end.

(** [remove] of each point of a list in turn. *)
Definition remove_all (l : list point) (t : QuadTree) : QuadTree :=
  fold_left (fun u p => snd (remove p u)) l t.

(** The scenario of the specification: region [(-512,-512),(512,512)],
    capacity 4, (205,205) inserted twice, then (1,1), (2,2), (3,3), (4,4). *)
Definition scenario_region : fpoint * fpoint :=
  (((-512)%float, (-512)%float), (512%float, 512%float)).

Definition scenario_tree : option QuadTree :=
  match QuadTree_init log2_ref scenario_region 4 with
  | Some t0 =>
      add_all 10 [pt 205 205; pt 205 205; pt 1 1; pt 2 2; pt 3 3; pt 4 4] t0
  | None => None
  end.

(** The descent for [p] ends where [add(p)] appends without a split: at a
    leaf with room, or at an empty slot (the new leaf takes [p] when the
    capacity is positive). *)
Definition has_room (cap : nat) (p : point) (n : QuadTreeNode) : bool :=
  match leaf_path p n with
  | Some path =>
      match node_at path n with
      | Some top => (length (bucket top) <? cap)%nat
      | None => false
      end
  | None => (0 <? cap)%nat
  end.

(** [point_in_region(p, *node.region())] *)
Definition in_region (p : point) (n : QuadTreeNode) : bool :=
  point_in_region p (fst (region n)) (snd (region n)).

(** The region of the child [c] in slot [q] of [n] takes in the part of the
    region of [n] that is routed to [q]: on each axis it reaches from the
    centre of [n] to the far side for an upper slot, from the near side to
    the centre for a lower one.  Exact halving gives this; the rounding of
    [child_center] and [region] need not. *)
Definition covers (n : QuadTreeNode) (q : nat) (c : QuadTreeNode) : bool :=
  let lo := fst (region n) in let hi := snd (region n) in
  let clo := fst (region c) in let chi := snd (region c) in
  (if (2 <=? q)%nat
   then leb (X clo) (X (center n)) && leb (X hi) (X chi)
   else leb (X clo) (X lo) && leb (X (center n)) (X chi))
  && (if Nat.odd q
      then leb (Y clo) (Y (center n)) && leb (Y hi) (Y chi)
      else leb (Y clo) (Y lo) && leb (Y (center n)) (Y chi)).

(** The children one pass of [scan_children] queues: those whose region
    the rectangle meets without containing it. *)
Definition queued (minXY maxXY : point) (l : list (option QuadTreeNode))
  : list QuadTreeNode :=
  flat_map (fun o => match o with
                     | Some c =>
                         match enclosure_status (center c) (size c) minXY maxXY with
                         | NODE_PARTIALLY_IN_REGION => [c]
                         | _ => []
                         end
                     | None => []
                     end) l.

(** The points one pass of [scan_children] reports: those of the children
    whose region the rectangle contains. *)
Definition harvested (minXY maxXY : point) (l : list (option QuadTreeNode))
  : list point :=
  flat_map (fun o => match o with
                     | Some c =>
                         match enclosure_status (center c) (size c) minXY maxXY with
                         | NODE_CONTAINED_BY_REGION => add_all_points_to_results c []
                         | _ => []
                         end
                     | None => []
                     end) l.

(** The helper of [add_all_points_to_results] on one slot. *)
Definition sub_all (o : option QuadTreeNode) (r : list point) : list point :=
  match o with Some m => add_all_points_to_results m r | None => r end.

(** The number of nodes in the subtrees of a work queue. *)
Definition weight (l : list QuadTreeNode) : nat := length (flat_map preorder l).

(** What [range_search] reports from a node [n] it takes off the queue.
    A leaf is compared with the rectangle: all of its bucket when the
    rectangle contains its region, the points of its bucket that lie in the
    rectangle when it only meets it.  A stem is not compared; each of its
    children is: all the points below the child when the rectangle contains
    its region, what the child reports once it is taken off the queue when
    the rectangle only meets it. *)
#[warnings="-register-all"]
Inductive reported (minXY maxXY : point) : QuadTreeNode -> point -> Prop :=
| rep_leaf_all : forall n p,
    leaf n = true ->
    enclosure_status (center n) (size n) minXY maxXY = NODE_CONTAINED_BY_REGION ->
    In p (bucket n) -> reported minXY maxXY n p
| rep_leaf_some : forall n p,
    leaf n = true ->
    enclosure_status (center n) (size n) minXY maxXY = NODE_PARTIALLY_IN_REGION ->
    In p (bucket n) -> point_in_region p minXY maxXY = true ->
    reported minXY maxXY n p
| rep_child_all : forall n q c p,
    leaf n = false -> get_child n q = Some c ->
    enclosure_status (center c) (size c) minXY maxXY = NODE_CONTAINED_BY_REGION ->
    In p (points c) -> reported minXY maxXY n p
| rep_child_queue : forall n q c p,
    leaf n = false -> get_child n q = Some c ->
    enclosure_status (center c) (size c) minXY maxXY = NODE_PARTIALLY_IN_REGION ->
    reported minXY maxXY c p -> reported minXY maxXY n p.

(** The nodes whose region [range_search] compares with the rectangle:
    every node but a root that is a stem. *)
Definition tested (t : QuadTree) : list QuadTreeNode :=
  if leaf (root t) then [root t] else flat_map preorder (children (root t)).

(** A node whose region is compared with the rectangle, for a point below
    it: the point is reported on account of the node. *)
Definition hit (minXY maxXY : point) (c : QuadTreeNode) (p : point) : Prop :=
  enclosure_status (center c) (size c) minXY maxXY = NODE_CONTAINED_BY_REGION \/
  (enclosure_status (center c) (size c) minXY maxXY = NODE_PARTIALLY_IN_REGION /\
   reported minXY maxXY c p).

(** The region [(-1,-1),(1,1)] of the tests. *)
Definition unit_region : fpoint * fpoint :=
  (((-1)%float, (-1)%float), (1%float, 1%float)).

(** The tree [QuadTree(unit_region, cap)] after [add((3,3))]: the point is
    outside the root's region [(-2,-2),(2,2)] and sits in the root's bucket. *)
Definition far_tree (cap : nat) : QuadTree :=
  mkQuadTree (Node None None None None (0%float, 0%float) (2%float, 2%float) [pt 3 3] true) cap.

(** The centre and half-size of the node [k] levels below a node with
    centre [c] and half-size [s], along the upper right slots. *)
Fixpoint upper_right (k : nat) (c s : fpoint) : fpoint * fpoint :=
  match k with
  | O => (c, s)
  | S k' =>
      upper_right k' (child_center (new_node c s) 3) (half (X s), half (Y s))
  end.

(** A point is routed to the upper right slot at each of the first [k]
    levels below a node with centre [c] and half-size [s]. *)
Fixpoint always_upper_right (k : nat) (c s : fpoint) (p : point) : bool :=
  match k with
  | O => true
  | S k' =>
      (quadrant (new_node c s) p =? 3)%nat
      && always_upper_right k' (child_center (new_node c s) 3)
                            (half (X s), half (Y s)) p
  end.

(** The tree [QuadTree(unit_region, 2)] after [add((1,1))] and
    [add((-1,-1))]: the root is a full leaf. *)
Definition full_tree : QuadTree :=
  mkQuadTree
    (Node None None None None (0%float, 0%float) (2%float, 2%float) [pt 1 1; pt (-1) (-1)] true) 2.

(** The float [f] as a coordinate of a point of the caller. *)
Definition of_float (f : float) : Qc :=
  match value f with
  | Fin q => Q2Qc q
  | _ => 0
  end.

(** The region [(-0.9,-0.9),(1.1,1.1)]: the centre of the root is rounded
    to 0.09999999999999998, its half-size is 2. *)
#[warnings="-inexact-float"]
Definition skew_region : fpoint * fpoint :=
  (((-0.9)%float, (-0.9)%float), (1.1%float, 1.1%float)).

(** The point (0.1, 0.1), of floats. *)
#[warnings="-inexact-float"]
Definition tenth : point := (of_float 0.1, of_float 0.1).

(** [QuadTree(skew_region, 1)] after [add((0.1,0.1))] and [add((-1,-1))]:
    the root is a stem, (0.1,0.1) is in its upper right child, whose centre
    is rounded to 1.1000000000000001 and whose region, of half-size 1,
    starts at 0.10000000000000009. *)
Definition skew_tree : QuadTree :=
  match QuadTree_init log2_ref skew_region 1 with
  | Some t0 =>
      match add_all 3 [tenth; pt (-1) (-1)] t0 with
      | Some t => t
      | None => t0
      end
  | None => fresh (0%float, 0%float) (2%float, 2%float) 1
  end.

(** The leaf of [skew_tree] that holds (0.1,0.1). *)
Definition skew_leaf : QuadTreeNode :=
  match get_child (root skew_tree) 3 with
  | Some n => n
  | None => root skew_tree
  end.

(** Two points are told apart within [k] levels of subdivision of the
    region with centre [c] and half-size [s]: they are equal, or at some
    level above [k] they are routed to different slots. *)
Fixpoint sep (k : nat) (c s : fpoint) (a b : point) : Prop :=
  match k with
  | O => a = b
  | S k' =>
      let n := new_node c s in
      quadrant n a = quadrant n b ->
      sep k' (child_center n (quadrant n a)) (half (X s), half (Y s)) a b
  end.

(** The points that satisfy [P] are pairwise told apart within [k] levels. *)
Definition sep_all (k : nat) (c s : fpoint) (P : point -> Prop) : Prop :=
  forall a b, P a -> P b -> sep k c s a b.

(** The leaf the descent for [p] ends at, when it meets no empty slot. *)
Definition landing (p : point) (n : QuadTreeNode) : option QuadTreeNode :=
  match leaf_path p n with
  | Some path => node_at path n
  | None => None
  end.

(** ** A second [add] of a stored point returns when the capacity is at least 2 *)

(** A stem during the reinsertion that follows the split of a leaf that
    holds [v]: each child is a leaf with at most [N] points, and the child
    [v] is routed to holds [v] at the head of its bucket. *)
Definition light (cap N : nat) (v : point) (m : QuadTreeNode) : Prop :=
  stem_ok cap m /\
  (forall q c, get_child m q = Some c ->
               leaf c = true /\ (length (bucket c) <= N)%nat) /\
  (exists c r, get_child m (quadrant m v) = Some c /\ bucket c = v :: r).

(** ** Construction *)

(** The floats [2^n] that [next_pow2] can return, by their values. *)
Definition pow2_ok (n : Z) : bool :=
  match value (Z.ldexp 1 n) with
  | Fin q => Qeq_bool q (2 ^ n)
  | _ => false
  end.

(** [p] is apart from the region of [n] on some axis. *)
Definition outside (p : point) (n : QuadTreeNode) : bool :=
  ltb (X p) (X (fst (region n))) || ltb (X (snd (region n))) (X p)
  || ltb (Y p) (Y (fst (region n))) || ltb (Y (snd (region n))) (Y p).

(** The first node on the way to [p] whose region [range_search] compares
    with the rectangle: the root when it is a leaf, otherwise the child of
    the root that [p] is routed to. *)
Definition first_tested (t : QuadTree) (p : point) : option QuadTreeNode :=
  if leaf (root t) then Some (root t)
  else get_child (root t) (quadrant (root t) p).

(** ** Geometry of the nodes *)

(** The centre and half-size of the node reached through the child slots
    [path] from a node with centre [c] and half-size [s], as
    [fitting_child_node] computes them. *)
Fixpoint geometry_at (path : list nat) (c s : fpoint) : fpoint * fpoint :=
  match path with
  | [] => (c, s)
  | q :: l =>
      geometry_at l (child_center (new_node c s) q) (half (X s), half (Y s))
  end.

(** The tree the scenario ends with. *)
Definition scenario_result : QuadTree :=
  match scenario_tree with
  | Some t => t
  | None => fresh (0%float, 0%float) (1024%float, 1024%float) 4
  end.

(** The leaf of the scenario tree that holds (1,1), (2,2), (3,3), (4,4), the
    stem above it, and the leaf that holds (205,205). *)
Definition scenario_low : QuadTreeNode :=
  match node_at [3; 0; 0; 0]%nat (root scenario_result) with
  | Some n => n
  | None => root scenario_result
  end.

Definition scenario_stem : QuadTreeNode :=
  match node_at [3; 0; 0]%nat (root scenario_result) with
  | Some n => n
  | None => root scenario_result
  end.

Definition scenario_high : QuadTreeNode :=
  match node_at [3; 0; 0; 3]%nat (root scenario_result) with
  | Some n => n
  | None => root scenario_result
  end.

(** The tree over [(-1,-1),(1,1)] that holds (1,1) in its root leaf. *)
Definition one_tree (cap : nat) : QuadTree :=
  mkQuadTree
    (Node None None None None (0%float, 0%float) (2%float, 2%float) [pt 1 1] true)
    cap.

(** Each child of the subtree covers its part of its parent's region. *)
Definition all_covered (r : QuadTreeNode) : bool :=
  forallb (fun a =>
             forallb (fun q => match get_child a q with
                               | Some c => covers a q c
                               | None => true
                               end) (seq 0 4))
          (preorder r).

(** [p] lies in the region of each of the nodes [l] that hold it. *)
Definition all_placed (p : point) (l : list QuadTreeNode) : bool :=
  forallb (fun m => implb (mem p (points m)) (in_region p m)) l.

(** * Proofs *)

(** ** Coordinates *)

Lemma leb_le (a b : Qc) : leb a b = true <-> a <= b.
Proof. unfold leb, Qcle. apply Qle_bool_iff. Qed.

Lemma leb_gt (a b : Qc) : leb a b = false <-> b < a.
Proof.
  unfold leb, Qclt. cbn [val Num_Qc fle]. split; intros H.
  - apply Qnot_le_lt. intros Hle. apply Qle_bool_iff in Hle. congruence.
  - destruct (Qle_bool (this a) (this b)) eqn:E; [|reflexivity].
    apply Qle_bool_iff in E. exfalso. apply (Qlt_not_le _ _ H E).
Qed.

Lemma Qle_bool_false (x y : Q) : Qle_bool x y = false <-> (y < x)%Q.
Proof.
  split; intros H.
  - apply Qnot_le_lt. intros Hle. apply Qle_bool_iff in Hle. congruence.
  - destruct (Qle_bool x y) eqn:E; [|reflexivity].
    apply Qle_bool_iff in E. exfalso. apply (Qlt_not_le _ _ H E).
Qed.

(** Comparisons of numbers, through their values: the comparisons in sight
    are unfolded, each float value is taken by cases (NaN, the infinities,
    a rational), and what is left is linear arithmetic on rationals. *)
Ltac num_unfold :=
  unfold eqb, geb, gtb, ltb, leb in *;
  unfold val, Num_Qc, Num_float in *.

Ltac num_values :=
  repeat match goal with
         | |- context [value ?f] =>
             let v := fresh "v" in
             let E := fresh "E" in
             remember (value f) as v eqn:E; clear E
         | H : context [value ?f] |- _ =>
             let v := fresh "v" in
             let E := fresh "E" in
             remember (value f) as v eqn:E; clear E
         end.

Ltac num_arith :=
  cbn [fle flt andb orb negb] in *;
  repeat match goal with
         | H : _ && _ = true |- _ => apply andb_true_iff in H; destruct H
         | H : Qle_bool _ _ = true |- _ => apply Qle_bool_iff in H
         | H : Qle_bool _ _ = false |- _ => apply Qle_bool_false in H
         | H : negb _ = true |- _ => apply negb_true_iff in H
         | H : negb _ = false |- _ => apply negb_false_iff in H
         end;
  try discriminate;
  repeat match goal with
         | |- _ && _ = true => apply andb_true_iff; split
         | |- negb _ = true => apply negb_true_iff
         | |- negb _ = false => apply negb_false_iff
         | |- Qle_bool _ _ = true => apply Qle_bool_iff
         | |- Qle_bool _ _ = false => apply Qle_bool_false
         end;
  try reflexivity; try lra.

Ltac num_cases :=
  num_unfold; num_values;
  repeat match goal with v : fval |- _ => destruct v end;
  num_arith.

Lemma fle_trans (a b c : fval) :
  fle a b = true -> fle b c = true -> fle a c = true.
Proof. destruct a, b, c; intros H1 H2; num_arith. Qed.

Lemma fle_below (c h : fval) (p : Q) :
  fle c (Fin p) = false -> fle c h = true -> fle (Fin p) h = true.
Proof. destruct c, h; intros H1 H2; num_arith. Qed.

Lemma flt_fle (a b : fval) : flt a b = true -> fle b a = false.
Proof. destruct a, b; intros H; num_arith. Qed.

Lemma flt_fle_false (a b : fval) :
  fle a a = true -> fle b b = true -> fle b a = false -> flt a b = true.
Proof. destruct a, b; intros H1 H2 H3; num_arith. Qed.

Lemma point_eqb_eq (p q : point) : point_eqb p q = true <-> p = q.
Proof.
  destruct p as [px py], q as [qx qy]. unfold point_eqb, X, Y; simpl.
  rewrite andb_true_iff. split.
  - intros [H1 H2]. apply Qc_eq_bool_correct in H1.
    apply Qc_eq_bool_correct in H2. congruence.
  - intros H. inversion H; subst. unfold Qc_eq_bool.
    destruct (Qc_eq_dec qx qx); [|congruence].
    destruct (Qc_eq_dec qy qy); [split; reflexivity|congruence].
Qed.

Lemma point_eq_dec (p q : point) : {p = q} + {p <> q}.
Proof.
  destruct (point_eqb p q) eqn:E.
  - left. now apply point_eqb_eq.
  - right. intros H. apply point_eqb_eq in H. congruence.
Qed.

Lemma mem_In (v : point) (l : list point) : mem v l = true <-> In v l.
Proof.
  unfold mem. rewrite existsb_exists. split.
  - intros [w [Hw E]]. apply point_eqb_eq in E. now subst.
  - intros H. exists v. split; [assumption|]. now apply point_eqb_eq.
Qed.

Lemma mem_not_In (v : point) (l : list point) : mem v l = false <-> ~ In v l.
Proof.
  rewrite <- mem_In. destruct (mem v l); split; congruence.
Qed.

(** ** Slots *)

Lemma quadrant_lt (n : QuadTreeNode) (p : point) : (quadrant n p < 4)%nat.
Proof.
  unfold quadrant.
  destruct (geb (X p) (X (center n))), (geb (Y p) (Y (center n))); simpl; lia.
Qed.

Lemma get_child_lt (n : QuadTreeNode) (q : nat) (c : QuadTreeNode) :
  get_child n q = Some c -> (q < 4)%nat.
Proof.
  destruct q as [|[|[|[|q]]]]; simpl; try lia. discriminate.
Qed.

Lemma get_set_same (n : QuadTreeNode) (q : nat) (x : option QuadTreeNode) :
  (q < 4)%nat -> get_child (set_child n q x) q = x.
Proof.
  destruct n. destruct q as [|[|[|[|q]]]]; simpl; intros; try reflexivity; lia.
Qed.

Lemma get_set_other (n : QuadTreeNode) (q q' : nat) (x : option QuadTreeNode) :
  q <> q' -> get_child (set_child n q x) q' = get_child n q'.
Proof.
  destruct n.
  destruct q as [|[|[|[|q]]]], q' as [|[|[|[|q']]]]; simpl; intros;
    try reflexivity; congruence.
Qed.

Lemma set_child_fields (n : QuadTreeNode) (q : nat) (x : option QuadTreeNode) :
  center (set_child n q x) = center n /\ size (set_child n q x) = size n /\
  bucket (set_child n q x) = bucket n /\ leaf (set_child n q x) = leaf n.
Proof.
  destruct n. destruct q as [|[|[|[|q]]]]; simpl; repeat split.
Qed.

Lemma quadrant_set_child (n : QuadTreeNode) (q : nat) (x : option QuadTreeNode)
  (p : point) : quadrant (set_child n q x) p = quadrant n p.
Proof.
  unfold quadrant. destruct (set_child_fields n q x) as [-> _]. reflexivity.
Qed.

(** Induction on a node from its present children. *)
Lemma node_ind' (P : QuadTreeNode -> Prop) :
  (forall n, (forall q c, get_child n q = Some c -> P c) -> P n) ->
  forall n, P n.
Proof.
  intros H. fix IH 1. intros [c0 c1 c2 c3 ce sz b l].
  assert (H0 : forall m, c0 = Some m -> P m).
  { destruct c0 as [m0|]; intros m E; [|discriminate].
    replace m with m0 by congruence. apply IH. }
  assert (H1 : forall m, c1 = Some m -> P m).
  { destruct c1 as [m0|]; intros m E; [|discriminate].
    replace m with m0 by congruence. apply IH. }
  assert (H2 : forall m, c2 = Some m -> P m).
  { destruct c2 as [m0|]; intros m E; [|discriminate].
    replace m with m0 by congruence. apply IH. }
  assert (H3 : forall m, c3 = Some m -> P m).
  { destruct c3 as [m0|]; intros m E; [|discriminate].
    replace m with m0 by congruence. apply IH. }
  clear IH. apply H. intros q c Hq.
  destruct q as [|[|[|[|q]]]]; simpl in Hq; try discriminate; auto.
Qed.

Lemma In_children (n c : QuadTreeNode) :
  In c (children n) <-> exists q, get_child n q = Some c.
Proof.
  unfold children. rewrite in_flat_map. split.
  - intros [q [_ H]]. exists q. destruct (get_child n q); simpl in H; [|tauto].
    destruct H as [->|[]]. reflexivity.
  - intros [q H]. exists q. split.
    + apply in_seq. pose proof (get_child_lt _ _ H). lia.
    + rewrite H. now left.
Qed.

Lemma preorder_eq (n : QuadTreeNode) :
  preorder n = n :: flat_map preorder (children n).
Proof.
  destruct n as [c0 c1 c2 c3 ce sz b l]. unfold children. simpl.
  destruct c0, c1, c2, c3; simpl; rewrite ?app_nil_r; reflexivity.
Qed.

Lemma points_eq (n : QuadTreeNode) :
  points n = bucket n ++ flat_map points (children n).
Proof.
  unfold points at 1. rewrite preorder_eq. simpl. f_equal.
  induction (children n) as [|c l IH]; simpl; [reflexivity|].
  rewrite flat_map_app. now rewrite IH.
Qed.

Lemma In_points (n : QuadTreeNode) (p : point) :
  In p (points n) <->
  In p (bucket n) \/ exists q c, get_child n q = Some c /\ In p (points c).
Proof.
  rewrite points_eq, in_app_iff, in_flat_map. split.
  - intros [H|[c [Hc H]]]; [now left|right].
    apply In_children in Hc. destruct Hc as [q Hq]. now exists q, c.
  - intros [H|[q [c [Hq H]]]]; [now left|right].
    exists c. split; [|assumption]. apply In_children. now exists q.
Qed.

(** ** Insertion keeps the shape *)

Lemma WF_new_node (cap : nat) (c s : fpoint) : WF cap (new_node c s).
Proof.
  apply WF_leaf; simpl; try lia; try constructor.
  intros [|[|[|[|q]]]]; reflexivity.
Qed.

Lemma points_leaf (n : QuadTreeNode) :
  (forall q, get_child n q = None) -> points n = bucket n.
Proof.
  intros H. rewrite points_eq.
  replace (children n) with (@nil QuadTreeNode); [simpl; apply app_nil_r|].
  unfold children. cbn [seq flat_map]. now rewrite !H.
Qed.

Lemma geom_same (n n' : QuadTreeNode) (q : nat) (c : QuadTreeNode) :
  center n' = center n -> size n' = size n -> geom n q c -> geom n' q c.
Proof.
  unfold geom, child_center. intros -> ->. tauto.
Qed.

Lemma quadrant_same (n n' : QuadTreeNode) (p : point) :
  center n' = center n -> quadrant n' p = quadrant n p.
Proof. unfold quadrant. now intros ->. Qed.

Lemma fitting_child_node_spec (n : QuadTreeNode) (w : point) :
  forall n1 q ch, fitting_child_node n w = (n1, q, ch) ->
    q = quadrant n w /\ get_child n1 q = Some ch /\
    (forall q', q' <> q -> get_child n1 q' = get_child n q') /\
    center n1 = center n /\ size n1 = size n /\
    bucket n1 = bucket n /\ leaf n1 = leaf n /\
    (get_child n q = Some ch \/
     get_child n q = None /\
     ch = new_node (child_center n q) (half (X (size n)), half (Y (size n)))).
Proof.
  intros n1 q ch. unfold fitting_child_node.
  pose proof (quadrant_lt n w) as Hlt.
  destruct (get_child n (quadrant n w)) as [c|] eqn:E; intros H; inversion H; subst.
  - repeat split; auto.
  - destruct (set_child_fields n (quadrant n w)
               (Some (new_node (child_center n (quadrant n w))
                        (half (X (size n)), half (Y (size n))))))
      as (Hc & Hs & Hb & Hl).
    repeat split; auto.
    + now apply get_set_same.
    + intros q' Hq'. apply get_set_other. congruence.
Qed.

Lemma insert_fitting_spec (cap : nat) rec (w : point) (n n' : QuadTreeNode) :
  insert_ok cap rec -> stem_ok cap n -> insert_fitting rec w n = Some n' ->
  stem_ok cap n' /\ (forall p, below n' p <-> p = w \/ below n p) /\
  center n' = center n /\ size n' = size n /\
  bucket n' = bucket n /\ leaf n' = leaf n.
Proof.
  intros Hrec Hok. unfold insert_fitting.
  destruct (fitting_child_node n w) as [[n1 q] ch] eqn:F.
  apply fitting_child_node_spec in F.
  destruct F as (Hq & Hget & Hoth & Hc & Hs & Hb & Hl & Hch).
  destruct (rec w ch) as [ch'|] eqn:R; [|discriminate].
  intros H; inversion H; subst n'; clear H.
  assert (Hlt : (q < 4)%nat) by (subst q; apply quadrant_lt).
  assert (Hwf : WF cap ch /\ geom n q ch /\
                (forall p, In p (points ch) -> quadrant n p = q) /\
                (forall p, In p (points ch) -> below n p)).
  { destruct Hch as [E|[E ->]].
    - destruct (Hok _ _ E) as (A & B & C). repeat split; auto; try apply B.
      intros p Hp. now exists q, ch.
    - split; [apply WF_new_node|]. split; [split; reflexivity|].
      split; intros p Hp; rewrite points_leaf in Hp; simpl in Hp; try tauto;
        intros [|[|[|[|k]]]]; reflexivity. }
  destruct Hwf as (Hwf & Hgeom & Hroute & Hbelow).
  destruct (Hrec _ _ _ Hwf R) as (Hwf' & Hpts & Hc' & Hs').
  destruct (set_child_fields n1 q (Some ch')) as (Fc & Fs & Fb & Fl).
  split; [|split].
  - intros q' c' Hq'. destruct (Nat.eq_dec q q') as [<-|Hne].
    + rewrite get_set_same in Hq' by assumption. inversion Hq'; subst c'.
      split; [assumption|]. split.
      * apply geom_same with (n := n); [congruence|congruence|].
        destruct Hgeom as [G1 G2]. split; congruence.
      * intros p Hp. rewrite quadrant_same with (n := n) by congruence.
        apply Hpts in Hp. destruct Hp as [->|Hp]; [now symmetry|auto].
    + rewrite get_set_other in Hq' by assumption.
      rewrite Hoth in Hq' by congruence.
      destruct (Hok _ _ Hq') as (A & B & C). split; [assumption|]. split.
      * apply geom_same with (n := n); congruence.
      * intros p Hp. rewrite quadrant_same with (n := n) by congruence. auto.
  - intros p. split.
    + intros (q' & c' & Hq' & Hp). destruct (Nat.eq_dec q q') as [<-|Hne].
      * rewrite get_set_same in Hq' by assumption. inversion Hq'; subst c'.
        apply Hpts in Hp. destruct Hp as [->|Hp]; [now left|right; auto].
      * rewrite get_set_other in Hq' by assumption.
        rewrite Hoth in Hq' by congruence. right. now exists q', c'.
    + intros [->|(q' & c' & Hq' & Hp)].
      * exists q, ch'. split; [now apply get_set_same|]. apply Hpts. now left.
      * destruct (Nat.eq_dec q q') as [<-|Hne].
        -- exists q, ch'. split; [now apply get_set_same|]. apply Hpts. right.
           destruct Hch as [E|[E _]]; congruence.
        -- exists q', c'. split; [|assumption].
           rewrite get_set_other by assumption. rewrite Hoth; congruence.
  - repeat split; congruence.
Qed.

Lemma reinsert_spec (cap : nat) rec (b : list point) :
  insert_ok cap rec ->
  forall n n', stem_ok cap n -> reinsert rec b (Some n) = Some n' ->
  stem_ok cap n' /\ (forall p, below n' p <-> In p b \/ below n p) /\
  center n' = center n /\ size n' = size n /\
  bucket n' = bucket n /\ leaf n' = leaf n.
Proof.
  intros Hrec. unfold reinsert. induction b as [|w b IH]; simpl; intros n n' Hok H.
  - inversion H; subst. split; [assumption|].
    split; [intros p; simpl; tauto|repeat split].
  - destruct (insert_fitting rec w n) as [m|] eqn:E.
    + destruct (@insert_fitting_spec _ _ _ _ _ Hrec Hok E) as (A & B & C & D & F & G).
      destruct (IH _ _ A H) as (A' & B' & C' & D' & F' & G').
      split; [assumption|]. split; [|repeat split; congruence].
      intros p. rewrite B', B. simpl. split.
      * intros [H1|[H1|H1]]; [left; now right|left; left; now symmetry|now right].
      * intros [[H1|H1]|H1]; [right; left; now symmetry|now left|right; now right].
    + exfalso. clear -H. induction b; simpl in H; [discriminate|auto].
Qed.

Lemma get_child_set_bucket (n : QuadTreeNode) (b : list point) (q : nat) :
  get_child (set_bucket n b) q = get_child n q.
Proof. destruct q as [|[|[|[|q]]]]; reflexivity. Qed.

Lemma get_child_set_leaf (n : QuadTreeNode) (l : bool) (q : nat) :
  get_child (set_leaf n l) q = get_child n q.
Proof. destruct q as [|[|[|[|q]]]]; reflexivity. Qed.

Lemma In_points_below (n : QuadTreeNode) (p : point) :
  In p (points n) <-> In p (bucket n) \/ below n p.
Proof. apply In_points. Qed.

Lemma stem_ok_same (cap : nat) (n n' : QuadTreeNode) :
  (forall q, get_child n' q = get_child n q) ->
  center n' = center n -> size n' = size n ->
  stem_ok cap n -> stem_ok cap n'.
Proof.
  intros Hg Hc Hs Hok q c Hq. rewrite Hg in Hq.
  destruct (Hok _ _ Hq) as (A & B & C). split; [assumption|]. split.
  - now apply geom_same with (n := n).
  - intros p Hp. rewrite quadrant_same with (n := n) by assumption. auto.
Qed.

Lemma below_same (n n' : QuadTreeNode) (p : point) :
  (forall q, get_child n' q = get_child n q) -> below n' p <-> below n p.
Proof.
  intros Hg. unfold below. split; intros (q & c & Hq & Hp); exists q, c.
  - now rewrite <- Hg.
  - now rewrite Hg.
Qed.

Lemma WF_leaf_inv (cap : nat) (n : QuadTreeNode) :
  WF cap n -> leaf n = true ->
  (forall q, get_child n q = None) /\ (length (bucket n) <= cap)%nat /\
  NoDup (bucket n).
Proof. intros H L. inversion H; subst; [auto|congruence]. Qed.

Lemma WF_stem_inv (cap : nat) (n : QuadTreeNode) :
  WF cap n -> leaf n = false ->
  bucket n = [] /\ stem_ok cap n /\ points n <> [].
Proof. intros H L. inversion H; subst; [congruence|auto]. Qed.

Lemma nonempty_In (A : Type) (l : list A) (x : A) : In x l -> l <> [].
Proof. intros H ->. inversion H. Qed.

Theorem insert_spec (cap fuel : nat) : insert_ok cap (_insert fuel cap).
Proof.
  induction fuel as [|fuel IH]; intros v n n' Hwf H; simpl in H; [discriminate|].
  destruct (leaf n) eqn:L.
  - destruct (WF_leaf_inv Hwf L) as (Hnc & Hlen & Hnd).
    pose proof (points_leaf _ Hnc) as Hpts.
    destruct (length (bucket n) <? cap)%nat eqn:Lt.
    + destruct (mem v (bucket n)) eqn:M; simpl in H; inversion H; subst n'.
      * split; [assumption|]. split; [|split; reflexivity].
        intros p. split; [now right|]. intros [->|Hp]; [|assumption].
        rewrite Hpts. now apply mem_In.
      * apply Nat.ltb_lt in Lt. apply mem_not_In in M.
        assert (Hnc' : forall q, get_child (set_bucket n (bucket n ++ [v])) q = None)
          by (intros q; now rewrite get_child_set_bucket).
        split; [|split; [|split; reflexivity]].
        -- apply WF_leaf; simpl; auto.
           ++ rewrite length_app. simpl. lia.
           ++ apply NoDup_app; auto.
              ** constructor; [intros []|constructor].
              ** intros a Ha [<-|[]]. contradiction.
        -- intros p. rewrite (points_leaf _ Hnc'), Hpts. simpl.
           rewrite in_app_iff. simpl. intuition.
    + destruct (insert_fitting (_insert fuel cap) v (set_leaf n false))
        as [node2|] eqn:E2; [|discriminate].
      destruct (reinsert (_insert fuel cap) (bucket n) (Some node2))
        as [node3|] eqn:E3; [|discriminate].
      inversion H; subst n'; clear H.
      assert (Hok1 : stem_ok cap (set_leaf n false)).
      { intros q c Hq. rewrite get_child_set_leaf, Hnc in Hq. discriminate. }
      destruct (@insert_fitting_spec _ _ _ _ _ IH Hok1 E2)
        as (Hok2 & Hb2 & Hc2 & Hs2 & Hbk2 & Hl2).
      destruct (@reinsert_spec _ _ _ IH _ _ Hok2 E3)
        as (Hok3 & Hb3 & Hc3 & Hs3 & Hbk3 & Hl3).
      simpl in Hc2, Hs2, Hbk2, Hl2.
      assert (Hbelow : forall p, below (set_bucket node3 []) p <->
                                 p = v \/ In p (bucket n)).
      { intros p. rewrite below_same with (n := node3)
          by (intros q; apply get_child_set_bucket).
        rewrite Hb3, Hb2. split; [|tauto].
        intros [Hp|[Hp|(q & c & Hq & _)]]; auto.
        rewrite get_child_set_leaf, Hnc in Hq. discriminate. }
      split; [|split; [|split; simpl; congruence]].
      * apply WF_stem; simpl; try congruence.
        -- apply stem_ok_same with (n := node3); auto;
             intros q; apply get_child_set_bucket.
        -- apply (@nonempty_In _ _ v). apply In_points_below. right.
           apply Hbelow. now left.
      * intros p. rewrite In_points_below, Hbelow, Hpts. simpl. tauto.
  - destruct (WF_stem_inv Hwf L) as (Hbk & Hok & Hne).
    destruct (@insert_fitting_spec _ _ _ _ _ IH Hok H)
      as (Hok' & Hb' & Hc' & Hs' & Hbk' & Hl').
    split; [|split; [|split; assumption]].
    + apply WF_stem; try congruence; [exact Hok'|].
      apply (@nonempty_In _ _ v). apply In_points_below. right.
      apply Hb'. now left.
    + intros p. rewrite !In_points_below, Hb', Hbk', Hbk. simpl. tauto.
Qed.

Lemma points_slots (n : QuadTreeNode) :
  points n = bucket n ++ opt_points (get_child n 0) ++ opt_points (get_child n 1)
             ++ opt_points (get_child n 2) ++ opt_points (get_child n 3).
Proof.
  rewrite points_eq. f_equal. unfold children. cbn [seq flat_map].
  rewrite !flat_map_app. cbn [flat_map]. rewrite !app_nil_r.
  destruct (get_child n 0), (get_child n 1), (get_child n 2), (get_child n 3);
    simpl; rewrite ?app_nil_r; reflexivity.
Qed.

Lemma WF_preorder (cap : nat) (n : QuadTreeNode) :
  WF cap n -> forall m, In m (preorder n) -> WF cap m.
Proof.
  induction n as [n IH] using node_ind'. intros Hwf m Hm.
  rewrite preorder_eq in Hm. destruct Hm as [<-|Hm]; [assumption|].
  apply in_flat_map in Hm. destruct Hm as (c & Hc & Hm).
  apply In_children in Hc. destruct Hc as [q Hq].
  destruct (leaf n) eqn:L.
  - destruct (WF_leaf_inv Hwf L) as (Hnc & _). rewrite Hnc in Hq. discriminate.
  - destruct (WF_stem_inv Hwf L) as (_ & Hok & _).
    destruct (Hok _ _ Hq) as (Hc & _). eapply IH; eauto.
Qed.

Lemma WF_NoDup (cap : nat) (n : QuadTreeNode) : WF cap n -> NoDup (points n).
Proof.
  induction n as [n IH] using node_ind'. intros Hwf.
  destruct (leaf n) eqn:L.
  - destruct (WF_leaf_inv Hwf L) as (Hnc & _ & Hnd). now rewrite points_leaf.
  - destruct (WF_stem_inv Hwf L) as (Hbk & Hok & _).
    assert (Hs : forall q, NoDup (opt_points (get_child n q)) /\
                           forall p, In p (opt_points (get_child n q)) ->
                                     quadrant n p = q).
    { intros q. destruct (get_child n q) as [c|] eqn:E; simpl.
      - destruct (Hok _ _ E) as (A & _ & C). split; [eapply IH; eauto|exact C].
      - split; [constructor|tauto]. }
    rewrite points_slots, Hbk. cbn [app].
    repeat (apply NoDup_app; [apply Hs| |]); try apply Hs;
      intros p Hp Hp'; rewrite ?in_app_iff in Hp';
      apply Hs in Hp;
      repeat (destruct Hp' as [Hp'|Hp']); apply Hs in Hp'; congruence.
Qed.

Lemma contains_from_eq (v : point) (n : QuadTreeNode) :
  contains_from v n =
  if negb (leaf n) then
    match get_child n (quadrant n v) with
    | Some c => contains_from v c
    | None => false
    end
  else mem v (bucket n).
Proof.
  destruct n as [c0 c1 c2 c3 ce sz b l]. simpl. destruct l; simpl; [reflexivity|].
  unfold quadrant. simpl.
  destruct (geb (X v) (X ce)), (geb (Y v) (Y ce)); reflexivity.
Qed.

(** The descent of [__contains__] finds exactly the points held. *)
Theorem contains_from_correct (cap : nat) (v : point) (n : QuadTreeNode) :
  WF cap n -> (contains_from v n = true <-> In v (points n)).
Proof.
  induction n as [n IH] using node_ind'. intros Hwf.
  rewrite contains_from_eq. destruct (leaf n) eqn:L; simpl.
  - destruct (WF_leaf_inv Hwf L) as (Hnc & _). rewrite points_leaf by assumption.
    apply mem_In.
  - destruct (WF_stem_inv Hwf L) as (Hbk & Hok & _).
    rewrite In_points_below, Hbk. simpl.
    destruct (get_child n (quadrant n v)) as [c|] eqn:E.
    + destruct (Hok _ _ E) as (A & _ & _). rewrite (IH _ _ E A). split.
      * intros Hv. right. now exists (quadrant n v), c.
      * intros [[]|(q & c' & Hq & Hv)].
        destruct (Hok _ _ Hq) as (_ & _ & C). rewrite (C _ Hv) in E.
        congruence.
    + split; [discriminate|]. intros [[]|(q & c' & Hq & Hv)].
      destruct (Hok _ _ Hq) as (_ & _ & C). rewrite (C _ Hv) in E.
      congruence.
Qed.

Lemma flat_map_ext_In (A B : Type) (f g : A -> list B) (l : list A) :
  (forall a, In a l -> f a = g a) -> flat_map f l = flat_map g l.
Proof.
  induction l as [|a l IH]; simpl; intros H; [reflexivity|].
  rewrite H by now left. f_equal. apply IH. intros b Hb. apply H. now right.
Qed.

Lemma iter_points_eq (cap : nat) (n : QuadTreeNode) :
  WF cap n ->
  flat_map (fun m => if leaf m then bucket m else []) (preorder n) = points n.
Proof.
  intros Hwf. unfold points.
  apply flat_map_ext_In. intros m Hm.
  pose proof (WF_preorder Hwf _ Hm) as Hm'.
  destruct (leaf m) eqn:L; [reflexivity|].
  destruct (WF_stem_inv Hm' L) as (Hbk & _). now rewrite Hbk.
Qed.

Lemma remove_rec_eq (cap : nat) (v : point) (n : QuadTreeNode) :
  remove_rec cap v n =
  if negb (leaf n) then
    match get_child n (quadrant n v) with
    | Some m =>
        match remove_rec cap v m with
        | Some (m', go) =>
            Some (climb cap go (set_child n (quadrant n v) (Some m')))
        | None => None
        end
    | None => None
    end
  else if mem v (bucket n) then Some (set_bucket n (remove_first v (bucket n)), true)
  else None.
Proof.
  destruct n as [c0 c1 c2 c3 ce sz b l]. cbn [remove_rec leaf bucket].
  destruct l; cbn [negb]; [reflexivity|].
  generalize (quadrant (Node c0 c1 c2 c3 ce sz b false) v).
  intros [|[|[|[|q]]]]; reflexivity.
Qed.

Lemma leaf_path_eq (v : point) (n : QuadTreeNode) :
  leaf_path v n =
  if negb (leaf n) then
    match get_child n (quadrant n v) with
    | Some m => option_map (cons (quadrant n v)) (leaf_path v m)
    | None => None
    end
  else Some [].
Proof.
  destruct n as [c0 c1 c2 c3 ce sz b l]. cbn [leaf_path leaf].
  destruct l; cbn [negb]; [reflexivity|].
  generalize (quadrant (Node c0 c1 c2 c3 ce sz b false) v).
  intros [|[|[|[|q]]]]; reflexivity.
Qed.

Lemma descend_eq (v : point) (n : QuadTreeNode) (toploc : list nat) (trace : list (list nat)) :
  descend v n toploc trace =
  if negb (leaf n) then
    match get_child n (quadrant n v) with
    | Some m => descend v m (toploc ++ [quadrant n v])
                        (trace ++ [toploc ++ [quadrant n v]])
    | None => None
    end
  else Some trace.
Proof.
  destruct n as [c0 c1 c2 c3 ce sz b l]. cbn [descend leaf].
  destruct l; cbn [negb]; [reflexivity|].
  generalize (quadrant (Node c0 c1 c2 c3 ce sz b false) v).
  intros [|[|[|[|q]]]]; reflexivity.
Qed.

Lemma prefixes_head (p : list nat) : prefixes p = [] :: tl (prefixes p).
Proof. destruct p; reflexivity. Qed.

Lemma descend_path (v : point) (n : QuadTreeNode) :
  forall toploc trace,
    descend v n toploc trace =
    option_map (fun p => trace ++ map (app toploc) (tl (prefixes p)))
               (leaf_path v n).
Proof.
  induction n as [n IH] using node_ind'. intros toploc trace.
  rewrite descend_eq, leaf_path_eq. destruct (leaf n); cbn [negb].
  - simpl. now rewrite app_nil_r.
  - destruct (get_child n (quadrant n v)) as [m|] eqn:E; [|reflexivity].
    rewrite (IH _ _ E). destruct (leaf_path v m) as [p|]; [|reflexivity].
    cbn [option_map prefixes tl]. f_equal.
    rewrite (prefixes_head p) at 2. cbn [map].
    rewrite <- app_assoc. cbn [app]. do 2 f_equal.
    rewrite !map_map. apply map_ext. intros a. now rewrite <- app_assoc.
Qed.

Lemma last_map_cons (q : nat) (l : list (list nat)) :
  l <> [] -> last (map (cons q) l) [] = q :: last l [].
Proof.
  induction l as [|a l IH]; [congruence|]. intros _.
  destruct l as [|b l]; [reflexivity|].
  change (last (map (cons q) (b :: l)) [] = q :: last (b :: l) []).
  apply IH. discriminate.
Qed.

Lemma last_prefixes (p : list nat) : last (prefixes p) [] = p.
Proof.
  induction p as [|q p IH]; [reflexivity|].
  cbn [prefixes].
  assert (H : prefixes p <> []) by (rewrite prefixes_head; discriminate).
  pose proof (last_map_cons q H) as E. rewrite IH in E.
  destruct (map (cons q) (prefixes p)) as [|a l] eqn:M.
  - destruct (prefixes p); [congruence|discriminate].
  - exact E.
Qed.

Lemma ancestors_cons (q : nat) (p : list nat) :
  ancestors (q :: p) = map (cons q) (ancestors p) ++ [[]].
Proof.
  unfold ancestors. cbn [prefixes rev]. rewrite <- map_rev.
  destruct (rev (prefixes p)) as [|a l] eqn:E.
  - exfalso. apply (f_equal (@length (list nat))) in E. rewrite length_rev in E.
    rewrite prefixes_head in E. discriminate.
  - reflexivity.
Qed.

Lemma set_child_same (n : QuadTreeNode) (q : nat) (c : QuadTreeNode) :
  get_child n q = Some c -> set_child n q (Some c) = n.
Proof.
  destruct n. destruct q as [|[|[|[|q]]]]; simpl; intros H;
    try reflexivity; now rewrite H.
Qed.

Lemma set_child_twice (n : QuadTreeNode) (q : nat) (x y : option QuadTreeNode) :
  set_child (set_child n q x) q y = set_child n q y.
Proof. destruct n. destruct q as [|[|[|[|q]]]]; reflexivity. Qed.

Lemma reduce_loop_fst (cap : nat) (rtrace : list (list nat)) (r : QuadTreeNode) :
  reduce_loop cap rtrace r = fst (reduce_loop_go cap rtrace r).
Proof.
  revert r. induction rtrace as [|l rest IH]; intros r; simpl; [reflexivity|].
  destruct (node_at l r) as [top|]; [|reflexivity].
  destruct (count_keys top) as [k|]; [|reflexivity].
  destruct (k <=? cap)%nat; [apply IH|reflexivity].
Qed.

Lemma reduce_loop_go_app (cap : nat) (A B : list (list nat)) (r : QuadTreeNode) :
  reduce_loop_go cap (A ++ B) r =
  let (r', go) := reduce_loop_go cap A r in
  if go then reduce_loop_go cap B r' else (r', false).
Proof.
  revert r. induction A as [|l A IH]; intros r; simpl; [reflexivity|].
  destruct (node_at l r) as [top|]; [|reflexivity].
  destruct (count_keys top) as [k|]; [|reflexivity].
  destruct (k <=? cap)%nat; [apply IH|reflexivity].
Qed.

Lemma reduce_loop_go_below (cap : nat) (q : nat) (A : list (list nat)) :
  forall r c, get_child r q = Some c ->
    reduce_loop_go cap (map (cons q) A) r =
    let (c', go) := reduce_loop_go cap A c in (set_child r q (Some c'), go).
Proof.
  induction A as [|l A IH]; intros r c Hq; simpl.
  - now rewrite set_child_same.
  - rewrite Hq. destruct (node_at l c) as [top|];
      [|now rewrite set_child_same].
    destruct (count_keys top) as [k|]; [|now rewrite set_child_same].
    destruct (k <=? cap)%nat; [|now rewrite set_child_same].
    pose proof (get_child_lt _ _ Hq) as Hlt.
    rewrite (IH (set_child r q (Some (update_at l absorb c)))
                (update_at l absorb c)) by now apply get_set_same.
    destruct (reduce_loop_go cap A (update_at l absorb c)) as [c' go].
    now rewrite set_child_twice.
Qed.

Lemma reduce_loop_go_root (cap : nat) (r : QuadTreeNode) :
  reduce_loop_go cap [[]] r = climb cap true r.
Proof.
  unfold climb. simpl. destruct (count_keys r) as [k|]; [|reflexivity].
  destruct (k <=? cap)%nat; reflexivity.
Qed.

(** The recursion [remove_rec] is the descent, the deletion in the leaf
    and the loop of [_reduce] along the trace. *)
Lemma remove_rec_path (cap : nat) (v : point) (n : QuadTreeNode) :
  remove_rec cap v n =
  match leaf_path v n with
  | None => None
  | Some p =>
      match node_at p n with
      | None => None
      | Some top =>
          if mem v (bucket top) then
            Some (reduce_loop_go cap (ancestors p)
                    (update_at p (fun m => set_bucket m (remove_first v (bucket m))) n))
          else None
      end
  end.
Proof.
  induction n as [n IH] using node_ind'.
  rewrite remove_rec_eq, leaf_path_eq. destruct (leaf n); cbn [negb].
  - simpl. destruct (mem v (bucket n)); reflexivity.
  - destruct (get_child n (quadrant n v)) as [m|] eqn:E; [|reflexivity].
    rewrite (IH _ _ E). destruct (leaf_path v m) as [p|]; [|reflexivity].
    cbn [option_map node_at update_at]. rewrite E.
    destruct (node_at p m) as [top|]; [|reflexivity].
    destruct (mem v (bucket top)); [|reflexivity].
    rewrite ancestors_cons, reduce_loop_go_app.
    pose proof (get_child_lt _ _ E) as Hlt.
    rewrite reduce_loop_go_below
      with (c := update_at p (fun m0 => set_bucket m0 (remove_first v (bucket m0))) m)
      by now apply get_set_same.
    destruct (reduce_loop_go cap (ancestors p) _) as [c' go].
    rewrite set_child_twice. destruct go; [now rewrite reduce_loop_go_root|reflexivity].
Qed.

(** [remove] is the recursion [remove_rec] from the root. *)
Theorem remove_node_rec (cap : nat) (v : point) (r : QuadTreeNode) :
  remove_node cap v r =
  match remove_rec cap v r with
  | Some (r', _) => (true, r')
  | None => (false, r)
  end.
Proof.
  unfold remove_node. rewrite remove_rec_path, descend_path.
  destruct (leaf_path v r) as [p|]; [|reflexivity].
  cbn [option_map]. change ([[]] ++ map (app []) (tl (prefixes p)))
    with ([] :: map (app []) (tl (prefixes p))).
  replace (map (app []) (tl (prefixes p))) with (tl (prefixes p))
    by (symmetry; apply map_id).
  rewrite <- prefixes_head, last_prefixes.
  destruct (node_at p r) as [top|]; [|reflexivity].
  destruct (mem v (bucket top)); [|reflexivity].
  unfold _reduce. fold (ancestors p). rewrite reduce_loop_fst.
  destruct (reduce_loop_go cap (ancestors p) _); reflexivity.
Qed.

(** ** Removal keeps the shape *)

Lemma remove_first_In (v : point) (l : list point) :
  NoDup l -> forall p, In p (remove_first v l) <-> In p l /\ p <> v.
Proof.
  induction l as [|w l IH]; simpl; intros Hnd p; [tauto|].
  inversion Hnd as [|? ? Hw Hl]; subst.
  destruct (point_eqb v w) eqn:E.
  - apply point_eqb_eq in E. subst w. split.
    + intros Hp. split; [now right|]. intros ->. contradiction.
    + intros [[H|H] Hne]; [congruence|assumption].
  - assert (v <> w) by (intros ->; rewrite (proj2 (point_eqb_eq w w)) in E;
                        [discriminate|reflexivity]).
    simpl. rewrite (IH Hl). split.
    + intros [<-|[Hp Hne]]; [split; [now left|congruence]|split; [now right|assumption]].
    + intros [[H'|H'] Hne]; [now left|right; now split].
Qed.

Lemma remove_first_NoDup (v : point) (l : list point) :
  NoDup l -> NoDup (remove_first v l).
Proof.
  induction l as [|w l IH]; simpl; intros Hnd; [constructor|].
  inversion Hnd as [|? ? Hw Hl]; subst.
  destruct (point_eqb v w); [assumption|]. constructor; [|auto].
  intros Hin. apply (remove_first_In v Hl) in Hin. tauto.
Qed.

Lemma remove_first_length (v : point) (l : list point) :
  (length (remove_first v l) <= length l)%nat.
Proof.
  induction l as [|w l IH]; simpl; [lia|].
  destruct (point_eqb v w); simpl; lia.
Qed.

Lemma count_keys_eq (n : QuadTreeNode) :
  count_keys n =
  if opt_leaf (get_child n 0) && opt_leaf (get_child n 1)
     && opt_leaf (get_child n 2) && opt_leaf (get_child n 3)
  then Some (length (opt_bucket (get_child n 0) ++ opt_bucket (get_child n 1)
                     ++ opt_bucket (get_child n 2) ++ opt_bucket (get_child n 3)))
  else None.
Proof.
  unfold count_keys. cbn [seq fold_left].
  destruct (get_child n 0) as [a|]; cbn [opt_leaf opt_bucket];
    [destruct (leaf a); cbn [negb andb]|];
  (destruct (get_child n 1) as [b|]; cbn [opt_leaf opt_bucket];
    [destruct (leaf b); cbn [negb andb]|]);
  (destruct (get_child n 2) as [c|]; cbn [opt_leaf opt_bucket];
    [destruct (leaf c); cbn [negb andb]|]);
  (destruct (get_child n 3) as [d|]; cbn [opt_leaf opt_bucket];
    [destruct (leaf d); cbn [negb andb]|]);
  try reflexivity; apply f_equal; rewrite ?length_app; simpl; lia.
Qed.

Lemma absorb_eq (n : QuadTreeNode) :
  absorb n =
  Node None None None None (center n) (size n)
       (bucket n ++ opt_bucket (get_child n 0) ++ opt_bucket (get_child n 1)
        ++ opt_bucket (get_child n 2) ++ opt_bucket (get_child n 3))
       true.
Proof.
  destruct n as [c0 c1 c2 c3 ce sz b l]. unfold absorb.
  destruct c0, c1, c2, c3; cbn; rewrite <- ?app_assoc, ?app_nil_r; reflexivity.
Qed.

Lemma slots_NoDup (n : QuadTreeNode) :
  bucket n = [] ->
  (forall q c, get_child n q = Some c ->
               NoDup (points c) /\ forall p, In p (points c) -> quadrant n p = q) ->
  NoDup (points n).
Proof.
  intros Hbk Hok.
  assert (Hs : forall q, NoDup (opt_points (get_child n q)) /\
                         forall p, In p (opt_points (get_child n q)) ->
                                   quadrant n p = q).
  { intros q. destruct (get_child n q) as [c|] eqn:E; simpl.
    - now apply Hok.
    - split; [constructor|tauto]. }
  rewrite points_slots, Hbk. cbn [app].
  repeat (apply NoDup_app; [apply Hs| |]); try apply Hs;
    intros p Hp Hp'; rewrite ?in_app_iff in Hp';
    apply Hs in Hp;
    repeat (destruct Hp' as [Hp'|Hp']); apply Hs in Hp'; congruence.
Qed.

Lemma stem_NoDup (cap : nat) (n : QuadTreeNode) :
  bucket n = [] -> stem_ok cap n -> NoDup (points n).
Proof.
  intros Hbk Hok. apply slots_NoDup; [assumption|].
  intros q c Hq. destruct (Hok _ _ Hq) as (A & _ & C).
  split; [now apply WF_NoDup with (cap := cap)|assumption].
Qed.

(** When every present child is a leaf, the buckets of the children are
    the points of the node. *)
Lemma points_leaf_children (cap : nat) (n : QuadTreeNode) :
  bucket n = [] -> stem_ok cap n ->
  (forall q c, get_child n q = Some c -> leaf c = true) ->
  points n = opt_bucket (get_child n 0) ++ opt_bucket (get_child n 1)
             ++ opt_bucket (get_child n 2) ++ opt_bucket (get_child n 3).
Proof.
  intros Hbk Hok Hl. rewrite points_slots, Hbk. cbn [app].
  assert (H : forall q, opt_points (get_child n q) = opt_bucket (get_child n q)).
  { intros q. destruct (get_child n q) as [c|] eqn:E; [|reflexivity]. simpl.
    destruct (Hok _ _ E) as (A & _). apply points_leaf.
    now apply (WF_leaf_inv A (Hl _ _ E)). }
  now rewrite !H.
Qed.

Lemma opt_leaf_all (n : QuadTreeNode) :
  opt_leaf (get_child n 0) && opt_leaf (get_child n 1)
  && opt_leaf (get_child n 2) && opt_leaf (get_child n 3) = true <->
  forall q c, get_child n q = Some c -> leaf c = true.
Proof.
  rewrite !andb_true_iff. split.
  - intros [[[H0 H1] H2] H3] q c Hq.
    destruct q as [|[|[|[|q]]]]; try discriminate;
      rewrite Hq in *; assumption.
  - intros H. repeat split.
    + destruct (get_child n 0) eqn:E; [apply (H _ _ E)|reflexivity].
    + destruct (get_child n 1) eqn:E; [apply (H _ _ E)|reflexivity].
    + destruct (get_child n 2) eqn:E; [apply (H _ _ E)|reflexivity].
    + destruct (get_child n 3) eqn:E; [apply (H _ _ E)|reflexivity].
Qed.

Lemma some_stem_child (n : QuadTreeNode) :
  opt_leaf (get_child n 0) && opt_leaf (get_child n 1)
  && opt_leaf (get_child n 2) && opt_leaf (get_child n 3) = false ->
  exists q c, get_child n q = Some c /\ leaf c = false.
Proof.
  intros H.
  destruct (get_child n 0) as [a|] eqn:E0;
    [destruct (leaf a) eqn:La; [|now exists 0%nat, a]|];
  (destruct (get_child n 1) as [b|] eqn:E1;
    [destruct (leaf b) eqn:Lb; [|now exists 1%nat, b]|]);
  (destruct (get_child n 2) as [c|] eqn:E2;
    [destruct (leaf c) eqn:Lc; [|now exists 2%nat, c]|]);
  (destruct (get_child n 3) as [d|] eqn:E3;
    [destruct (leaf d) eqn:Ld; [|now exists 3%nat, d]|]);
  simpl in H; rewrite ?La, ?Lb, ?Lc, ?Ld in H; discriminate.
Qed.

(** What one step of the loop of [_reduce] does to a node whose children
    are in order and which holds a point below unless the loop is still
    running. *)
Lemma climb_spec (cap : nat) (go0 : bool) (n1 n' : QuadTreeNode) (go : bool) :
  leaf n1 = false -> bucket n1 = [] -> stem_ok cap n1 ->
  (go0 = false -> points n1 <> []) ->
  climb cap go0 n1 = (n', go) ->
  WF cap n' /\ leaf n' = go /\ points n' = points n1 /\
  center n' = center n1 /\ size n' = size n1.
Proof.
  intros L Hbk Hok Hne. unfold climb. destruct go0.
  - rewrite count_keys_eq.
    destruct (opt_leaf (get_child n1 0) && opt_leaf (get_child n1 1)
              && opt_leaf (get_child n1 2) && opt_leaf (get_child n1 3)) eqn:A.
    + pose proof (proj1 (opt_leaf_all n1) A) as Hall.
      rewrite <- (points_leaf_children Hbk Hok Hall).
      destruct (length (points n1) <=? cap)%nat eqn:K; intros H; inversion H; subst.
      * rewrite absorb_eq, Hbk. cbn [app].
        rewrite <- (points_leaf_children Hbk Hok Hall).
        apply Nat.leb_le in K.
        assert (Hnc : forall q, get_child (Node None None None None (center n1)
                                             (size n1) (points n1) true) q = None)
          by (intros [|[|[|[|q]]]]; reflexivity).
        split; [|split; [reflexivity|split; [now apply points_leaf|split; reflexivity]]].
        apply WF_leaf; simpl; auto. now apply stem_NoDup with (cap := cap).
      * apply Nat.leb_gt in K.
        split; [|repeat split; assumption].
        apply WF_stem; auto. intros E. rewrite E in K. simpl in K. lia.
    + intros H; inversion H; subst. split; [|repeat split; assumption].
      apply WF_stem; auto.
      destruct (some_stem_child _ A) as (q & c & Hq & Lc).
      destruct (Hok _ _ Hq) as (Wc & _).
      destruct (WF_stem_inv Wc Lc) as (_ & _ & Hc).
      destruct (points c) as [|p l] eqn:Ep; [congruence|].
      apply (@nonempty_In _ _ p). apply In_points_below. right.
      exists q, c. split; [assumption|]. rewrite Ep. now left.
  - intros H; inversion H; subst. split; [|repeat split; assumption].
    apply WF_stem; auto.
Qed.

(** What a successful removal does to a well-formed subtree. *)
Theorem remove_rec_spec (cap : nat) (v : point) (n : QuadTreeNode) :
  forall n' go, WF cap n -> remove_rec cap v n = Some (n', go) ->
    WF cap n' /\ leaf n' = go /\ In v (points n) /\
    (forall p, In p (points n') <-> In p (points n) /\ p <> v) /\
    center n' = center n /\ size n' = size n.
Proof.
  induction n as [n IH] using node_ind'. intros n' go Hwf.
  rewrite remove_rec_eq. destruct (leaf n) eqn:L; cbn [negb].
  - destruct (WF_leaf_inv Hwf L) as (Hnc & Hlen & Hnd).
    destruct (mem v (bucket n)) eqn:M; [|discriminate].
    intros H; inversion H; subst; clear H. apply mem_In in M.
    assert (Hnc' : forall q, get_child (set_bucket n (remove_first v (bucket n))) q
                             = None)
      by (intros q; now rewrite get_child_set_bucket).
    rewrite (points_leaf _ Hnc'), (points_leaf _ Hnc). simpl.
    split; [|repeat split; auto; try apply (remove_first_In v Hnd); tauto].
    apply WF_leaf; simpl; auto.
    + pose proof (remove_first_length v (bucket n)). lia.
    + now apply remove_first_NoDup.
  - destruct (WF_stem_inv Hwf L) as (Hbk & Hok & Hne).
    destruct (get_child n (quadrant n v)) as [m|] eqn:E; [|discriminate].
    destruct (remove_rec cap v m) as [[m' go0]|] eqn:R; [|discriminate].
    destruct (Hok _ _ E) as (Wm & Gm & Rm).
    destruct (IH _ _ E _ _ Wm R) as (Wm' & Lm' & Hv & Hpts & Hc & Hs).
    pose proof (get_child_lt _ _ E) as Hlt.
    set (q := quadrant n v) in *.
    set (n1 := set_child n q (Some m')).
    destruct (set_child_fields n q (Some m')) as (Fc & Fs & Fb & Fl).
    fold n1 in Fc, Fs, Fb, Fl.
    assert (Hok1 : stem_ok cap n1).
    { intros q' c' Hq'. unfold n1 in Hq'.
      destruct (Nat.eq_dec q q') as [<-|Hneq].
      - rewrite get_set_same in Hq' by assumption. inversion Hq'; subst c'.
        split; [assumption|]. split.
        + apply geom_same with (n := n); auto.
          destruct Gm as [G1 G2]. split; congruence.
        + intros p Hp. rewrite quadrant_same with (n := n) by assumption.
          apply Rm. now apply Hpts.
      - rewrite get_set_other in Hq' by assumption.
        destruct (Hok _ _ Hq') as (A & B & C). split; [assumption|]. split.
        + now apply geom_same with (n := n).
        + intros p Hp. rewrite quadrant_same with (n := n) by assumption. auto. }
    assert (Hbelow : forall p, In p (points n1) <-> In p (points n) /\ p <> v).
    { intros p. rewrite !In_points_below, Fb, Hbk. simpl. split.
      - intros [[]|(q' & c' & Hq' & Hp)]. unfold n1 in Hq'.
        destruct (Nat.eq_dec q q') as [<-|Hneq].
        + rewrite get_set_same in Hq' by assumption. inversion Hq'; subst c'.
          apply Hpts in Hp. split; [right; now exists q, m|tauto].
        + rewrite get_set_other in Hq' by assumption. split.
          * right. now exists q', c'.
          * intros ->. destruct (Hok _ _ Hq') as (_ & _ & C).
            apply C in Hp. fold q in Hp. congruence.
      - intros [[[]|(q' & c' & Hq' & Hp)] Hneq]. right.
        destruct (Nat.eq_dec q q') as [<-|Hq].
        + exists q, m'. split; [unfold n1; now apply get_set_same|].
          apply Hpts. split; [congruence|assumption].
        + exists q', c'. split; [|assumption].
          unfold n1. now rewrite get_set_other. }
    intros H.
    assert (Hne1 : go0 = false -> points n1 <> []).
    { intros ->. destruct (WF_stem_inv Wm' Lm') as (_ & _ & Hm').
      destruct (points m') as [|p l] eqn:Ep; [congruence|].
      apply (@nonempty_In _ _ p). apply In_points_below. right.
      exists q, m'. split; [unfold n1; now apply get_set_same|].
      rewrite Ep. now left. }
    assert (Hcl : climb cap go0 n1 = (n', go)) by (fold q in H; congruence).
    assert (L1 : leaf n1 = false) by congruence.
    assert (B1 : bucket n1 = []) by congruence.
    destruct (climb_spec L1 B1 Hok1 Hne1 Hcl) as (A & B & C & D & F).
    split; [assumption|]. split; [assumption|]. split.
    + apply In_points_below. right. now exists q, m.
    + split; [|split; congruence]. intros p. rewrite C. apply Hbelow.
Qed.

Lemma remove_rec_none (cap : nat) (v : point) (n : QuadTreeNode) :
  WF cap n -> remove_rec cap v n = None -> ~ In v (points n).
Proof.
  induction n as [n IH] using node_ind'. intros Hwf.
  rewrite remove_rec_eq. destruct (leaf n) eqn:L; cbn [negb].
  - destruct (WF_leaf_inv Hwf L) as (Hnc & _).
    rewrite (points_leaf _ Hnc).
    destruct (mem v (bucket n)) eqn:M; [discriminate|]. intros _.
    now apply mem_not_In.
  - destruct (WF_stem_inv Hwf L) as (Hbk & Hok & _).
    rewrite In_points_below, Hbk. simpl.
    destruct (get_child n (quadrant n v)) as [m|] eqn:E.
    + destruct (remove_rec cap v m) as [[m' go0]|] eqn:R.
      * unfold climb. destruct go0; [|discriminate].
        destruct (count_keys _); [|discriminate].
        destruct (_ <=? _)%nat; discriminate.
      * intros _ [[]|(q & c & Hq & Hp)].
        destruct (Hok _ _ E) as (Wm & _).
        destruct (Hok _ _ Hq) as (_ & _ & C). rewrite <- (C _ Hp) in Hq.
        apply (IH _ _ E Wm R). congruence.
    + intros _ [[]|(q & c & Hq & Hp)].
      destruct (Hok _ _ Hq) as (_ & _ & C). rewrite <- (C _ Hp) in Hq.
      congruence.
Qed.

(** ** Trees *)

Lemma init_fresh (log2 : float -> option float) (rg : fpoint * fpoint)
  (cap : nat) (t0 : QuadTree) :
  QuadTree_init log2 rg cap = Some t0 -> exists c s, t0 = fresh c s cap.
Proof.
  unfold QuadTree_init. destruct (center_size log2 rg) as [[c s]|]; [|discriminate].
  intros H; inversion H. now exists c, s.
Qed.

Lemma iter_points_points (t : QuadTree) :
  WF (max_bucket_size t) (root t) -> iter_points t = points (root t).
Proof. intros H. unfold iter_points. now apply iter_points_eq with (cap := max_bucket_size t). Qed.

Lemma add_spec (fuel : nat) (v : point) (t t' : QuadTree) :
  WF (max_bucket_size t) (root t) -> add fuel v t = Some t' ->
  WF (max_bucket_size t') (root t') /\ max_bucket_size t' = max_bucket_size t /\
  (forall p, In p (points (root t')) <-> p = v \/ In p (points (root t))) /\
  center (root t') = center (root t) /\ size (root t') = size (root t).
Proof.
  intros Hwf. unfold add.
  destruct (_insert fuel (max_bucket_size t) v (root t)) as [r|] eqn:E; [|discriminate].
  intros H; inversion H; subst; simpl.
  destruct (@insert_spec (max_bucket_size t) fuel v _ _ Hwf E) as (A & B & C & D).
  auto.
Qed.

Lemma remove_spec (v : point) (t : QuadTree) :
  WF (max_bucket_size t) (root t) ->
  let t' := snd (remove v t) in
  WF (max_bucket_size t') (root t') /\ max_bucket_size t' = max_bucket_size t /\
  (forall p, In p (points (root t')) <-> In p (points (root t)) /\ p <> v) /\
  center (root t') = center (root t) /\ size (root t') = size (root t) /\
  (fst (remove v t) = true <-> In v (points (root t))).
Proof.
  intros Hwf. unfold remove. rewrite remove_node_rec.
  destruct (remove_rec (max_bucket_size t) v (root t)) as [[r' go]|] eqn:E; simpl.
  - destruct (@remove_rec_spec _ _ _ _ _ Hwf E) as (A & B & C & D & F & G).
    split; [assumption|]. split; [reflexivity|]. split; [exact D|].
    split; [assumption|]. split; [assumption|]. split; auto.
  - pose proof (@remove_rec_none _ _ _ Hwf E) as Hn.
    split; [assumption|]. split; [reflexivity|]. split.
    { intros p. split; [|tauto]. intros Hp. split; [assumption|].
      intros ->. contradiction. }
    split; [reflexivity|]. split; [reflexivity|].
    split; [discriminate|]. intros Hv. contradiction.
Qed.

Lemma reachable_WF (c s : fpoint) (cap : nat) (t : QuadTree) :
  reachable (fresh c s cap) t ->
  WF cap (root t) /\ max_bucket_size t = cap /\
  center (root t) = c /\ size (root t) = s.
Proof.
  induction 1 as [|t fuel v t' Hr IH Ha|t v Hr IH].
  - simpl. repeat split. apply WF_new_node.
  - destruct IH as (A & B & C & D). rewrite <- B in A.
    destruct (@add_spec _ _ _ _ A Ha) as (A' & B' & _ & C' & D').
    rewrite B', B in A'. repeat split; congruence.
  - destruct IH as (A & B & C & D). rewrite <- B in A.
    destruct (@remove_spec v _ A) as (A' & B' & _ & C' & D' & _).
    rewrite B', B in A'. repeat split; congruence.
Qed.

Lemma reachable_init_WF (log2 : float -> option float) (rg : fpoint * fpoint)
  (cap : nat) (t0 t : QuadTree) :
  QuadTree_init log2 rg cap = Some t0 -> reachable t0 t ->
  WF cap (root t) /\ max_bucket_size t = cap.
Proof.
  intros Hi Hr. destruct (@init_fresh _ _ _ _ Hi) as (c & s & ->).
  destruct (@reachable_WF _ _ _ _ Hr) as (A & B & _). auto.
Qed.

(** A node that holds no point is a leaf with an empty bucket and no child. *)
Lemma WF_empty (cap : nat) (n : QuadTreeNode) :
  WF cap n -> points n = [] ->
  leaf n = true /\ bucket n = [] /\ forall q, get_child n q = None.
Proof.
  intros Hwf He. destruct (leaf n) eqn:L.
  - destruct (@WF_leaf_inv _ _ Hwf L) as (Hnc & _).
    rewrite (points_leaf _ Hnc) in He. auto.
  - destruct (@WF_stem_inv _ _ Hwf L) as (_ & _ & Hne). contradiction.
Qed.

Lemma remove_all_spec (l : list point) :
  forall t, WF (max_bucket_size t) (root t) ->
    let t' := remove_all l t in
    WF (max_bucket_size t') (root t') /\
    forall p, In p (points (root t')) <-> In p (points (root t)) /\ ~ In p l.
Proof.
  induction l as [|v l IH]; intros t Hwf; simpl.
  - split; [assumption|]. tauto.
  - destruct (@remove_spec v _ Hwf) as (A & B & C & _).
    destruct (IH _ A) as (A' & C'). split; [exact A'|].
    intros p. unfold remove_all in C'. rewrite C', C. intuition congruence.
Qed.

(** C2. Capacity invariant: in every state reached from a constructed tree
    by completed [add] calls (and [remove] calls), no leaf holds more than
    [capacity] points in its bucket. *)
Theorem capacity_invariant (log2 : float -> option float) (rg : fpoint * fpoint)
  (cap : nat) (t0 t : QuadTree) :
  QuadTree_init log2 rg cap = Some t0 -> reachable t0 t ->
  forall n, In n (preorder (root t)) -> leaf n = true ->
            (length (bucket n) <= cap)%nat.
Proof.
  intros Hi Hr n Hn L. destruct (@reachable_init_WF _ _ _ _ _ Hi Hr) as (Hwf & _).
  pose proof (@WF_preorder _ _ Hwf _ Hn) as Hw.
  now destruct (@WF_leaf_inv _ _ Hw L) as (_ & H & _).
Qed.

(** C3. Collapse invariant: when the points removed from a reached state
    cover every stored point, the root afterwards is a leaf with an empty
    bucket and no child: no stem is left. *)
Theorem collapse_invariant (log2 : float -> option float) (rg : fpoint * fpoint)
  (cap : nat) (t0 t : QuadTree)
  (l : list point) :
  QuadTree_init log2 rg cap = Some t0 -> reachable t0 t ->
  (forall p, In p (iter_points t) -> In p l) ->
  let t' := remove_all l t in
  leaf (root t') = true /\ bucket (root t') = [] /\
  (forall q, get_child (root t') q = None) /\ preorder (root t') = [root t'].
Proof.
  intros Hi Hr Hl t'. destruct (@reachable_init_WF _ _ _ _ _ Hi Hr) as (Hwf & Hcap).
  rewrite <- Hcap in Hwf. rewrite (@iter_points_points _ Hwf) in Hl.
  destruct (@remove_all_spec l _ Hwf) as (A & B). fold t' in A, B.
  assert (He : points (root t') = []).
  { destruct (points (root t')) as [|p ps] eqn:E; [reflexivity|].
    exfalso. assert (Hp : In p (p :: ps)) by now left.
    apply B in Hp. destruct Hp as [Hp Hn]. auto. }
  destruct (@WF_empty _ _ A He) as (L & Bk & Hnc). repeat split; auto.
  rewrite preorder_eq. f_equal. unfold children. cbn [seq flat_map].
  now rewrite !Hnc.
Qed.

(** C9. Node shape: in every reached state a stem has an empty bucket and
    at least one child, and a leaf has no child. *)
Theorem node_shape_invariant (log2 : float -> option float) (rg : fpoint * fpoint)
  (cap : nat) (t0 t : QuadTree) :
  QuadTree_init log2 rg cap = Some t0 -> reachable t0 t ->
  forall n, In n (preorder (root t)) ->
    (leaf n = false ->
     bucket n = [] /\ exists q c, get_child n q = Some c) /\
    (leaf n = true -> forall q, get_child n q = None).
Proof.
  intros Hi Hr n Hn. destruct (@reachable_init_WF _ _ _ _ _ Hi Hr) as (Hwf & _).
  pose proof (@WF_preorder _ _ Hwf _ Hn) as Hw. split; intros L.
  - destruct (@WF_stem_inv _ _ Hw L) as (Hbk & _ & Hne). split; [assumption|].
    destruct (points n) as [|p ps] eqn:E; [congruence|].
    assert (Hp : In p (points n)) by (rewrite E; now left).
    apply In_points_below in Hp. rewrite Hbk in Hp.
    destruct Hp as [[]|(q & c & Hq & _)]. now exists q, c.
  - now destruct (@WF_leaf_inv _ _ Hw L) as (H & _).
Qed.

(** C8. Tie-break of the routing: a point goes right exactly when its x is
    at least the centre's, up exactly when its y is at least the centre's,
    and a point equal to the centre goes to the upper right slot, index 3. *)
Theorem quadrant_tie_break (n : QuadTreeNode) (p : point) :
  (geb (X p) (X (center n)) = true <->
   quadrant n p = LOWER_RIGHT_QUAD \/ quadrant n p = UPPER_RIGHT_QUAD) /\
  (geb (Y p) (Y (center n)) = true <->
   quadrant n p = UPPER_LEFT_QUAD \/ quadrant n p = UPPER_RIGHT_QUAD) /\
  (eqb (X p) (X (center n)) = true -> eqb (Y p) (Y (center n)) = true ->
   quadrant n p = UPPER_RIGHT_QUAD) /\
  UPPER_RIGHT_QUAD = 3%nat.
Proof.
  unfold quadrant, LOWER_RIGHT_QUAD, UPPER_LEFT_QUAD, UPPER_RIGHT_QUAD.
  repeat split.
  - intros H. rewrite H.
    destruct (geb (Y p) (Y (center n))); simpl; auto.
  - destruct (geb (X p) (X (center n))) eqn:E; [reflexivity|].
    destruct (geb (Y p) (Y (center n))); simpl; intros [H|H]; discriminate.
  - intros H. rewrite H.
    destruct (geb (X p) (X (center n))); simpl; auto.
  - destruct (geb (Y p) (Y (center n))) eqn:E; [reflexivity|].
    destruct (geb (X p) (X (center n))); simpl; intros [H|H]; discriminate.
  - unfold eqb, geb, leb. intros Hx Hy.
    apply andb_true_iff in Hx, Hy. destruct Hx as [_ Hx]. destruct Hy as [_ Hy].
    now rewrite Hx, Hy.
Qed.

Lemma leaf_path_node_at (v : point) (n : QuadTreeNode) :
  forall p, leaf_path v n = Some p ->
            exists top, node_at p n = Some top /\ leaf top = true.
Proof.
  induction n as [n IH] using node_ind'. intros p.
  rewrite leaf_path_eq. destruct (leaf n) eqn:L; cbn [negb].
  - intros H; inversion H; subst. now exists n.
  - destruct (get_child n (quadrant n v)) as [m|] eqn:E; [|discriminate].
    destruct (leaf_path v m) as [p'|] eqn:P; [|discriminate].
    intros H; inversion H; subst. simpl. rewrite E. now apply (IH _ _ E).
Qed.

Lemma remove_first_split (v : point) (l : list point) :
  In v l ->
  exists b1 b2, l = b1 ++ v :: b2 /\ ~ In v b1 /\ remove_first v l = b1 ++ b2.
Proof.
  induction l as [|w l IH]; simpl; [tauto|]. intros H.
  destruct (point_eqb v w) eqn:E.
  - apply point_eqb_eq in E. subst w. exists [], l. simpl. auto.
  - assert (Hne : v <> w)
      by (intros ->; rewrite (proj2 (point_eqb_eq w w) eq_refl) in E; discriminate).
    destruct H as [H|H]; [congruence|].
    destruct (IH H) as (b1 & b2 & -> & Hn & Hr).
    exists (w :: b1), b2. simpl. rewrite Hr. repeat split.
    intros [H'|H']; [congruence|contradiction].
Qed.

Lemma update_at_ext (f g : QuadTreeNode -> QuadTreeNode) (l : list nat) :
  forall r top, node_at l r = Some top -> f top = g top ->
                update_at l f r = update_at l g r.
Proof.
  induction l as [|q l IH]; simpl; intros r top H E.
  - inversion H; subst. exact E.
  - destruct (get_child r q) as [c|]; [|reflexivity].
    now rewrite (IH c top H E).
Qed.


Lemma scenario_points :
  option_map (fun t => map coords (iter_points t)) scenario_tree
  = Some [(1, 1); (2, 2); (3, 3); (4, 4); (205, 205)]%Q.
Proof. vm_compute. reflexivity. Qed.

Lemma insert_room (cap : nat) (p : point) (n : QuadTreeNode) :
  has_room cap p n = true -> exists fuel n', _insert fuel cap p n = Some n'.
Proof.
  induction n as [n IH] using node_ind'. unfold has_room.
  rewrite leaf_path_eq. destruct (leaf n) eqn:L; cbn [negb].
  - simpl. intros H. exists 1%nat. simpl. rewrite L, H.
    destruct (negb (mem p (bucket n))); eauto.
  - destruct (get_child n (quadrant n p)) as [m|] eqn:E.
    + intros H.
      assert (Hm : has_room cap p m = true).
      { unfold has_room. destruct (leaf_path p m) as [path|]; [|exact H].
        simpl in H. now rewrite E in H. }
      destruct (IH _ _ E Hm) as (fuel & m' & Hins).
      exists (S fuel). simpl. rewrite L. unfold insert_fitting, fitting_child_node.
      rewrite E, Hins. eauto.
    + intros H. exists 2%nat. simpl. rewrite L.
      unfold insert_fitting, fitting_child_node. rewrite E. simpl. rewrite H.
      simpl. eauto.
Qed.

Lemma node_at_preorder (l : list nat) :
  forall r n, node_at l r = Some n -> In n (preorder r).
Proof.
  induction l as [|q l IH]; simpl; intros r n H.
  - inversion H; subst. rewrite preorder_eq. now left.
  - destruct (get_child r q) as [c|] eqn:E; [|discriminate].
    rewrite preorder_eq. right. apply in_flat_map. exists c. split.
    + apply In_children. now exists q.
    + now apply IH.
Qed.

(** ** Regions *)

Lemma point_in_region_iff (p mn mx : point) :
  point_in_region p mn mx = true <->
  X mn <= X p /\ X p <= X mx /\ Y mn <= Y p /\ Y p <= Y mx.
Proof.
  unfold point_in_region, geb. rewrite !andb_true_iff, !leb_le. tauto.
Qed.

Lemma in_region_iff (p : point) (n : QuadTreeNode) :
  in_region p n = true <->
  leb (X (fst (region n))) (X p) = true /\ leb (X p) (X (snd (region n))) = true /\
  leb (Y (fst (region n))) (Y p) = true /\ leb (Y p) (Y (snd (region n))) = true.
Proof.
  unfold in_region, point_in_region, geb. rewrite !andb_true_iff. tauto.
Qed.

(** One axis of [child_region]: [lo], [hi] bound the parent, [clo], [chi]
    the child, [cx] is the parent's centre. *)
Lemma axis_covers (lo hi clo chi cx : float) (p : Qc) (up : bool) :
  leb lo p = true -> leb p hi = true -> geb p cx = up ->
  (if up then leb clo cx && leb hi chi else leb clo lo && leb cx chi) = true ->
  leb clo p = true /\ leb p chi = true.
Proof.
  unfold geb, leb. intros A B U H. destruct up;
    apply andb_true_iff in H; destruct H as [H1 H2].
  - split; eapply fle_trans; eassumption.
  - split; [eapply fle_trans; eassumption|].
    apply (@fle_below (val cx)); assumption.
Qed.

(** A point of a node's region that is routed to slot [q] lies in the
    region of the child in that slot when the child covers its part. *)
Lemma child_region (n c : QuadTreeNode) (q : nat) (p : point) :
  covers n q c = true -> quadrant n p = q -> in_region p n = true ->
  in_region p c = true.
Proof.
  intros Hc Hq. rewrite !in_region_iff. unfold covers in Hc.
  unfold quadrant in Hq. intros (A & B & C & D).
  apply andb_true_iff in Hc. destruct Hc as [Hx Hy].
  assert (Ux : (2 <=? q)%nat = geb (X p) (X (center n)))
    by (subst q; destruct (geb (X p) (X (center n))),
                          (geb (Y p) (Y (center n))); reflexivity).
  assert (Uy : Nat.odd q = geb (Y p) (Y (center n)))
    by (subst q; destruct (geb (X p) (X (center n))),
                          (geb (Y p) (Y (center n))); reflexivity).
  rewrite Ux in Hx. rewrite Uy in Hy.
  destruct (@axis_covers _ _ _ _ _ _ _ A B eq_refl Hx) as [A' B'].
  destruct (@axis_covers _ _ _ _ _ _ _ C D eq_refl Hy) as [C' D'].
  auto.
Qed.

Lemma preorder_trans (n m a : QuadTreeNode) :
  In m (preorder n) -> In a (preorder m) -> In a (preorder n).
Proof.
  revert m a. induction n as [n IH] using node_ind'. intros m a Hm Ha.
  rewrite preorder_eq in Hm. destruct Hm as [<-|Hm]; [assumption|].
  apply in_flat_map in Hm. destruct Hm as (c & Hc & Hm).
  rewrite preorder_eq. right. apply in_flat_map. exists c. split; [assumption|].
  apply In_children in Hc. destruct Hc as [q Hq]. eapply IH; eauto.
Qed.

Lemma preorder_child (n c : QuadTreeNode) (q : nat) :
  get_child n q = Some c -> In c (preorder n).
Proof.
  intros Hq. rewrite preorder_eq. right. apply in_flat_map. exists c. split.
  - apply In_children. now exists q.
  - rewrite preorder_eq. now left.
Qed.

Lemma points_preorder (n m : QuadTreeNode) (p : point) :
  In m (preorder n) -> In p (points m) -> In p (points n).
Proof.
  revert m. induction n as [n IH] using node_ind'. intros m Hm Hp.
  rewrite preorder_eq in Hm. destruct Hm as [<-|Hm]; [assumption|].
  apply in_flat_map in Hm. destruct Hm as (c & Hc & Hm).
  apply In_children in Hc. destruct Hc as [q Hq].
  apply In_points_below. right. exists q, c. split; [assumption|].
  eapply IH; eauto.
Qed.

(** A point of a subtree that lies in the region of the root of a
    well-formed tree lies in the region of the root of the subtree, when
    each child above the point covers its part of its parent's region. *)
Lemma region_descends (cap : nat) (r : QuadTreeNode) :
  WF cap r ->
  forall m p, In m (preorder r) -> In p (points m) ->
              (forall a q c, In a (preorder r) -> get_child a q = Some c ->
                             In p (points c) -> covers a q c = true) ->
              in_region p r = true -> in_region p m = true.
Proof.
  induction r as [r IH] using node_ind'. intros Hwf m p Hm Hp Hcov Hr.
  rewrite preorder_eq in Hm. destruct Hm as [<-|Hm]; [assumption|].
  apply in_flat_map in Hm. destruct Hm as (c & Hc & Hm).
  apply In_children in Hc. destruct Hc as [q Hq].
  destruct (leaf r) eqn:L.
  - destruct (@WF_leaf_inv _ _ Hwf L) as (Hnc & _). rewrite Hnc in Hq. discriminate.
  - destruct (@WF_stem_inv _ _ Hwf L) as (_ & Hok & _).
    destruct (Hok _ _ Hq) as (Wc & Gc & Rc).
    assert (Hpc : In p (points c)) by now apply points_preorder with (m := m).
    apply (IH _ _ Hq Wc m p Hm Hp).
    + intros a q' c' Ha. apply Hcov.
      apply (@preorder_trans r c a); [now apply preorder_child with (q := q)|assumption].
    + apply (@child_region r c q p); [|now apply Rc|assumption].
      apply Hcov; [rewrite preorder_eq; now left|assumption|assumption].
Qed.

Lemma In_bucket_points (n : QuadTreeNode) (p : point) :
  In p (bucket n) -> In p (points n).
Proof. intros H. apply In_points_below. now left. Qed.


(** ** Range search *)

Lemma add_all_eq (n : QuadTreeNode) (r : list point) :
  add_all_points_to_results n r =
  if leaf n then r ++ bucket n
  else sub_all (get_child n 3) (sub_all (get_child n 2)
         (sub_all (get_child n 1) (sub_all (get_child n 0) r))).
Proof. destruct n. reflexivity. Qed.

Lemma add_all_app (n : QuadTreeNode) :
  forall r, add_all_points_to_results n r = r ++ add_all_points_to_results n [].
Proof.
  induction n as [n IH] using node_ind'. intros r.
  rewrite !add_all_eq. destruct (leaf n); [reflexivity|].
  assert (H : forall q r', sub_all (get_child n q) r'
                           = r' ++ sub_all (get_child n q) []).
  { intros q r'. unfold sub_all.
    destruct (get_child n q) as [m|] eqn:E; [now apply (IH q m)|now rewrite app_nil_r]. }
  rewrite (H 3%nat), (H 2%nat), (H 1%nat), (H 0%nat).
  rewrite (H 3%nat (sub_all _ _)), (H 2%nat (sub_all _ _)), (H 1%nat (sub_all _ _)).
  cbn [app]. now rewrite <- !app_assoc.
Qed.

Lemma add_all_points (cap : nat) (n : QuadTreeNode) :
  WF cap n -> add_all_points_to_results n [] = points n.
Proof.
  induction n as [n IH] using node_ind'. intros Hwf.
  rewrite add_all_eq. destruct (leaf n) eqn:L.
  - destruct (@WF_leaf_inv _ _ Hwf L) as (Hnc & _). now rewrite (points_leaf _ Hnc).
  - destruct (@WF_stem_inv _ _ Hwf L) as (Hbk & Hok & _).
    rewrite points_slots, Hbk. cbn [app].
    assert (H : forall q r', sub_all (get_child n q) r'
                             = r' ++ opt_points (get_child n q)).
    { intros q r'. unfold sub_all.
      destruct (get_child n q) as [m|] eqn:E; [|simpl; now rewrite app_nil_r].
      rewrite add_all_app. simpl. f_equal.
      apply (IH _ _ E). now destruct (Hok _ _ E). }
    rewrite !H. cbn [app]. now rewrite <- !app_assoc.
Qed.

Lemma status_outside (n : QuadTreeNode) (minXY maxXY p : point) :
  enclosure_status (center n) (size n) minXY maxXY = NODE_NOT_IN_REGION ->
  in_region p n = true -> point_in_region p minXY maxXY = false.
Proof.
  unfold enclosure_status. cbn [X Y fst snd].
  destruct (gtb _ _ || ltb _ _ || gtb _ _ || ltb _ _) eqn:E.
  - intros _ Hr. apply in_region_iff in Hr. unfold region in Hr.
    cbn [X Y fst snd] in Hr. destruct Hr as (A & B & C & D).
    destruct (point_in_region p minXY maxXY) eqn:Hp; [|reflexivity].
    unfold point_in_region, geb in Hp. rewrite !andb_true_iff in Hp.
    destruct Hp as (((A' & B') & C') & D').
    unfold gtb, ltb in E. rewrite !orb_true_iff in E. unfold leb in *.
    exfalso. destruct E as [[[E|E]|E]|E]; apply flt_fle in E.
    + rewrite (fle_trans _ _ _ A B') in E. discriminate.
    + rewrite (fle_trans _ _ _ A' B) in E. discriminate.
    + rewrite (fle_trans _ _ _ C D') in E. discriminate.
    + rewrite (fle_trans _ _ _ C' D) in E. discriminate.
  - destruct (_ =? 4)%nat; discriminate.
Qed.

Lemma status_contained (n : QuadTreeNode) (minXY maxXY p : point) :
  enclosure_status (center n) (size n) minXY maxXY = NODE_CONTAINED_BY_REGION ->
  in_region p n = true -> point_in_region p minXY maxXY = true.
Proof.
  unfold enclosure_status. cbn [X Y fst snd].
  destruct (gtb _ _ || ltb _ _ || gtb _ _ || ltb _ _); [discriminate|].
  destruct (point_in_region ((X (center n) - X (size n))%float,
                             (Y (center n) - Y (size n))%float) minXY maxXY) eqn:C1;
    destruct (point_in_region ((X (center n) - X (size n))%float,
                               (Y (center n) + Y (size n))%float) minXY maxXY) eqn:C2;
    destruct (point_in_region ((X (center n) + X (size n))%float,
                               (Y (center n) - Y (size n))%float) minXY maxXY) eqn:C3;
    destruct (point_in_region ((X (center n) + X (size n))%float,
                               (Y (center n) + Y (size n))%float) minXY maxXY) eqn:C4;
    simpl; try discriminate.
  intros _ Hr. apply in_region_iff in Hr. unfold region in Hr.
  cbn [X Y fst snd] in Hr. destruct Hr as (A & B & C & D).
  unfold point_in_region, geb in C1, C4. cbn [X Y fst snd] in C1, C4.
  rewrite !andb_true_iff in C1, C4.
  destruct C1 as (((A1 & _) & C1) & _). destruct C4 as (((_ & B4) & _) & D4).
  unfold point_in_region, geb. rewrite !andb_true_iff. unfold leb in *.
  repeat split; eapply fle_trans; eassumption.
Qed.

Lemma scan_fold (minXY maxXY : point) (l : list (option QuadTreeNode)) :
  forall ns rs,
    fold_left (fun (acc : list QuadTreeNode * list point) child =>
                 let (ns, rs) := acc in
                 match child with
                 | Some c =>
                     match enclosure_status (center c) (size c) minXY maxXY with
                     | NODE_CONTAINED_BY_REGION => (ns, add_all_points_to_results c rs)
                     | NODE_PARTIALLY_IN_REGION => (ns ++ [c], rs)
                     | NODE_NOT_IN_REGION => (ns, rs)
                     end
                 | None => (ns, rs)
                 end) l (ns, rs)
    = (ns ++ queued minXY maxXY l, rs ++ harvested minXY maxXY l).
Proof.
  induction l as [|o l IH]; intros ns rs; simpl.
  - now rewrite !app_nil_r.
  - destruct o as [c|]; [|apply IH].
    destruct (enclosure_status (center c) (size c) minXY maxXY);
      rewrite IH; simpl; rewrite <- ?app_assoc; try reflexivity.
    rewrite add_all_app. now rewrite <- app_assoc.
Qed.

Lemma scan_children_eq (minXY maxXY : point) (top : QuadTreeNode)
  (nodes : list QuadTreeNode) (results : list point) :
  scan_children minXY maxXY top nodes results
  = (nodes ++ queued minXY maxXY (child_list top),
     results ++ harvested minXY maxXY (child_list top)).
Proof. apply scan_fold. Qed.

Lemma In_child_list (n c : QuadTreeNode) :
  In (Some c) (child_list n) <-> exists q, get_child n q = Some c.
Proof.
  unfold child_list. rewrite in_map_iff. split.
  - intros (q & Hq & _). now exists q.
  - intros (q & Hq). exists q. split; [assumption|].
    apply in_seq. pose proof (get_child_lt _ _ Hq). lia.
Qed.

Lemma In_queued (minXY maxXY : point) (l : list (option QuadTreeNode))
  (c : QuadTreeNode) :
  In c (queued minXY maxXY l) <->
  In (Some c) l /\
  enclosure_status (center c) (size c) minXY maxXY = NODE_PARTIALLY_IN_REGION.
Proof.
  unfold queued. rewrite in_flat_map. split.
  - intros ([m|] & Hin & H); [|destruct H].
    destruct (enclosure_status (center m) (size m) minXY maxXY) eqn:E;
      simpl in H; try tauto.
    destruct H as [->|[]]. auto.
  - intros (Hin & E). exists (Some c). split; [assumption|]. rewrite E. now left.
Qed.

Lemma In_harvested (minXY maxXY : point) (l : list (option QuadTreeNode))
  (p : point) :
  In p (harvested minXY maxXY l) <->
  exists c, In (Some c) l /\
            enclosure_status (center c) (size c) minXY maxXY
            = NODE_CONTAINED_BY_REGION /\
            In p (add_all_points_to_results c []).
Proof.
  unfold harvested. rewrite in_flat_map. split.
  - intros ([m|] & Hin & H); [|destruct H].
    destruct (enclosure_status (center m) (size m) minXY maxXY) eqn:E;
      simpl in H; try tauto.
    exists m. auto.
  - intros (c & Hin & E & H). exists (Some c). split; [assumption|]. now rewrite E.
Qed.

Lemma weight_app (l1 l2 : list QuadTreeNode) :
  weight (l1 ++ l2) = (weight l1 + weight l2)%nat.
Proof. unfold weight. now rewrite flat_map_app, length_app. Qed.

Lemma weight_cons (c : QuadTreeNode) (l : list QuadTreeNode) :
  weight (c :: l) = (length (preorder c) + weight l)%nat.
Proof. unfold weight. simpl. now rewrite length_app. Qed.

Lemma weight_queued_le (minXY maxXY : point) (n : QuadTreeNode) (l : list nat) :
  (weight (queued minXY maxXY (map (get_child n) l))
   <= weight (flat_map (fun q => match get_child n q with
                                 | Some c => [c]
                                 | None => []
                                 end) l))%nat.
Proof.
  induction l as [|q l IH]; simpl; [lia|].
  rewrite !weight_app. fold (queued minXY maxXY (map (get_child n) l)).
  destruct (get_child n q) as [c|]; [|unfold weight at 1 3; simpl; lia].
  destruct (enclosure_status (center c) (size c) minXY maxXY);
    rewrite ?weight_cons; unfold weight at 1 3; simpl; lia.
Qed.

Lemma weight_queued (minXY maxXY : point) (n : QuadTreeNode) :
  (weight (queued minXY maxXY (child_list n)) < length (preorder n))%nat.
Proof.
  rewrite preorder_eq. simpl. apply Nat.lt_succ_r.
  apply (weight_queued_le minXY maxXY n (seq 0 4)).
Qed.

Lemma reported_leaf (minXY maxXY : point) (n : QuadTreeNode) (p : point) :
  leaf n = true ->
  (reported minXY maxXY n p <->
   In p match enclosure_status (center n) (size n) minXY maxXY with
        | NODE_NOT_IN_REGION => []
        | NODE_PARTIALLY_IN_REGION =>
            filter (fun v => point_in_region v minXY maxXY) (bucket n)
        | NODE_CONTAINED_BY_REGION => bucket n
        end).
Proof.
  intros L. split.
  - intros H. inversion H; subst; try congruence.
    + match goal with E : enclosure_status _ _ _ _ = _ |- _ => now rewrite E end.
    + match goal with E : enclosure_status _ _ _ _ = _ |- _ => rewrite E end.
      apply filter_In. auto.
  - destruct (enclosure_status (center n) (size n) minXY maxXY) eqn:E; intros H.
    + destruct H.
    + apply filter_In in H. destruct H. now apply rep_leaf_some.
    + now apply rep_leaf_all.
Qed.

Lemma reported_stem (cap : nat) (minXY maxXY : point) (n : QuadTreeNode) (p : point) :
  WF cap n -> leaf n = false ->
  (reported minXY maxXY n p <->
   In p (harvested minXY maxXY (child_list n)) \/
   exists c, In c (queued minXY maxXY (child_list n)) /\ reported minXY maxXY c p).
Proof.
  intros Hwf L. destruct (@WF_stem_inv _ _ Hwf L) as (_ & Hok & _). split.
  - intros H. inversion H; subst; try congruence.
    + left. apply In_harvested. exists c. split; [apply In_child_list; eauto|].
      split; [assumption|]. destruct (Hok _ _ H1) as (Wc & _).
      now rewrite (@add_all_points cap c Wc).
    + right. exists c. split; [|assumption]. apply In_queued.
      split; [apply In_child_list; eauto|assumption].
  - intros [H|(c & Hc & H)].
    + apply In_harvested in H. destruct H as (c & Hc & E & Hp).
      apply In_child_list in Hc. destruct Hc as [q Hq].
      destruct (Hok _ _ Hq) as (Wc & _). rewrite (@add_all_points cap c Wc) in Hp.
      now apply rep_child_all with (q := q) (c := c).
    + apply In_queued in Hc. destruct Hc as [Hc E].
      apply In_child_list in Hc. destruct Hc as [q Hq].
      now apply rep_child_queue with (q := q) (c := c).
Qed.

(** The loop of [range_search] returns when the budget covers the nodes
    below the queue, and reports, besides what was reported before, exactly
    what the nodes of the queue report. *)
Lemma search_loop_spec (cap : nat) (minXY maxXY : point) (fuel : nat) :
  forall nodes results,
    (forall n, In n nodes -> WF cap n) ->
    (weight nodes <= fuel)%nat ->
    exists res,
      search_loop fuel minXY maxXY nodes results = Some res /\
      forall p, In p res <->
                In p results \/
                exists n, In n nodes /\ reported minXY maxXY n p.
Proof.
  induction fuel as [|fuel IH]; intros nodes results Hgood Hw.
  - destruct nodes as [|top rest].
    + exists results. split; [reflexivity|]. intros p. split; [now left|].
      intros [H|(n & [] & _)]. assumption.
    + exfalso. unfold weight in Hw. simpl in Hw. rewrite preorder_eq in Hw.
      simpl in Hw. lia.
  - destruct nodes as [|top rest].
    + exists results. split; [reflexivity|]. intros p. split; [now left|].
      intros [H|(n & [] & _)]. assumption.
    + assert (Wf : WF cap top) by (apply Hgood; now left).
      assert (Grest : forall n, In n rest -> WF cap n)
        by (intros n Hn; apply Hgood; now right).
      change (top :: rest) with ([top] ++ rest) in Hw. rewrite weight_app in Hw.
      assert (Wtop : weight [top] = length (preorder top))
        by (unfold weight; simpl; now rewrite app_nil_r).
      cbn [search_loop]. destruct (leaf top) eqn:L.
      * cbn [tl].
        assert (Wrest : (weight rest <= fuel)%nat).
        { rewrite Wtop, preorder_eq in Hw. simpl in Hw. lia. }
        destruct (IH rest
                    match enclosure_status (center top) (size top) minXY maxXY with
                    | NODE_NOT_IN_REGION => results
                    | NODE_PARTIALLY_IN_REGION =>
                        results ++ filter (fun v => point_in_region v minXY maxXY)
                                          (bucket top)
                    | NODE_CONTAINED_BY_REGION => results ++ bucket top
                    end Grest Wrest) as (res & Hres & Hiff).
        exists res. split; [exact Hres|]. intros p. rewrite Hiff. clear Hiff Hres.
        pose proof (@reported_leaf minXY maxXY top p L) as Htop.
        assert (Hm : In p match enclosure_status (center top) (size top) minXY maxXY with
                          | NODE_NOT_IN_REGION => results
                          | NODE_PARTIALLY_IN_REGION =>
                              results ++ filter (fun v => point_in_region v minXY maxXY)
                                                (bucket top)
                          | NODE_CONTAINED_BY_REGION => results ++ bucket top
                          end <->
                     In p results \/ reported minXY maxXY top p).
        { rewrite Htop.
          destruct (enclosure_status (center top) (size top) minXY maxXY);
            rewrite ?in_app_iff; simpl; tauto. }
        rewrite Hm. split.
        -- intros [[H|H]|(n & Hn & Hp)].
           ++ now left.
           ++ right. exists top. split; [now left|assumption].
           ++ right. exists n. split; [now right|assumption].
        -- intros [H|(n & [<-|Hn] & Hp)].
           ++ left. now left.
           ++ left. now right.
           ++ right. now exists n.
      * rewrite scan_children_eq. cbn [app tl].
        set (enq := queued minXY maxXY (child_list top)).
        set (got := harvested minXY maxXY (child_list top)).
        destruct (@WF_stem_inv _ _ Wf L) as (Hbk & Hok & _).
        assert (Genq : forall n, In n (rest ++ enq) -> WF cap n).
        { intros n Hn. apply in_app_iff in Hn. destruct Hn as [Hn|Hn]; [auto|].
          apply In_queued in Hn. destruct Hn as [Hn _].
          apply In_child_list in Hn. destruct Hn as [q Hq].
          now destruct (Hok _ _ Hq). }
        assert (Wenq : (weight (rest ++ enq) <= fuel)%nat).
        { rewrite weight_app. pose proof (weight_queued minXY maxXY top).
          fold enq in H. lia. }
        destruct (IH (rest ++ enq) (results ++ got) Genq Wenq) as (res & Hres & Hiff).
        exists res. split; [exact Hres|]. intros p. rewrite Hiff. clear Hiff Hres.
        pose proof (@reported_stem cap minXY maxXY top p Wf L) as Htop.
        fold enq got in Htop. rewrite in_app_iff. split.
        -- intros [[H|H]|(n & Hn & Hp)].
           ++ now left.
           ++ right. exists top. split; [now left|]. apply Htop. now left.
           ++ apply in_app_iff in Hn. destruct Hn as [Hn|Hn].
              ** right. exists n. split; [now right|assumption].
              ** right. exists top. split; [now left|]. apply Htop. right.
                 now exists n.
        -- intros [H|(n & [<-|Hn] & Hp)].
           ++ left. now left.
           ++ apply Htop in Hp. destruct Hp as [Hp|(c & Hc & Hp)].
              ** left. now right.
              ** right. exists c. split; [|assumption]. apply in_app_iff. now right.
           ++ right. exists n. split; [|assumption]. apply in_app_iff. now left.
Qed.

Lemma reported_stored (cap : nat) (minXY maxXY : point) (n : QuadTreeNode) (p : point) :
  WF cap n -> reported minXY maxXY n p -> In p (points n).
Proof.
  intros Hwf H. induction H as [n p L E Hp|n p L E Hp Hr|n q c p L Hq E Hp
                               |n q c p L Hq E Hr IH].
  - apply In_points_below. now left.
  - apply In_points_below. now left.
  - apply In_points_below. right. now exists q, c.
  - apply In_points_below. right. exists q, c. split; [assumption|].
    apply IH. destruct (@WF_stem_inv _ _ Hwf L) as (_ & Hok & _).
    now destruct (Hok _ _ Hq).
Qed.

(** What a stem reports of a point below it is what the child that holds
    the point gives. *)
Lemma reported_via_child (cap : nat) (minXY maxXY : point) (n c : QuadTreeNode)
  (q : nat) (p : point) :
  WF cap n -> leaf n = false -> get_child n q = Some c -> In p (points c) ->
  (reported minXY maxXY n p <-> hit minXY maxXY c p).
Proof.
  intros Hwf L Hq Hp. destruct (@WF_stem_inv _ _ Hwf L) as (_ & Hok & _).
  assert (Hsame : forall q' c', get_child n q' = Some c' -> In p (points c') ->
                                c' = c).
  { intros q' c' Hq' Hp'. destruct (Hok _ _ Hq) as (_ & _ & R).
    destruct (Hok _ _ Hq') as (_ & _ & R').
    rewrite <- (R _ Hp) in Hq. rewrite <- (R' _ Hp') in Hq'. congruence. }
  split.
  - intros H. inversion H; subst; try congruence.
    + rewrite <- (Hsame _ _ H1 H3). now left.
    + assert (Hc0 : In p (points c0)).
      { apply (@reported_stored cap minXY maxXY c0 p); [|assumption].
        now destruct (Hok _ _ H1). }
      rewrite <- (Hsame _ _ H1 Hc0). right. auto.
  - intros [E|[E H]].
    + now apply rep_child_all with (q := q) (c := c).
    + now apply rep_child_queue with (q := q) (c := c).
Qed.

(** A point that lies in the region of every node that holds it, from [c]
    down, is reported on account of [c] exactly when it lies in the
    rectangle. *)
Lemma hit_placed (cap : nat) (minXY maxXY : point) (p : point) (c : QuadTreeNode) :
  WF cap c -> In p (points c) ->
  (forall m, In m (preorder c) -> In p (points m) -> in_region p m = true) ->
  (hit minXY maxXY c p <-> point_in_region p minXY maxXY = true).
Proof.
  induction c as [c IH] using node_ind'. intros Hwf Hp Hreg.
  assert (Hc : in_region p c = true)
    by (apply Hreg; [rewrite preorder_eq; now left|assumption]).
  unfold hit.
  destruct (enclosure_status (center c) (size c) minXY maxXY) eqn:E.
  - rewrite (@status_outside _ _ _ _ E Hc). split; [|discriminate].
    intros [H|[H _]]; discriminate.
  - assert (Hrep : reported minXY maxXY c p <-> point_in_region p minXY maxXY = true).
    { destruct (leaf c) eqn:L.
      - rewrite (@reported_leaf minXY maxXY c p L), E, filter_In.
        destruct (@WF_leaf_inv _ _ Hwf L) as (Hnc & _).
        rewrite (points_leaf _ Hnc) in Hp. tauto.
      - destruct (@WF_stem_inv _ _ Hwf L) as (Hbk & Hok & _).
        apply In_points_below in Hp. rewrite Hbk in Hp.
        destruct Hp as [[]|(q & c' & Hq & Hp')].
        rewrite (@reported_via_child cap minXY maxXY c c' q p Hwf L Hq Hp').
        destruct (Hok _ _ Hq) as (Wc' & _).
        apply (IH _ _ Hq Wc' Hp'). intros m Hm. apply Hreg.
        apply (@preorder_trans c c' m); [now apply preorder_child with (q := q)|].
        assumption. }
    rewrite <- Hrep. split; [intros [H|[_ H]]; [discriminate|assumption]|auto].
  - rewrite (@status_contained _ _ _ _ E Hc). split; auto.
Qed.

(** C1, as amended.  In every reached state [range_search] returns, and
    returns stored points only.  A stored point is returned exactly when it
    lies within the inclusive bounds of the rectangle, provided it lies in
    the region of every node that holds it and that the search compares
    with the rectangle (every node but a root that is a stem); other stored
    points do not affect this. *)
Theorem range_search_correct (log2 : float -> option float) (rg : fpoint * fpoint)
  (cap : nat) (t0 t : QuadTree)
  (rect_min rect_max : point) :
  QuadTree_init log2 rg cap = Some t0 -> reachable t0 t ->
  exists res,
    range_search t (rect_min, rect_max) = Some res /\
    (forall p, In p res -> In p (iter_points t)) /\
    forall p, In p (iter_points t) ->
      (forall m, In m (tested t) -> In p (points m) -> in_region p m = true) ->
      (In p res <->
       X rect_min <= X p /\ X p <= X rect_max /\
       Y rect_min <= Y p /\ Y p <= Y rect_max).
Proof.
  intros Hi Hr. destruct (@reachable_init_WF _ _ _ _ _ Hi Hr) as (Hwf & Hcap).
  assert (Hit : iter_points t = points (root t))
    by (apply iter_points_points; now rewrite Hcap).
  rewrite Hit in *. unfold range_search.
  destruct (@search_loop_spec cap rect_min rect_max (length (preorder (root t)))
              [root t] []) as (res & Hres & Hiff).
  - intros n [<-|[]]. assumption.
  - unfold weight. simpl. rewrite app_nil_r. lia.
  - assert (Hrep : forall p, In p res <-> reported rect_min rect_max (root t) p).
    { intros p. rewrite Hiff. split.
      - intros [[]|(n & [<-|[]] & H)]. assumption.
      - intros H. right. exists (root t). split; [now left|assumption]. }
    exists res. split; [exact Hres|]. split.
    + intros p Hp. apply Hrep in Hp.
      now apply (@reported_stored cap rect_min rect_max (root t) p).
    + intros p Hp Hreg. rewrite Hrep, <- point_in_region_iff. unfold tested in Hreg.
      destruct (leaf (root t)) eqn:L.
      * assert (Hc : in_region p (root t) = true) by (apply Hreg; [now left|assumption]).
        rewrite (@reported_leaf rect_min rect_max (root t) p L).
        destruct (@WF_leaf_inv _ _ Hwf L) as (Hnc & _).
        rewrite (points_leaf _ Hnc) in Hp.
        destruct (enclosure_status (center (root t)) (size (root t)) rect_min rect_max)
          eqn:E.
        -- rewrite (@status_outside _ _ _ _ E Hc). split; [intros []|discriminate].
        -- rewrite filter_In. tauto.
        -- rewrite (@status_contained _ _ _ _ E Hc). tauto.
      * destruct (@WF_stem_inv _ _ Hwf L) as (Hbk & Hok & _).
        pose proof Hp as Hp0. apply In_points_below in Hp. rewrite Hbk in Hp.
        destruct Hp as [[]|(q & c & Hq & Hp')].
        rewrite (@reported_via_child cap rect_min rect_max (root t) c q p Hwf L Hq Hp').
        destruct (Hok _ _ Hq) as (Wc & _).
        apply (@hit_placed cap rect_min rect_max p c Wc Hp').
        intros m Hm. apply Hreg. apply in_flat_map. exists c. split; [|assumption].
        apply In_children. now exists q.
Qed.

Lemma init_unit (cap : nat) :
  QuadTree_init log2_ref unit_region cap = Some (fresh (0%float, 0%float) (2%float, 2%float) cap).
Proof.
  reflexivity.
Qed.

Lemma far_tree_reachable (cap : nat) :
  (0 < cap)%nat -> reachable (fresh (0%float, 0%float) (2%float, 2%float) cap) (far_tree cap).
Proof.
  intros Hc. apply reach_add with (t := fresh (0%float, 0%float) (2%float, 2%float) cap)
                                  (fuel := 1%nat) (v := pt 3 3).
  - apply reach_init.
  - unfold add, fresh, far_tree. simpl.
    destruct cap; [lia|]. reflexivity.
Qed.


(** C1, as stated, fails: with (3,3) stored, the search of the rectangle
    [(3,3),(4,4)] returns nothing, the rectangle being outside the root's
    region. *)
Lemma range_search_misses :
  ~ (forall log2 rg cap t0 t (rect_min rect_max : point),
        QuadTree_init log2 rg cap = Some t0 -> reachable t0 t ->
        X rect_min <= X rect_max -> Y rect_min <= Y rect_max ->
        exists res,
          range_search t (rect_min, rect_max) = Some res /\
          forall p, In p res <->
                    In p (iter_points t) /\
                    X rect_min <= X p /\ X p <= X rect_max /\
                    Y rect_min <= Y p /\ Y p <= Y rect_max).
Proof.
  intros H.
  destruct (H log2_ref unit_region 4%nat _ (far_tree 4) (pt 3 3) (pt 4 4) (init_unit 4)
              (@far_tree_reachable 4 ltac:(lia)))
    as (res & Hres & Hiff).
  - apply leb_le. reflexivity.
  - apply leb_le. reflexivity.
  - assert (E : range_search (far_tree 4) (pt 3 3, pt 4 4) = Some [])
      by (vm_compute; reflexivity).
    rewrite E in Hres. inversion Hres; subst res.
    apply (Hiff (pt 3 3)). split; [now left|].
    repeat split; apply leb_le; reflexivity.
Qed.

Lemma upper_right_step (k : nat) :
  forall c s,
    upper_right (S k) c s
    = (child_center (new_node (fst (upper_right k c s)) (snd (upper_right k c s))) 3,
       (half (X (snd (upper_right k c s))), half (Y (snd (upper_right k c s))))).
Proof.
  induction k as [|k IH]; intros c s; [reflexivity|].
  change (upper_right (S (S k)) c s)
    with (upper_right (S k) (child_center (new_node c s) 3) (half (X s), half (Y s))).
  rewrite IH. reflexivity.
Qed.

(** Below the root with centre (0,0) and half-size (2,2) the half-size is
    0 after 1076 halvings, and the node along the upper right slots is the
    same from then on. *)
Lemma upper_right_fixed (k : nat) :
  upper_right (1076 + k) (0%float, 0%float) (2%float, 2%float)
  = upper_right 1076 (0%float, 0%float) (2%float, 2%float).
Proof.
  induction k as [|k IH]; [now rewrite Nat.add_0_r|].
  rewrite Nat.add_succ_r, upper_right_step, IH.
  vm_compute. reflexivity.
Qed.

Lemma always_upper_right_spec (k : nat) :
  forall c s p,
    always_upper_right k c s p = true ->
    forall j, (j < k)%nat ->
              quadrant (new_node (fst (upper_right j c s)) (snd (upper_right j c s))) p
              = 3%nat.
Proof.
  induction k as [|k IH]; intros c s p H j Hj; [lia|].
  cbn [always_upper_right] in H. apply andb_true_iff in H. destruct H as [H1 H2].
  destruct j as [|j]; [now apply Nat.eqb_eq in H1|].
  apply (@IH _ _ _ H2 j). lia.
Qed.

(** The points (3,3) and (4,4) go to the upper right slot at every level
    below the root with centre (0,0) and half-size (2,2). *)
Lemma far_upper_right (p : point) :
  p = pt 3 3 \/ p = pt 4 4 ->
  forall k,
    quadrant (new_node (fst (upper_right k (0%float, 0%float) (2%float, 2%float)))
                       (snd (upper_right k (0%float, 0%float) (2%float, 2%float)))) p
    = 3%nat.
Proof.
  intros Hp k.
  assert (H : always_upper_right 1077 (0%float, 0%float) (2%float, 2%float) p = true)
    by (destruct Hp as [->| ->]; vm_compute; reflexivity).
  destruct (Nat.lt_ge_cases k 1077) as [Hk|Hk].
  - now apply (@always_upper_right_spec _ _ _ _ H).
  - replace k with (1076 + (k - 1076))%nat by lia. rewrite upper_right_fixed.
    apply (@always_upper_right_spec _ _ _ _ H). lia.
Qed.

(** With capacity 1, a leaf that holds one point never takes a second one
    when both are routed to the upper right slot at every level below it:
    every split sends both to the same new child, which is in the same
    situation. *)
Lemma insert_diverges (c0 s0 : fpoint) (a v : point) :
  (forall k, quadrant (new_node (fst (upper_right k c0 s0))
                                (snd (upper_right k c0 s0))) a = 3%nat) ->
  (forall k, quadrant (new_node (fst (upper_right k c0 s0))
                                (snd (upper_right k c0 s0))) v = 3%nat) ->
  a <> v ->
  forall fuel k n b w,
    leaf n = true -> bucket n = [b] -> (forall q, get_child n q = None) ->
    (center n, size n) = upper_right k c0 s0 ->
    (b = a /\ w = v \/ b = v /\ w = a) ->
    _insert fuel 1 w n = None.
Proof.
  intros Ha Hv Hne fuel.
  induction fuel as [|fuel IH]; intros k n b w L B Hnc G Hbw; [reflexivity|].
  assert (Q : forall p, p = a \/ p = v -> forall x,
                center x = center n -> quadrant x p = 3%nat).
  { intros p Hp x Hx. unfold quadrant. rewrite Hx.
    destruct Hp as [->| ->]; [specialize (Ha k)|specialize (Hv k)];
      rewrite <- G in *; assumption. }
  assert (Hb : b = a \/ b = v) by (destruct Hbw as [[-> _]|[-> _]]; auto).
  assert (Hw : w = a \/ w = v) by (destruct Hbw as [[_ ->]|[_ ->]]; auto).
  assert (Hbw' : b <> w) by (destruct Hbw as [[-> ->]|[-> ->]]; congruence).
  cbn [_insert]. rewrite L, B. cbn [length Nat.ltb Nat.leb].
  assert (Qw : quadrant (set_leaf n false) w = 3%nat) by (apply Q; auto).
  unfold insert_fitting at 1. unfold fitting_child_node.
  rewrite Qw, get_child_set_leaf, Hnc.
  set (c := new_node (child_center (set_leaf n false) 3)
                     (half (X (size (set_leaf n false))),
                      half (Y (size (set_leaf n false))))).
  destruct fuel as [|fuel']; [reflexivity|].
  assert (Ec : _insert (S fuel') 1 w c = Some (set_bucket c [w])) by reflexivity.
  rewrite Ec. cbn [reinsert fold_left].
  set (node2 := set_child (set_child (set_leaf n false) 3 (Some c)) 3
                          (Some (set_bucket c [w]))).
  assert (Qb : quadrant node2 b = 3%nat).
  { apply Q; [assumption|]. unfold node2.
    destruct (set_child_fields (set_child (set_leaf n false) 3 (Some c)) 3
                (Some (set_bucket c [w]))) as (-> & _).
    destruct (set_child_fields (set_leaf n false) 3 (Some c)) as (-> & _).
    reflexivity. }
  unfold insert_fitting, fitting_child_node. rewrite Qb.
  unfold node2 at 1. rewrite get_set_same by lia.
  rewrite (IH (S k) (set_bucket c [w]) w b); try reflexivity.
  - intros [|[|[|[|q]]]]; reflexivity.
  - rewrite upper_right_step, <- G. reflexivity.
  - destruct Hbw as [[-> ->]|[-> ->]]; auto.
Qed.


Lemma full_tree_reachable : reachable (fresh (0%float, 0%float) (2%float, 2%float) 2) full_tree.
Proof.
  apply reach_add with
    (t := mkQuadTree (Node None None None None (0%float, 0%float) (2%float, 2%float) [pt 1 1] true) 2)
    (fuel := 1%nat) (v := pt (-1) (-1)); [|reflexivity].
  apply reach_add with (t := fresh (0%float, 0%float) (2%float, 2%float) 2)
                       (fuel := 1%nat) (v := pt 1 1); [|reflexivity].
  apply reach_init.
Qed.

(** With capacity 1, adding again the point a leaf holds never returns:
    the split puts the point in a new child and then inserts it there once
    more, and that child is a full leaf holding the point. *)
Lemma duplicate_diverges (fuel : nat) :
  forall n a,
    leaf n = true -> bucket n = [a] -> (forall q, get_child n q = None) ->
    _insert fuel 1 a n = None.
Proof.
  induction fuel as [|fuel IH]; intros n a L B Hnc; [reflexivity|].
  cbn [_insert]. rewrite L, B. cbn [length Nat.ltb Nat.leb].
  unfold insert_fitting at 1. unfold fitting_child_node.
  rewrite get_child_set_leaf, Hnc.
  set (q := quadrant (set_leaf n false) a).
  assert (Hq : (q < 4)%nat) by apply quadrant_lt.
  set (c := new_node (child_center (set_leaf n false) q)
                     (half (X (size (set_leaf n false))),
                      half (Y (size (set_leaf n false))))).
  destruct fuel as [|fuel']; [reflexivity|].
  assert (Ec : _insert (S fuel') 1 a c = Some (set_bucket c [a])) by reflexivity.
  rewrite Ec. cbn [reinsert fold_left].
  unfold insert_fitting, fitting_child_node.
  rewrite !quadrant_set_child. fold q.
  rewrite get_set_same by assumption.
  rewrite (IH (set_bucket c [a]) a); try reflexivity.
  intros [|[|[|[|k]]]]; reflexivity.
Qed.

(** C5 on the code.  In the tree over [(-1,-1),(1,1)] with capacity 2 that
    holds (1,1) and (-1,-1), [add((1,1))] of the point already stored turns
    the root leaf into a stem with two children, the stored points staying
    the same; with capacity 1 and (3,3) stored, [add((3,3))] never returns. *)
Theorem duplicate_add_on_full_leaf :
  QuadTree_init log2_ref unit_region 2 = Some (fresh (0%float, 0%float) (2%float, 2%float) 2) /\
  reachable (fresh (0%float, 0%float) (2%float, 2%float) 2) full_tree /\
  contains (pt 1 1) full_tree = true /\
  leaf (root full_tree) = true /\
  (exists t', add 3 (pt 1 1) full_tree = Some t' /\
              leaf (root t') = false /\
              length (preorder (root t')) = 3%nat /\
              t' <> full_tree /\
              map coords (iter_points t') = [(-1, -1); (1, 1)]%Q) /\
  (reachable (fresh (0%float, 0%float) (2%float, 2%float) 1) (far_tree 1) /\
   contains (pt 3 3) (far_tree 1) = true /\
   forall fuel, add fuel (pt 3 3) (far_tree 1) = None).
Proof.
  split; [apply init_unit|]. split; [apply full_tree_reachable|].
  split; [reflexivity|]. split; [reflexivity|]. split.
  - assert (E1 : option_map (fun u => leaf (root u)) (add 3 (pt 1 1) full_tree)
                 = Some false) by (vm_compute; reflexivity).
    assert (E2 : option_map (fun u => length (preorder (root u)))
                            (add 3 (pt 1 1) full_tree)
                 = Some 3%nat) by (vm_compute; reflexivity).
    assert (E3 : option_map (fun u => map coords (iter_points u))
                            (add 3 (pt 1 1) full_tree)
                 = Some [(-1, -1); (1, 1)]%Q) by (vm_compute; reflexivity).
    destruct (add 3 (pt 1 1) full_tree) as [t'|]; [|discriminate].
    simpl in E1, E2, E3. exists t'. split; [reflexivity|].
    split; [congruence|]. split; [congruence|]. split; [|congruence].
    intros ->. discriminate.
  - split; [apply far_tree_reachable; lia|]. split; [reflexivity|].
    intros fuel. unfold add. change (max_bucket_size (far_tree 1)) with 1%nat.
    rewrite (@duplicate_diverges fuel (root (far_tree 1)) (pt 3 3));
      try reflexivity.
    intros [|[|[|[|q]]]]; reflexivity.
Qed.

Lemma add_all_reachable (t0 : QuadTree) (fuel : nat) (l : list point) :
  forall t t', reachable t0 t -> add_all fuel l t = Some t' -> reachable t0 t'.
Proof.
  unfold add_all. induction l as [|p l IH]; simpl; intros t t' Hr H.
  - inversion H; subst. exact Hr.
  - destruct (add fuel p t) as [u|] eqn:E.
    + apply (IH u t'); [|exact H]. now apply reach_add with (t := t) (fuel := fuel) (v := p).
    + exfalso. clear -H. induction l; simpl in H; [discriminate|auto].
Qed.

Lemma skew_tree_reachable :
  exists t0, QuadTree_init log2_ref skew_region 1 = Some t0 /\ reachable t0 skew_tree.
Proof.
  unfold skew_tree.
  destruct (QuadTree_init log2_ref skew_region 1) as [t0|] eqn:E;
    [|vm_compute in E; discriminate].
  exists t0. split; [reflexivity|].
  destruct (add_all 3 [tenth; pt (-1) (-1)] t0) as [t|] eqn:A.
  - apply (@add_all_reachable t0 3 [tenth; pt (-1) (-1)] t0 t (reach_init _) A).
  - apply reach_init.
Qed.

Lemma skew_leaf_at : get_child (root skew_tree) 3 = Some skew_leaf.
Proof.
  unfold skew_leaf.
  destruct (get_child (root skew_tree) 3) eqn:E;
    [reflexivity|vm_compute in E; discriminate].
Qed.

Lemma skew_leaf_holds : mem tenth (bucket skew_leaf) = true.
Proof. vm_compute. reflexivity. Qed.

Lemma skew_leaf_region : in_region tenth skew_leaf = false.
Proof. vm_compute. reflexivity. Qed.

Lemma skew_root_region : in_region tenth (root skew_tree) = true.
Proof. vm_compute. reflexivity. Qed.

(** Rounding breaks the region invariant also for a point of the root's
    region: (0.1,0.1) lies in the region of the root of [skew_tree] and
    outside the region of the leaf that holds it. *)
Lemma rounding_leaves_region :
  ~ (forall log2 rg cap t0 t,
        QuadTree_init log2 rg cap = Some t0 -> reachable t0 t ->
        forall n p, In n (preorder (root t)) -> In p (bucket n) ->
                    in_region p (root t) = true -> in_region p n = true).
Proof.
  intros H. destruct skew_tree_reachable as (t0 & Hi & Hr).
  pose proof skew_leaf_region as E.
  rewrite (H _ _ _ _ _ Hi Hr skew_leaf tenth) in E; [discriminate| | |].
  - exact (@preorder_child (root skew_tree) skew_leaf 3 skew_leaf_at).
  - exact (proj1 (mem_In tenth (bucket skew_leaf)) skew_leaf_holds).
  - exact skew_root_region.
Qed.

Lemma skew_points : iter_points skew_tree = [pt (-1) (-1); tenth].
Proof. vm_compute. reflexivity. Qed.

Lemma skew_other_region : in_region (pt (-1) (-1)) (root skew_tree) = true.
Proof. vm_compute. reflexivity. Qed.

Lemma skew_search : range_search skew_tree (pt 0 0, tenth) = Some [].
Proof. vm_compute. reflexivity. Qed.

(** And [range_search] then misses it: every stored point of [skew_tree]
    lies in the region of the root, (0.1,0.1) lies in the rectangle
    [(0,0),(0.1,0.1)], and the search of that rectangle returns nothing. *)
Lemma rounding_hides_point :
  ~ (forall log2 rg cap t0 t (rect_min rect_max : point),
        QuadTree_init log2 rg cap = Some t0 -> reachable t0 t ->
        (forall p, In p (iter_points t) -> in_region p (root t) = true) ->
        exists res,
          range_search t (rect_min, rect_max) = Some res /\
          forall p, In p res <->
                    In p (iter_points t) /\
                    X rect_min <= X p /\ X p <= X rect_max /\
                    Y rect_min <= Y p /\ Y p <= Y rect_max).
Proof.
  intros H. destruct skew_tree_reachable as (t0 & Hi & Hr).
  destruct (H _ _ _ _ _ (pt 0 0) tenth Hi Hr) as (res & Hres & Hiff).
  - intros p Hp. rewrite skew_points in Hp.
    destruct Hp as [<-|[<-|[]]]; [exact skew_other_region|exact skew_root_region].
  - rewrite skew_search in Hres. inversion Hres; subst res.
    apply (Hiff tenth). split; [rewrite skew_points; right; now left|].
    repeat split; apply leb_le; vm_compute; reflexivity.
Qed.

(** ** [add] returns *)

Lemma insert_fitting_mono (rec rec' : point -> QuadTreeNode -> option QuadTreeNode)
  (w : point) (m r : QuadTreeNode) :
  (forall v c c', rec v c = Some c' -> rec' v c = Some c') ->
  insert_fitting rec w m = Some r -> insert_fitting rec' w m = Some r.
Proof.
  intros H. unfold insert_fitting.
  destruct (fitting_child_node m w) as [[n1 q] ch].
  destruct (rec w ch) as [ch'|] eqn:E; [|discriminate].
  now rewrite (H _ _ _ E).
Qed.

Lemma reinsert_none (rec : point -> QuadTreeNode -> option QuadTreeNode)
  (b : list point) : reinsert rec b None = None.
Proof. unfold reinsert. induction b as [|w b IH]; simpl; auto. Qed.

Lemma reinsert_mono (rec rec' : point -> QuadTreeNode -> option QuadTreeNode)
  (b : list point) :
  (forall v c c', rec v c = Some c' -> rec' v c = Some c') ->
  forall m r, reinsert rec b (Some m) = Some r -> reinsert rec' b (Some m) = Some r.
Proof.
  intros H. induction b as [|w b IH]; intros m r; [auto|].
  unfold reinsert in *. simpl.
  destruct (insert_fitting rec w m) as [m1|] eqn:E.
  - rewrite (@insert_fitting_mono rec rec' w m m1 H E). apply IH.
  - intros Hr. fold (reinsert rec b None) in Hr. rewrite reinsert_none in Hr.
    discriminate.
Qed.

(** A completed insertion is the same with a larger recursion budget. *)
Lemma insert_mono (cap : nat) (f : nat) :
  forall f' v n r, (f <= f')%nat ->
    _insert f cap v n = Some r -> _insert f' cap v n = Some r.
Proof.
  induction f as [|f IH]; intros f' v n r Hle H; [discriminate|].
  destruct f' as [|f']; [lia|].
  assert (Hrec : forall w c c', _insert f cap w c = Some c' ->
                                _insert f' cap w c = Some c')
    by (intros w c c'; apply IH; lia).
  cbn [_insert] in *. destruct (leaf n); [|now apply (@insert_fitting_mono (_insert f cap) (_insert f' cap) v n r Hrec)].
  destruct (length (bucket n) <? cap)%nat; [assumption|].
  destruct (insert_fitting (_insert f cap) v (set_leaf n false)) as [n2|] eqn:E2;
    [|discriminate].
  rewrite (@insert_fitting_mono _ _ _ _ _ Hrec E2).
  destruct (reinsert (_insert f cap) (bucket n) (Some n2)) as [n3|] eqn:E3;
    [|discriminate].
  now rewrite (@reinsert_mono _ _ _ Hrec _ _ E3).
Qed.

Lemma sep_refl (k : nat) : forall c s a, sep k c s a a.
Proof. induction k as [|k IH]; intros c s a; simpl; auto. Qed.

Lemma sep_mono (k : nat) :
  forall k' c s a b, (k <= k')%nat -> sep k c s a b -> sep k' c s a b.
Proof.
  induction k as [|k IH]; intros k' c s a b Hle H.
  - simpl in H. subst. apply sep_refl.
  - destruct k' as [|k']; [lia|]. simpl in *. intros Hq. apply IH; [lia|auto].
Qed.

Lemma sep_sym (k : nat) : forall c s a b, sep k c s a b -> sep k c s b a.
Proof.
  induction k as [|k IH]; intros c s a b H; simpl in *; [congruence|].
  intros Hq. rewrite Hq. apply IH. apply H. congruence.
Qed.

Lemma all_equal_length (v : point) (l : list point) :
  NoDup l -> (forall p, In p l -> p = v) -> (length l <= 1)%nat.
Proof.
  intros Hnd H. destruct l as [|a [|b l]]; simpl; try lia.
  exfalso. inversion Hnd as [|? ? Ha _]; subst. apply Ha.
  rewrite (H a), (H b); simpl; auto.
Qed.

Lemma fit_from_child (cap : nat) (w : point) (m : QuadTreeNode) :
  (forall ch,
      get_child m (quadrant m w) = Some ch \/
      (get_child m (quadrant m w) = None /\
       ch = new_node (child_center m (quadrant m w))
                     (half (X (size m)), half (Y (size m)))) ->
      exists f ch', _insert f cap w ch = Some ch') ->
  exists f m', insert_fitting (_insert f cap) w m = Some m'.
Proof.
  intros H. unfold insert_fitting, fitting_child_node.
  destruct (get_child m (quadrant m w)) as [c|] eqn:E.
  - destruct (H c (or_introl eq_refl)) as (f & ch' & Hf). exists f.
    rewrite Hf. eauto.
  - destruct (H _ (or_intror (conj eq_refl eq_refl))) as (f & ch' & Hf).
    exists f. rewrite Hf. eauto.
Qed.

Lemma insert_new_leaf (cap : nat) (w : point) (c s : fpoint) :
  (1 <= cap)%nat -> exists f ch', _insert f cap w (new_node c s) = Some ch'.
Proof.
  intros Hc. exists 1%nat. simpl.
  destruct cap as [|cap]; [lia|]. simpl. eauto.
Qed.

(** A subtree all of whose points are [v] takes [v] once more when a
    bucket has room for two: the descent ends at a leaf that is not full. *)
Lemma single_point (cap : nat) (v : point) (n : QuadTreeNode) :
  (2 <= cap)%nat -> WF cap n -> (forall p, In p (points n) -> p = v) ->
  exists f n', _insert f cap v n = Some n'.
Proof.
  intros Hc. induction n as [n IH] using node_ind'. intros Hwf Hall.
  destruct (leaf n) eqn:L.
  - destruct (@WF_leaf_inv _ _ Hwf L) as (Hnc & _ & Hnd).
    rewrite (points_leaf _ Hnc) in Hall.
    pose proof (all_equal_length Hnd Hall) as Hlen.
    exists 1%nat. simpl. rewrite L.
    replace (length (bucket n) <? cap)%nat with true
      by (symmetry; apply Nat.ltb_lt; lia).
    destruct (negb (mem v (bucket n))); eauto.
  - destruct (@WF_stem_inv _ _ Hwf L) as (_ & Hok & _).
    destruct (@fit_from_child cap v n) as (f & m' & Hf).
    + intros ch [E|[E ->]].
      * destruct (Hok _ _ E) as (Wc & _). apply (IH _ _ E Wc).
        intros p Hp. apply Hall. apply In_points_below. right.
        now exists (quadrant n v), ch.
      * apply insert_new_leaf. lia.
    + exists (S f). simpl. rewrite L. eauto.
Qed.

Section Split.

Variable cap : nat.
Hypothesis Hcap : (1 <= cap)%nat.

Variable k : nat.

(** The induction hypothesis on the depth [k] of separation. *)
Hypothesis IHk : forall n v,
    WF cap n -> ((2 <= cap)%nat \/ ~ In v (points n)) ->
    sep_all k (center n) (size n) (fun p => p = v \/ In p (points n)) ->
    exists f n', _insert f cap v n = Some n'.

Lemma fit_total (m : QuadTreeNode) (w : point) :
  stem_ok cap m -> ((2 <= cap)%nat \/ ~ below m w) ->
  sep_all (S k) (center m) (size m) (fun p => p = w \/ below m p) ->
  exists f m', insert_fitting (_insert f cap) w m = Some m'.
Proof.
  intros Hok Hnew Hsep. apply fit_from_child. intros ch [E|[E ->]].
  - destruct (Hok _ _ E) as (Wc & [Gc Gs] & Rc). apply IHk; [assumption| |].
    + destruct Hnew as [H|H]; [now left|right]. intros Hin. apply H.
      now exists (quadrant m w), ch.
    + assert (Hin : forall p, p = w \/ In p (points ch) ->
                              (p = w \/ below m p) /\ quadrant m p = quadrant m w).
      { intros p [->|Hp]; [split; [now left|reflexivity]|].
        split; [right; now exists (quadrant m w), ch|now apply Rc]. }
      intros a b Ha Hb. destruct (Hin _ Ha) as [Pa Qa]. destruct (Hin _ Hb) as [Pb Qb].
      pose proof (Hsep a b Pa Pb) as H. simpl in H.
      rewrite Gc, Gs. rewrite <- Qa. apply H.
      change (quadrant m a = quadrant m b). congruence.
  - now apply insert_new_leaf.
Qed.

Lemma reinsert_total (L : list point) :
  forall m,
    stem_ok cap m -> NoDup L ->
    ((2 <= cap)%nat \/ forall w, In w L -> ~ below m w) ->
    sep_all (S k) (center m) (size m) (fun p => In p L \/ below m p) ->
    exists f m', reinsert (_insert f cap) L (Some m) = Some m'.
Proof.
  induction L as [|w L IH]; intros m Hok Hnd Hnew Hsep.
  - exists 0%nat, m. reflexivity.
  - inversion Hnd as [|? ? Hw HL]; subst.
    destruct (@fit_total m w Hok) as (f1 & m1 & H1).
    + destruct Hnew as [H|H]; [now left|right]. apply H. now left.
    + intros a b Ha Hb. apply Hsep.
      * destruct Ha as [->|Ha]; [left; now left|now right].
      * destruct Hb as [->|Hb]; [left; now left|now right].
    + destruct (@insert_fitting_spec cap _ w m m1 (@insert_spec cap f1) Hok H1)
        as (Hok1 & Hb1 & Hc1 & Hs1 & _).
      destruct (IH m1 Hok1 HL) as (f2 & m' & H2).
      * destruct Hnew as [H|H]; [now left|right]. intros w' Hw' Hbel.
        apply Hb1 in Hbel. destruct Hbel as [->|Hbel]; [contradiction|].
        apply (H w'); [now right|assumption].
      * rewrite Hc1, Hs1. intros a b Ha Hb. apply Hsep.
        -- destruct Ha as [Ha|Ha]; [left; now right|].
           apply Hb1 in Ha. destruct Ha as [->|Ha]; [left; now left|now right].
        -- destruct Hb as [Hb|Hb]; [left; now right|].
           apply Hb1 in Hb. destruct Hb as [->|Hb]; [left; now left|now right].
      * exists (Nat.max f1 f2), m'. unfold reinsert. simpl.
        rewrite (@insert_fitting_mono (_insert f1 cap) (_insert (Nat.max f1 f2) cap)
                   w m m1); [|intros v c c'; apply insert_mono; lia|exact H1].
        apply (@reinsert_mono (_insert f2 cap) (_insert (Nat.max f1 f2) cap) L);
          [intros v c c'; apply insert_mono; lia|exact H2].
Qed.

Lemma insert_total_step (n : QuadTreeNode) (v : point) :
  WF cap n -> ((2 <= cap)%nat \/ ~ In v (points n)) ->
  sep_all (S k) (center n) (size n) (fun p => p = v \/ In p (points n)) ->
  exists f n', _insert f cap v n = Some n'.
Proof.
  intros Hwf Hnew Hsep. destruct (leaf n) eqn:L.
  - destruct (@WF_leaf_inv _ _ Hwf L) as (Hnc & Hlen & Hnd).
    pose proof (points_leaf _ Hnc) as Hpts.
    destruct (length (bucket n) <? cap)%nat eqn:Lt.
    + exists 1%nat. simpl. rewrite L, Lt.
      destruct (negb (mem v (bucket n))); eauto.
    + assert (Hok0 : stem_ok cap (set_leaf n false)).
      { intros q c Hq. rewrite get_child_set_leaf, Hnc in Hq. discriminate. }
      assert (Hno : forall p, ~ below (set_leaf n false) p).
      { intros p (q & c & Hq & _). rewrite get_child_set_leaf, Hnc in Hq.
        discriminate. }
      destruct (@fit_total (set_leaf n false) v Hok0) as (f1 & n2 & H1).
      * right. apply Hno.
      * intros a b [->|Ha] [->|Hb]; try (exfalso; eapply Hno; eassumption).
        apply sep_refl.
      * destruct (@insert_fitting_spec cap _ v _ n2 (@insert_spec cap f1) Hok0 H1)
          as (Hok2 & Hb2 & Hc2 & Hs2 & _).
        simpl in Hc2, Hs2.
        assert (Hv : forall p, below n2 p <-> p = v).
        { intros p. rewrite Hb2. split; [intros [H|H]; [assumption|]|now left].
          exfalso. eapply Hno; eassumption. }
        destruct (@reinsert_total (bucket n) n2 Hok2 Hnd) as (f2 & n3 & H2).
        -- destruct Hnew as [H|H]; [now left|right]. intros w Hw Hbel.
           apply Hv in Hbel. subst w. apply H. now rewrite Hpts.
        -- rewrite Hc2, Hs2. intros a b Ha Hb. apply Hsep.
           ++ destruct Ha as [Ha|Ha]; [right; now rewrite Hpts|left; now apply Hv].
           ++ destruct Hb as [Hb|Hb]; [right; now rewrite Hpts|left; now apply Hv].
        -- exists (S (Nat.max f1 f2)). simpl. rewrite L, Lt.
           rewrite (@insert_fitting_mono (_insert f1 cap)
                      (_insert (Nat.max f1 f2) cap) v (set_leaf n false) n2);
             [|intros w c c'; apply insert_mono; lia|exact H1].
           rewrite (@reinsert_mono (_insert f2 cap) (_insert (Nat.max f1 f2) cap)
                      (bucket n)) with (r := n3);
             [eauto|intros w c c'; apply insert_mono; lia|exact H2].
  - destruct (@WF_stem_inv _ _ Hwf L) as (Hbk & Hok & _).
    destruct (@fit_total n v Hok) as (f1 & n' & H1).
    + destruct Hnew as [H|H]; [now left|right]. intros Hbel. apply H.
      apply In_points_below. now right.
    + intros a b Ha Hb. apply Hsep.
      * destruct Ha as [->|Ha]; [now left|right; apply In_points_below; now right].
      * destruct Hb as [->|Hb]; [now left|right; apply In_points_below; now right].
    + exists (S f1). simpl. rewrite L. eauto.
Qed.

End Split.

(** An insertion returns when the points of the subtree and the new point
    are pairwise told apart within some number of levels, the capacity being
    at least 2, or at least 1 with a point that is not stored. *)
Lemma insert_total (cap : nat) (k : nat) :
  (1 <= cap)%nat ->
  forall n v,
    WF cap n -> ((2 <= cap)%nat \/ ~ In v (points n)) ->
    sep_all k (center n) (size n) (fun p => p = v \/ In p (points n)) ->
    exists f n', _insert f cap v n = Some n'.
Proof.
  intros Hcap. induction k as [|k IH]; intros n v Hwf Hnew Hsep.
  - destruct Hnew as [H|H].
    + apply single_point; auto. intros p Hp.
      apply (Hsep p v); [now right|now left].
    + assert (He : points n = []).
      { destruct (points n) as [|p l] eqn:E; [reflexivity|]. exfalso. apply H.
        assert (Hp : p = v) by (apply (Hsep p v); [right; now left|now left]).
        subst. now left. }
      destruct (@WF_empty _ _ Hwf He) as (L & Bk & _).
      exists 1%nat. simpl. rewrite L, Bk. simpl.
      destruct cap as [|cap]; [lia|]. simpl. eauto.
  - now apply (@insert_total_step cap Hcap k IH).
Qed.

(** ** [add] returns *)

Lemma landing_eq (p : point) (n : QuadTreeNode) :
  landing p n =
  if leaf n then Some n
  else match get_child n (quadrant n p) with
       | Some m => landing p m
       | None => None
       end.
Proof.
  unfold landing. rewrite leaf_path_eq. destruct (leaf n); cbn [negb]; [reflexivity|].
  destruct (get_child n (quadrant n p)) as [m|] eqn:E; [|reflexivity].
  destruct (leaf_path p m) as [path|]; [|reflexivity].
  cbn [option_map node_at]. now rewrite E.
Qed.

Lemma landing_leaf (cap : nat) (p : point) (n : QuadTreeNode) :
  WF cap n -> forall top, landing p n = Some top ->
  WF cap top /\ leaf top = true /\ (In p (points n) <-> In p (bucket top)).
Proof.
  induction n as [n IH] using node_ind'. intros Hwf top.
  rewrite landing_eq. destruct (leaf n) eqn:L.
  - intros H; inversion H; subst. split; [assumption|]. split; [assumption|].
    destruct (@WF_leaf_inv _ _ Hwf L) as (Hnc & _). now rewrite (points_leaf _ Hnc).
  - destruct (@WF_stem_inv _ _ Hwf L) as (Hbk & Hok & _).
    destruct (get_child n (quadrant n p)) as [m|] eqn:E; [|discriminate].
    intros H. destruct (Hok _ _ E) as (Wm & _ & Rm).
    destruct (IH _ _ E Wm top H) as (A & B & C).
    split; [assumption|]. split; [assumption|]. rewrite <- C.
    rewrite In_points_below, Hbk. split.
    + intros [[]|(q & c & Hq & Hp)].
      destruct (Hok _ _ Hq) as (_ & _ & R). rewrite <- (R _ Hp) in Hq. congruence.
    + intros Hp. right. now exists (quadrant n p), m.
Qed.

(** An insertion returns when the insertion in the leaf the descent ends
    at returns. *)
Lemma insert_at_landing (cap : nat) (p : point) (n : QuadTreeNode) :
  (1 <= cap)%nat -> WF cap n ->
  (forall top, landing p n = Some top -> exists f top', _insert f cap p top = Some top') ->
  exists f n', _insert f cap p n = Some n'.
Proof.
  intros Hcap. induction n as [n IH] using node_ind'. intros Hwf H.
  rewrite landing_eq in H. destruct (leaf n) eqn:L; [now apply H|].
  destruct (@WF_stem_inv _ _ Hwf L) as (_ & Hok & _).
  destruct (@fit_from_child cap p n) as (f & m' & Hf).
  - intros ch [E|[E ->]].
    + destruct (Hok _ _ E) as (Wc & _). apply (IH _ _ E Wc). now rewrite E in H.
    + now apply insert_new_leaf.
  - exists (S f). simpl. rewrite L. eauto.
Qed.


Lemma reinsert_app (rec : point -> QuadTreeNode -> option QuadTreeNode)
  (l1 l2 : list point) (x : option QuadTreeNode) :
  reinsert rec (l1 ++ l2) x = reinsert rec l2 (reinsert rec l1 x).
Proof. unfold reinsert. apply fold_left_app. Qed.

Lemma insert_eq (fuel cap : nat) (v : point) (node : QuadTreeNode) :
  _insert (S fuel) cap v node =
  if leaf node then
    if (length (bucket node) <? cap)%nat then
      if negb (mem v (bucket node)) then
        Some (set_bucket node (bucket node ++ [v]))
      else Some node
    else
      match insert_fitting (_insert fuel cap) v (set_leaf node false) with
      | Some node2 =>
          match reinsert (_insert fuel cap) (bucket node) (Some node2) with
          | Some node3 => Some (set_bucket node3 [])
          | None => None
          end
      | None => None
      end
  else insert_fitting (_insert fuel cap) v node.
Proof. reflexivity. Qed.

Lemma insert_leaf_room (cap f : nat) (w : point) (c : QuadTreeNode) :
  leaf c = true -> (length (bucket c) < cap)%nat ->
  _insert (S f) cap w c
  = Some (if mem w (bucket c) then c else set_bucket c (bucket c ++ [w])).
Proof.
  intros L H. cbn [_insert]. rewrite L.
  replace (length (bucket c) <? cap)%nat with true by (symmetry; now apply Nat.ltb_lt).
  destruct (mem w (bucket c)); reflexivity.
Qed.

(** The child an insertion below a stem goes through, before and after. *)
Lemma insert_fitting_inv (rec : point -> QuadTreeNode -> option QuadTreeNode)
  (w : point) (m m' : QuadTreeNode) :
  insert_fitting rec w m = Some m' ->
  exists ch ch',
    (get_child m (quadrant m w) = Some ch \/
     (get_child m (quadrant m w) = None /\
      ch = new_node (child_center m (quadrant m w))
                    (half (X (size m)), half (Y (size m))))) /\
    rec w ch = Some ch' /\
    get_child m' (quadrant m w) = Some ch' /\
    (forall q', q' <> quadrant m w -> get_child m' q' = get_child m q') /\
    center m' = center m.
Proof.
  unfold insert_fitting.
  destruct (fitting_child_node m w) as [[n1 q] ch] eqn:F.
  apply fitting_child_node_spec in F.
  destruct F as (Hq & Hget & Hoth & Hc & Hs & Hb & Hl & Hch). subst q.
  destruct (rec w ch) as [ch'|] eqn:R; [|discriminate].
  intros H; inversion H; subst m'; clear H.
  pose proof (quadrant_lt m w) as Hlt.
  exists ch, ch'. split; [exact Hch|]. split; [exact R|].
  split; [now apply get_set_same|]. split.
  - intros q' Hq'. rewrite get_set_other by congruence. now apply Hoth.
  - destruct (set_child_fields n1 (quadrant m w) (Some ch')) as (-> & _). exact Hc.
Qed.

(** Below a light stem, the insertion of a point that a child with room
    holds changes nothing. *)
Lemma light_dup (cap f : nat) (w : point) (m c : QuadTreeNode) (q : nat) :
  stem_ok cap m -> get_child m q = Some c -> leaf c = true ->
  In w (bucket c) -> (length (bucket c) < cap)%nat ->
  insert_fitting (_insert (S f) cap) w m = Some m.
Proof.
  intros Hok Hq L Hw Hroom.
  destruct (Hok _ _ Hq) as (Wc & _ & R).
  destruct (@WF_leaf_inv _ _ Wc L) as (Hnc & _).
  assert (Hqw : quadrant m w = q) by (apply R; now rewrite (points_leaf _ Hnc)).
  unfold insert_fitting, fitting_child_node. rewrite Hqw, Hq.
  rewrite (@insert_leaf_room cap f w c L Hroom).
  rewrite (proj2 (mem_In w (bucket c)) Hw). now rewrite set_child_same.
Qed.

(** Below a light stem whose children have room, the insertion of a point
    that is not there returns, and the stem stays light. *)
Lemma light_new (cap f N : nat) (v w : point) (m : QuadTreeNode) :
  light cap N v m -> (N < cap)%nat -> ~ below m w ->
  exists m',
    insert_fitting (_insert (S f) cap) w m = Some m' /\
    light cap (S N) v m' /\
    (forall p, below m' p <-> p = w \/ below m p).
Proof.
  intros (Hok & Hl & (cv & r & Hcv & Hbv)) HN Hnew.
  assert (Hret : exists m', insert_fitting (_insert (S f) cap) w m = Some m').
  { unfold insert_fitting, fitting_child_node.
    destruct (get_child m (quadrant m w)) as [c|] eqn:E.
    - destruct (Hl _ _ E) as [Lc Hlen].
      rewrite (@insert_leaf_room cap f w c Lc ltac:(lia)). eauto.
    - rewrite (@insert_leaf_room cap f w
                 (new_node (child_center m (quadrant m w))
                           (half (X (size m)), half (Y (size m)))) eq_refl);
        [eauto|simpl; lia]. }
  destruct Hret as (m' & Hm'). exists m'. split; [exact Hm'|].
  destruct (@insert_fitting_spec cap _ w m m' (@insert_spec cap (S f)) Hok Hm')
    as (Hok' & Hb' & Hc' & _).
  split; [|exact Hb'].
  destruct (insert_fitting_inv _ _ _ Hm') as (ch & ch' & Hch & Hrec & Hget & Hoth & _).
  assert (Hch' : leaf ch = true /\ (length (bucket ch) <= N)%nat /\
                 ~ In w (bucket ch) /\
                 (quadrant m v = quadrant m w -> get_child m (quadrant m w) = Some ch)).
  { destruct Hch as [E|[E ->]].
    - destruct (Hl _ _ E) as [Lc Hlen]. repeat split; auto.
      intros Hin. apply Hnew. exists (quadrant m w), ch. split; [assumption|].
      apply In_points_below. now left.
    - simpl. repeat split; auto; try lia. intros Hq. rewrite Hq in Hcv. congruence. }
  destruct Hch' as (Lch & Hlen & Hnin & Hsame).
  rewrite (@insert_leaf_room cap f w ch Lch ltac:(lia)) in Hrec.
  rewrite (proj2 (mem_not_In w (bucket ch)) Hnin) in Hrec.
  inversion Hrec; subst ch'; clear Hrec.
  split; [exact Hok'|]. split.
  - intros q c Hq. destruct (Nat.eq_dec q (quadrant m w)) as [->|Hne].
    + rewrite Hget in Hq. inversion Hq; subst c. simpl. split; [assumption|].
      rewrite length_app. simpl. lia.
    + rewrite (Hoth _ Hne) in Hq. destruct (Hl _ _ Hq) as [A B]. split; [assumption|lia].
  - rewrite (@quadrant_same m m' v Hc').
    destruct (Nat.eq_dec (quadrant m v) (quadrant m w)) as [Heq|Hne].
    + rewrite Heq, Hget. pose proof (Hsame Heq) as Hs. rewrite Heq in Hcv.
      assert (ch = cv) by congruence. subst ch.
      exists (set_bucket cv (bucket cv ++ [w])), (r ++ [w]). split; [reflexivity|].
      simpl. now rewrite Hbv.
    + rewrite (Hoth _ Hne). now exists cv, r.
Qed.

Lemma light_list (cap f : nat) (v : point) (L : list point) :
  forall N m,
    light cap N v m -> NoDup L -> (forall w, In w L -> ~ below m w) ->
    (N + length L <= cap)%nat ->
    exists m',
      reinsert (_insert (S f) cap) L (Some m) = Some m' /\
      light cap (N + length L) v m' /\
      (forall p, below m' p <-> In p L \/ below m p).
Proof.
  induction L as [|w L IH]; intros N m Hl Hnd Hnew Hlen.
  - exists m. split; [reflexivity|]. rewrite Nat.add_0_r. split; [assumption|].
    intros p. simpl. tauto.
  - inversion Hnd as [|? ? Hw HL]; subst. simpl in Hlen.
    destruct (@light_new cap f N v w m Hl ltac:(lia) (Hnew w (or_introl eq_refl)))
      as (m1 & H1 & Hl1 & Hb1).
    destruct (IH (S N) m1 Hl1 HL) as (m' & H' & Hl' & Hb').
    + intros w' Hw' Hbel. apply Hb1 in Hbel. destruct Hbel as [->|Hbel];
        [contradiction|]. apply (Hnew w'); [now right|assumption].
    + lia.
    + exists m'. split; [|split].
      * unfold reinsert in *. cbn [fold_left]. now rewrite H1.
      * simpl. now rewrite Nat.add_succ_r.
      * intros p. rewrite Hb', Hb1. simpl. split.
        -- intros [H|[H|H]]; [left; now right|left; now left|now right].
        -- intros [[H|H]|H]; [right; now left|now left|right; now right].
Qed.

(** The split of a full leaf that holds [v], on [add(v)], with a capacity
    of at least 2: [v] goes to a new child, the points before [v] in the
    bucket follow without filling a child, and [v] itself then finds a
    child with room, or a full child that holds [v] first (only when [v]
    was the last point of the bucket). *)
Lemma dup_leaf_gen (cap f : nat) (v : point) (n : QuadTreeNode) (b1 b2 : list point) :
  (2 <= cap)%nat -> WF cap n -> leaf n = true -> bucket n = b1 ++ v :: b2 ->
  (length (bucket n) <? cap)%nat = false ->
  (b1 <> [] ->
   forall c r, WF cap c -> leaf c = true -> bucket c = v :: r ->
               (length (bucket c) <? cap)%nat = false ->
               exists c', _insert (S f) cap v c = Some c') ->
  exists n', _insert (S (S f)) cap v n = Some n'.
Proof.
  intros Hcap Hwf L Hb Hfull Hnest.
  destruct (@WF_leaf_inv _ _ Hwf L) as (Hnc & Hlen & Hnd).
  apply Nat.ltb_ge in Hfull. rewrite Hb in Hlen, Hfull, Hnd.
  rewrite length_app in Hlen, Hfull. simpl in Hlen, Hfull.
  assert (Hv1 : ~ In v b1 /\ ~ In v b2).
  { apply NoDup_remove_2 in Hnd. rewrite in_app_iff in Hnd. tauto. }
  assert (Hnd1 : NoDup b1 /\ NoDup b2 /\ forall x, In x b1 -> ~ In x b2).
  { apply NoDup_remove_1 in Hnd. apply NoDup_app_remove_l in Hnd as Hr.
    apply NoDup_app_remove_r in Hnd as Hl1. split; [assumption|]. split; [assumption|].
    intros x H1 H2. clear - Hnd H1 H2. induction b1 as [|a b1 IH]; [destruct H1|].
    simpl in Hnd. inversion Hnd as [|? ? Ha Hrest]; subst.
    destruct H1 as [->|H1]; [apply Ha; apply in_app_iff; now right|auto]. }
  destruct Hv1 as [Hv1 Hv2]. destruct Hnd1 as (Hn1 & Hn2 & Hdis).
  set (node1 := set_leaf n false).
  assert (Hok1 : stem_ok cap node1).
  { intros q c Hq. unfold node1 in Hq. rewrite get_child_set_leaf, Hnc in Hq.
    discriminate. }
  assert (Hno : forall p, ~ below node1 p).
  { intros p (q & c & Hq & _). unfold node1 in Hq.
    rewrite get_child_set_leaf, Hnc in Hq. discriminate. }
  assert (H2 : exists n2, insert_fitting (_insert (S f) cap) v node1 = Some n2).
  { unfold insert_fitting, fitting_child_node.
    assert (E1 : get_child node1 (quadrant node1 v) = None)
      by (unfold node1 at 1; now rewrite get_child_set_leaf, Hnc).
    rewrite E1.
    rewrite (@insert_leaf_room cap f v
               (new_node (child_center node1 (quadrant node1 v))
                         (half (X (size node1)), half (Y (size node1)))) eq_refl);
      [eauto|simpl; lia]. }
  destruct H2 as (n2 & H2).
  destruct (@insert_fitting_spec cap _ v node1 n2 (@insert_spec cap (S f)) Hok1 H2)
    as (Hok2 & Hb2 & Hc2 & _).
  destruct (insert_fitting_inv _ _ _ H2) as (ch & ch' & Hch & Hrec & Hget & Hoth & _).
  assert (Ech : ch = new_node (child_center node1 (quadrant node1 v))
                              (half (X (size node1)), half (Y (size node1)))).
  { destruct Hch as [E|[_ E]]; [|exact E]. unfold node1 in E at 1.
    rewrite get_child_set_leaf, Hnc in E. discriminate. }
  rewrite Ech in Hrec.
  rewrite (@insert_leaf_room cap f v
             (new_node (child_center node1 (quadrant node1 v))
                       (half (X (size node1)), half (Y (size node1)))) eq_refl)
    in Hrec by (simpl; lia).
  simpl in Hrec. inversion Hrec; subst ch'; clear Hrec.
  assert (Hl2 : light cap 1 v n2).
  { split; [exact Hok2|]. split.
    - intros q c Hq. destruct (Nat.eq_dec q (quadrant node1 v)) as [->|Hne].
      + rewrite Hget in Hq. inversion Hq; subst c. simpl. split; [reflexivity|lia].
      + rewrite (Hoth _ Hne) in Hq. unfold node1 in Hq.
        rewrite get_child_set_leaf, Hnc in Hq. discriminate.
    - rewrite (@quadrant_same node1 n2 v Hc2), Hget. eexists. exists []. split; reflexivity. }
  destruct (@light_list cap f v b1 1 n2 Hl2 Hn1) as (n3 & H3 & Hl3 & Hb3).
  { intros w Hw Hbel. apply Hb2 in Hbel. destruct Hbel as [->|Hbel];
      [contradiction|]. now apply (Hno w). }
  { lia. }
  rewrite insert_eq, L.
  replace (length (bucket n) <? cap)%nat with false
    by (symmetry; apply Nat.ltb_ge; rewrite Hb, length_app; simpl; lia).
  fold node1. rewrite H2. rewrite Hb, reinsert_app, H3.
  destruct Hl3 as (Hok3 & Hlf3 & (cv & r & Hcv & Hbv)).
  destruct (Hlf3 _ _ Hcv) as [Lcv Hlcv].
  destruct (length (bucket cv) <? cap)%nat eqn:Hroom.
  - apply Nat.ltb_lt in Hroom.
    assert (Hd : insert_fitting (_insert (S f) cap) v n3 = Some n3).
    { apply (@light_dup cap f v n3 cv (quadrant n3 v) Hok3 Hcv Lcv); [|assumption].
      rewrite Hbv. now left. }
    destruct (@light_list cap f v b2 (1 + length b1) n3) as (n4 & H4 & _).
    + split; [exact Hok3|]. split; [exact Hlf3|]. now exists cv, r.
    + exact Hn2.
    + intros w Hw Hbel. apply Hb3 in Hbel. destruct Hbel as [Hbel|Hbel].
      * now apply (Hdis w).
      * apply Hb2 in Hbel. destruct Hbel as [->|Hbel]; [contradiction|].
        now apply (Hno w).
    + lia.
    + unfold reinsert in *. cbn [fold_left]. rewrite Hd. rewrite H4. eauto.
  - apply Nat.ltb_ge in Hroom.
    assert (Hb1 : b1 <> []) by (intros ->; simpl in *; lia).
    assert (Hb2' : b2 = []) by (destruct b2; [reflexivity|simpl in *; lia]).
    destruct (Hok3 _ _ Hcv) as (Wcv & _).
    destruct (Hnest Hb1 cv r Wcv Lcv Hbv) as (c' & Hc').
    { now apply Nat.ltb_ge. }
    subst b2. unfold reinsert. cbn [fold_left].
    unfold insert_fitting, fitting_child_node. rewrite Hcv, Hc'. eauto.
Qed.

Lemma dup_leaf (cap : nat) (v : point) (n : QuadTreeNode) :
  (2 <= cap)%nat -> WF cap n -> leaf n = true -> In v (bucket n) ->
  exists f n', _insert f cap v n = Some n'.
Proof.
  intros Hcap Hwf L Hv.
  destruct (length (bucket n) <? cap)%nat eqn:Hroom.
  - apply Nat.ltb_lt in Hroom. exists 1%nat.
    rewrite (@insert_leaf_room cap 0 v n L Hroom). eauto.
  - destruct (in_split _ _ Hv) as (b1 & b2 & Hb).
    exists 3%nat. apply (@dup_leaf_gen cap 1 v n b1 b2 Hcap Hwf L Hb Hroom).
    intros _ c r Wc Lc Hbc Hfc.
    apply (@dup_leaf_gen cap 0 v c [] r Hcap Wc Lc Hbc Hfc). congruence.
Qed.

(** [add(v)] of a stored point returns when the capacity is at least 2. *)
Lemma dup_insert (cap : nat) (v : point) (n : QuadTreeNode) :
  (2 <= cap)%nat -> WF cap n -> In v (points n) ->
  exists f n', _insert f cap v n = Some n'.
Proof.
  intros Hcap Hwf Hv. apply insert_at_landing; [lia|assumption|].
  intros top Htop. destruct (@landing_leaf cap v n Hwf top Htop) as (Wt & L & Hin).
  apply dup_leaf; auto. now apply Hin.
Qed.



(** ** Membership, insertion and removal together *)

Lemma same_set_length (A : Type) (l l' : list A) :
  NoDup l -> NoDup l' -> (forall x, In x l <-> In x l') -> length l = length l'.
Proof.
  intros H H' E. apply Nat.le_antisymm; apply NoDup_incl_length; auto;
    intros x Hx; now apply E.
Qed.

Lemma contains_false (cap : nat) (v : point) (n : QuadTreeNode) :
  WF cap n -> (contains_from v n = false <-> ~ In v (points n)).
Proof.
  intros Hwf. rewrite <- (@contains_from_correct cap v n Hwf).
  destruct (contains_from v n); split; congruence.
Qed.

(** X1. Membership and iteration agree: in every reached state
    [v in tree] is true exactly when iterating over the tree yields [v]. *)
Theorem contains_iff_iterated (log2 : float -> option float) (rg : fpoint * fpoint)
  (cap : nat) (t0 t : QuadTree)
  (v : point) :
  QuadTree_init log2 rg cap = Some t0 -> reachable t0 t ->
  (contains v t = true <-> In v (iter_points t)).
Proof.
  intros Hi Hr. destruct (@reachable_init_WF _ _ _ _ _ Hi Hr) as (Hwf & Hcap).
  rewrite <- Hcap in Hwf. rewrite (@iter_points_points _ Hwf).
  apply (@contains_from_correct _ v _ Hwf).
Qed.

(** X2. Frame of [add]: after a completed [add(v)] a point is in the tree
    exactly when it is [v] or was in the tree before, and the number of
    stored points grows by one when [v] is new and stays when it is not. *)
Theorem add_frame (log2 : float -> option float) (rg : fpoint * fpoint)
  (cap : nat) (t0 t t' : QuadTree)
  (fuel : nat) (v : point) :
  QuadTree_init log2 rg cap = Some t0 -> reachable t0 t ->
  add fuel v t = Some t' ->
  (forall p, contains p t' = point_eqb p v || contains p t) /\
  length (iter_points t')
  = (if contains v t then length (iter_points t)
     else S (length (iter_points t))).
Proof.
  intros Hi Hr Ha. destruct (@reachable_init_WF _ _ _ _ _ Hi Hr) as (Hwf & Hcap).
  rewrite <- Hcap in Hwf.
  destruct (@add_spec _ _ _ _ Hwf Ha) as (W' & C' & P' & _).
  rewrite (@iter_points_points _ Hwf), (@iter_points_points _ W').
  pose proof (@WF_NoDup _ _ Hwf) as N. pose proof (@WF_NoDup _ _ W') as N'.
  split.
  - intros p. unfold contains.
    destruct (contains_from p (root t')) eqn:E.
    + apply (@contains_from_correct _ p _ W') in E. apply P' in E.
      symmetry. apply orb_true_iff. destruct E as [->|E].
      * left. now apply point_eqb_eq.
      * right. now apply (@contains_from_correct _ p _ Hwf).
    + apply (@contains_false _ p _ W') in E. symmetry. apply orb_false_iff.
      split.
      * destruct (point_eqb p v) eqn:Ep; [|reflexivity].
        apply point_eqb_eq in Ep. exfalso. apply E. apply P'. now left.
      * apply (@contains_false _ p _ Hwf). intros Hp. apply E. apply P'.
        now right.
  - unfold contains. destruct (contains_from v (root t)) eqn:E.
    + apply (@contains_from_correct _ v _ Hwf) in E.
      apply same_set_length; auto. intros x. rewrite P'.
      split; [intros [->|H]; assumption|now right].
    + apply (@contains_false _ v _ Hwf) in E.
      change (S (length (points (root t)))) with (length (v :: points (root t))).
      apply same_set_length; auto; [now constructor|].
      intros x. rewrite P'. simpl. split; intros [H|H]; auto.
Qed.

(** X3. [remove]: in every reached state [remove(v)] returns whether [v]
    was in the tree; afterwards [v] is not in the tree and every other
    point is in the tree exactly when it was; the number of stored points
    drops by one when [v] was stored; and when [v] was not stored the tree
    is left exactly as it was. *)
Theorem remove_correct (log2 : float -> option float) (rg : fpoint * fpoint)
  (cap : nat) (t0 t : QuadTree)
  (v : point) :
  QuadTree_init log2 rg cap = Some t0 -> reachable t0 t ->
  fst (remove v t) = contains v t /\
  contains v (snd (remove v t)) = false /\
  (forall p, p <> v -> contains p (snd (remove v t)) = contains p t) /\
  (length (iter_points t)
   = (if contains v t then S (length (iter_points (snd (remove v t))))
      else length (iter_points (snd (remove v t))))) /\
  (contains v t = false -> snd (remove v t) = t).
Proof.
  intros Hi Hr. destruct (@reachable_init_WF _ _ _ _ _ Hi Hr) as (Hwf & Hcap).
  rewrite <- Hcap in Hwf.
  destruct (@remove_spec v _ Hwf) as (W' & C' & P' & _ & _ & B').
  set (t' := snd (remove v t)) in *.
  rewrite (@iter_points_points _ Hwf), (@iter_points_points _ W').
  pose proof (@WF_NoDup _ _ Hwf) as N. pose proof (@WF_NoDup _ _ W') as N'.
  assert (Hc : contains v t = true <-> In v (points (root t)))
    by apply (@contains_from_correct _ v _ Hwf).
  split; [|split; [|split; [|split]]].
  - apply eq_true_iff_eq. rewrite Hc. exact B'.
  - apply (@contains_false _ v _ W'). intros H. apply P' in H. tauto.
  - intros p Hp. unfold contains.
    destruct (contains_from p (root t)) eqn:E.
    + apply (@contains_from_correct _ p _ Hwf) in E.
      apply (@contains_from_correct _ p _ W'). apply P'. now split.
    + apply (@contains_false _ p _ Hwf) in E.
      apply (@contains_false _ p _ W'). intros H. apply P' in H. tauto.
  - destruct (contains v t) eqn:E.
    + assert (Hv : In v (points (root t))) by now apply Hc.
      change (S (length (points (root t')))) with (length (v :: points (root t'))).
      apply same_set_length; auto.
      * constructor; [|assumption]. intros H. apply P' in H. tauto.
      * intros x. simpl. rewrite P'. split.
        -- intros Hx. destruct (point_eq_dec v x) as [->|Hne]; [now left|].
           right. split; [assumption|congruence].
        -- intros [<-|[Hx _]]; assumption.
    + apply same_set_length; auto. intros x. rewrite P'. split.
      * intros Hx. split; [assumption|]. intros ->.
        apply Hc in Hx. congruence.
      * tauto.
  - intros E. unfold t', remove. rewrite remove_node_rec.
    destruct (remove_rec (max_bucket_size t) v (root t)) as [[r' go]|] eqn:R.
    + destruct (@remove_rec_spec _ _ _ _ _ Hwf R) as (_ & _ & Hv & _).
      apply Hc in Hv. congruence.
    + simpl. now destruct t.
Qed.

Lemma pow2_all : forallb pow2_ok (map Z.of_nat (seq 0 1024)) = true.
Proof. vm_compute. reflexivity. Qed.

Lemma pow2_value (n : Z) :
  (0 <= n <= 1023)%Z -> exists q, value (Z.ldexp 1 n) = Fin q /\ (q == 2 ^ n)%Q.
Proof.
  intros Hn. pose proof pow2_all as H. rewrite forallb_forall in H.
  assert (Hin : In n (map Z.of_nat (seq 0 1024))).
  { apply in_map_iff. exists (Z.to_nat n). split; [lia|]. apply in_seq. lia. }
  specialize (H n Hin). unfold pow2_ok in H.
  destruct (value (Z.ldexp 1 n)) as [| |q|]; try discriminate.
  exists q. split; [reflexivity|]. now apply Qeq_bool_iff.
Qed.


(** ** Range search on any reached tree *)

Lemma NoDup_app_iff' (A : Type) (l1 l2 : list A) :
  NoDup (l1 ++ l2) <->
  NoDup l1 /\ NoDup l2 /\ forall x, In x l1 -> ~ In x l2.
Proof.
  split.
  - induction l1 as [|a l1 IH]; simpl; intros H.
    + split; [constructor|]. split; [assumption|]. intros x [].
    + inversion H as [|? ? Ha Hl]; subst. destruct (IH Hl) as (N1 & N2 & D).
      split; [|split; [assumption|]].
      * constructor; [|assumption]. intros Hin. apply Ha. apply in_app_iff. now left.
      * intros x [<-|Hx]; [|now apply D].
        intros Hin. apply Ha. apply in_app_iff. now right.
  - intros (N1 & N2 & D). now apply NoDup_app.
Qed.

Lemma NoDup_flat_map_keyed (F : nat -> list point) (key : point -> nat)
  (slots : list nat) :
  NoDup slots -> (forall q, NoDup (F q)) ->
  (forall q x, In x (F q) -> key x = q) ->
  NoDup (flat_map F slots).
Proof.
  intros Hs HF Hk. induction slots as [|q l IH]; simpl; [constructor|].
  inversion Hs as [|? ? Hq Hl]; subst.
  apply NoDup_app; [apply HF|now apply IH|].
  intros x Hx Hin. apply in_flat_map in Hin. destruct Hin as (q' & Hq' & Hx').
  apply Hk in Hx. apply Hk in Hx'. subst. congruence.
Qed.

Lemma queued_slots (minXY maxXY : point) (n : QuadTreeNode) (slots : list nat) :
  flat_map points (queued minXY maxXY (map (get_child n) slots))
  = flat_map (fun q => flat_map points (queued minXY maxXY [get_child n q])) slots.
Proof.
  induction slots as [|q l IH]; simpl; [reflexivity|].
  rewrite flat_map_app, IH. now rewrite !app_nil_r.
Qed.

Lemma harvested_slots (minXY maxXY : point) (n : QuadTreeNode) (slots : list nat) :
  harvested minXY maxXY (map (get_child n) slots)
  = flat_map (fun q => harvested minXY maxXY [get_child n q]) slots.
Proof.
  induction slots as [|q l IH]; simpl; [reflexivity|].
  unfold harvested in *. simpl. now rewrite IH, !app_nil_r.
Qed.

(** What one pass over the children of a well-formed stem reports and
    queues: points of the stem, none twice, none both reported and below a
    queued child. *)
Lemma scan_parts (cap : nat) (minXY maxXY : point) (top : QuadTreeNode) :
  WF cap top -> leaf top = false ->
  let got := harvested minXY maxXY (child_list top) in
  let below := flat_map points (queued minXY maxXY (child_list top)) in
  NoDup got /\ NoDup below /\
  (forall x, In x got -> In x (points top)) /\
  (forall x, In x below -> In x (points top)) /\
  (forall x, In x got -> ~ In x below).
Proof.
  intros Hwf L got below.
  destruct (@WF_stem_inv _ _ Hwf L) as (Hbk & Hok & _).
  assert (Hgot : forall q x, In x (harvested minXY maxXY [get_child top q]) ->
                 exists c, get_child top q = Some c /\ In x (points c) /\
                           enclosure_status (center c) (size c) minXY maxXY
                           = NODE_CONTAINED_BY_REGION).
  { intros q x Hx. apply In_harvested in Hx. destruct Hx as (c & [Hc|[]] & E & Hx).
    exists c. split; [assumption|]. split; [|assumption].
    destruct (Hok _ _ Hc) as (Wc & _).
    now rewrite <- (@add_all_points cap c Wc). }
  assert (Hq : forall q x,
             In x (flat_map points (queued minXY maxXY [get_child top q])) ->
             exists c, get_child top q = Some c /\ In x (points c) /\
                       enclosure_status (center c) (size c) minXY maxXY
                       = NODE_PARTIALLY_IN_REGION).
  { intros q x Hx. apply in_flat_map in Hx. destruct Hx as (c & Hc & Hx).
    apply In_queued in Hc. destruct Hc as ([Hc|[]] & E). now exists c. }
  unfold got, below, child_list. rewrite harvested_slots, queued_slots.
  split; [|split; [|split; [|split]]].
  - apply NoDup_flat_map_keyed with (key := quadrant top).
    + apply seq_NoDup.
    + intros q. unfold harvested. simpl. rewrite app_nil_r.
      destruct (get_child top q) as [c|] eqn:E; [|constructor].
      destruct (enclosure_status _ _ _ _); try constructor.
      destruct (Hok _ _ E) as (Wc & _).
      rewrite (@add_all_points cap c Wc). now apply WF_NoDup with (cap := cap).
    + intros q x Hx. destruct (Hgot _ _ Hx) as (c & Hc & Hp & _).
      destruct (Hok _ _ Hc) as (_ & _ & R). now apply R.
  - apply NoDup_flat_map_keyed with (key := quadrant top).
    + apply seq_NoDup.
    + intros q. unfold queued. simpl. rewrite app_nil_r.
      destruct (get_child top q) as [c|] eqn:E; [|constructor].
      destruct (enclosure_status _ _ _ _); simpl; try constructor.
      rewrite app_nil_r. destruct (Hok _ _ E) as (Wc & _).
      now apply WF_NoDup with (cap := cap).
    + intros q x Hx. destruct (Hq _ _ Hx) as (c & Hc & Hp & _).
      destruct (Hok _ _ Hc) as (_ & _ & R). now apply R.
  - intros x Hx. apply in_flat_map in Hx. destruct Hx as (q & _ & Hx).
    destruct (Hgot _ _ Hx) as (c & Hc & Hp & _).
    apply In_points_below. right. now exists q, c.
  - intros x Hx. apply in_flat_map in Hx. destruct Hx as (q & _ & Hx).
    destruct (Hq _ _ Hx) as (c & Hc & Hp & _).
    apply In_points_below. right. now exists q, c.
  - intros x Hx Hx'.
    apply in_flat_map in Hx. destruct Hx as (q & _ & Hx).
    apply in_flat_map in Hx'. destruct Hx' as (q' & _ & Hx').
    destruct (Hgot _ _ Hx) as (c & Hc & Hp & E).
    destruct (Hq _ _ Hx') as (c' & Hc' & Hp' & E').
    destruct (Hok _ _ Hc) as (_ & _ & R). destruct (Hok _ _ Hc') as (_ & _ & R').
    apply R in Hp. apply R' in Hp'. subst. congruence.
Qed.

(** The loop of [range_search] on well-formed subtrees: it returns when the
    budget covers the queue, and its result has no point twice when what was
    reported and the points below the queue have none twice; every point of
    the result was reported before or lies below the queue. *)
Lemma search_loop_nodup (cap : nat) (minXY maxXY : point) (fuel : nat) :
  forall nodes results,
    (forall n, In n nodes -> WF cap n) ->
    (weight nodes <= fuel)%nat ->
    NoDup (results ++ flat_map points nodes) ->
    exists res,
      search_loop fuel minXY maxXY nodes results = Some res /\
      NoDup res /\
      forall p, In p res -> In p (results ++ flat_map points nodes).
Proof.
  induction fuel as [|fuel IH]; intros nodes results Hwf Hw Hnd.
  - destruct nodes as [|top rest].
    + exists results. simpl in *. rewrite app_nil_r in Hnd.
      split; [reflexivity|]. split; [assumption|]. intros p Hp.
      now rewrite app_nil_r.
    + exfalso. unfold weight in Hw. simpl in Hw. rewrite preorder_eq in Hw.
      simpl in Hw. lia.
  - destruct nodes as [|top rest].
    + exists results. simpl in *. rewrite app_nil_r in Hnd.
      split; [reflexivity|]. split; [assumption|]. intros p Hp.
      now rewrite app_nil_r.
    + assert (Wtop : WF cap top) by (apply Hwf; now left).
      assert (Wrest : forall n, In n rest -> WF cap n)
        by (intros n Hn; apply Hwf; now right).
      rewrite weight_cons in Hw. cbn [flat_map] in Hnd.
      apply NoDup_app_iff' in Hnd. destruct Hnd as (N1 & N2 & D12).
      apply NoDup_app_iff' in N2. destruct N2 as (Nt & Nr & Dtr).
      cbn [search_loop]. destruct (leaf top) eqn:L.
      * cbn [tl].
        assert (Hle : (weight rest <= fuel)%nat).
        { rewrite preorder_eq in Hw. simpl in Hw. lia. }
        destruct (@WF_leaf_inv _ _ Wtop L) as (Hnc & _).
        rewrite (points_leaf _ Hnc) in *.
        set (results' :=
               match enclosure_status (center top) (size top) minXY maxXY with
               | NODE_NOT_IN_REGION => results
               | NODE_PARTIALLY_IN_REGION =>
                   results ++ filter (fun v => point_in_region v minXY maxXY)
                                     (bucket top)
               | NODE_CONTAINED_BY_REGION => results ++ bucket top
               end).
        assert (Hsub : exists b, results' = results ++ b /\ NoDup b /\
                                 forall x, In x b -> In x (bucket top)).
        { unfold results'.
          destruct (enclosure_status (center top) (size top) minXY maxXY).
          - exists []. rewrite app_nil_r. split; [reflexivity|].
            split; [constructor|]. intros x [].
          - exists (filter (fun v => point_in_region v minXY maxXY) (bucket top)).
            split; [reflexivity|]. split; [now apply NoDup_filter|].
            intros x Hx. apply filter_In in Hx. tauto.
          - exists (bucket top). auto. }
        destruct Hsub as (b & Eb & Nb & Ib).
        destruct (IH rest results' Wrest Hle) as (res & Hres & Nres & Ires).
        { rewrite Eb. rewrite <- app_assoc.
          apply NoDup_app_iff'. split; [assumption|]. split.
          - apply NoDup_app_iff'. split; [assumption|]. split; [assumption|].
            intros x Hx. apply Dtr. auto.
          - intros x Hx Hin. apply (D12 x Hx). apply in_app_iff in Hin.
            apply in_app_iff. destruct Hin as [Hin|Hin]; auto. }
        exists res. split; [exact Hres|]. split; [exact Nres|].
        intros p Hp. apply Ires in Hp. rewrite Eb in Hp.
        rewrite !in_app_iff in Hp. cbn [flat_map]. rewrite !in_app_iff.
        rewrite (points_leaf _ Hnc). intuition.
      * rewrite scan_children_eq. cbn [app tl].
        destruct (@scan_parts cap minXY maxXY top Wtop L)
          as (Ng & Nb & Ig & Ib & Dgb).
        set (enq := queued minXY maxXY (child_list top)) in *.
        set (got := harvested minXY maxXY (child_list top)) in *.
        assert (Wenq : forall n, In n (rest ++ enq) -> WF cap n).
        { intros n Hn. apply in_app_iff in Hn. destruct Hn as [Hn|Hn]; [auto|].
          apply In_queued in Hn. destruct Hn as [Hn _].
          apply In_child_list in Hn. destruct Hn as [q Hq].
          destruct (@WF_stem_inv _ _ Wtop L) as (_ & Hok & _).
          now destruct (Hok _ _ Hq). }
        assert (Hle : (weight (rest ++ enq) <= fuel)%nat).
        { rewrite weight_app. pose proof (weight_queued minXY maxXY top) as H.
          fold enq in H. lia. }
        destruct (IH (rest ++ enq) (results ++ got) Wenq Hle)
          as (res & Hres & Nres & Ires).
        { rewrite flat_map_app, <- app_assoc.
          apply NoDup_app_iff'. split; [assumption|]. split.
          - apply NoDup_app_iff'. split; [assumption|]. split.
            + apply NoDup_app_iff'. split; [assumption|]. split; [assumption|].
              intros x Hx Hin. apply (Dtr x); auto.
            + intros x Hx Hin. apply in_app_iff in Hin.
              destruct Hin as [Hin|Hin]; [apply (Dtr x); auto|].
              now apply (Dgb x).
          - intros x Hx Hin. apply (D12 x Hx). rewrite !in_app_iff in Hin.
            apply in_app_iff. destruct Hin as [Hin|[Hin|Hin]]; auto. }
        exists res. split; [exact Hres|]. split; [exact Nres|].
        intros p Hp. apply Ires in Hp. rewrite flat_map_app in Hp.
        rewrite !in_app_iff in Hp. cbn [flat_map]. rewrite !in_app_iff.
        destruct Hp as [[Hp|Hp]|[Hp|Hp]]; auto.
Qed.

(** X7. On every reached tree, whatever the stored points and the
    rectangle, [range_search] returns, reports only stored points and
    reports none twice. *)
Theorem range_search_sound (log2 : float -> option float) (rg : fpoint * fpoint)
  (cap : nat) (t0 t : QuadTree)
  (rect_min rect_max : point) :
  QuadTree_init log2 rg cap = Some t0 -> reachable t0 t ->
  exists res,
    range_search t (rect_min, rect_max) = Some res /\
    NoDup res /\ forall p, In p res -> In p (iter_points t).
Proof.
  intros Hi Hr. destruct (@reachable_init_WF _ _ _ _ _ Hi Hr) as (Hwf & Hcap).
  assert (Hit : iter_points t = points (root t))
    by (apply iter_points_points; now rewrite Hcap).
  rewrite Hit. unfold range_search.
  destruct (@search_loop_nodup cap rect_min rect_max (length (preorder (root t)))
              [root t] []) as (res & Hres & Nres & Ires).
  - intros n [<-|[]]. assumption.
  - unfold weight. simpl. rewrite app_nil_r. lia.
  - simpl. rewrite app_nil_r. now apply WF_NoDup with (cap := cap).
  - exists res. split; [exact Hres|]. split; [exact Nres|].
    intros p Hp. apply Ires in Hp. simpl in Hp. now rewrite app_nil_r in Hp.
Qed.

(** ** Classification of a node against a rectangle *)

(** One axis of a region that is not inverted, [lo] to [hi], inside the
    bounds [mn] to [mx]. *)
Lemma axis_inside (lo hi : fval) (mn mx : Q) :
  flt hi lo = false -> fle (Fin mn) lo = true -> fle hi (Fin mx) = true ->
  fle lo (Fin mx) = true /\ fle (Fin mn) hi = true /\
  flt (Fin mx) lo = false /\ flt hi (Fin mn) = false.
Proof. destruct lo, hi; intros H1 H2 H3; repeat split; num_arith. Qed.

(** X8. [enclosure_status] for a node whose region is not inverted (on
    neither axis is the upper corner, as computed, below the lower one; in
    IEEE arithmetic non-negative half-sizes give this, rounding being
    monotone): the result is NODE_NOT_IN_REGION
    exactly when the node's region and the rectangle are apart on some
    axis, and NODE_CONTAINED_BY_REGION exactly when the node's region lies
    inside the rectangle. *)
Theorem enclosure_status_spec (c s : fpoint) (minXY maxXY : point) :
  ltb (X c + X s)%float (X c - X s)%float = false ->
  ltb (Y c + Y s)%float (Y c - Y s)%float = false ->
  (enclosure_status c s minXY maxXY = NODE_NOT_IN_REGION <->
   ltb (X maxXY) (X c - X s)%float = true \/
   ltb (X c + X s)%float (X minXY) = true \/
   ltb (Y maxXY) (Y c - Y s)%float = true \/
   ltb (Y c + Y s)%float (Y minXY) = true) /\
  (enclosure_status c s minXY maxXY = NODE_CONTAINED_BY_REGION <->
   leb (X minXY) (X c - X s)%float = true /\
   leb (X c + X s)%float (X maxXY) = true /\
   leb (Y minXY) (Y c - Y s)%float = true /\
   leb (Y c + Y s)%float (Y maxXY) = true).
Proof.
  unfold enclosure_status, point_in_region, geb, gtb, ltb, leb.
  unfold X, Y. cbn [fst snd]. unfold val, Num_Qc, Num_float.
  set (lox := value (fst c - fst s)). set (hix := value (fst c + fst s)).
  set (loy := value (snd c - snd s)). set (hiy := value (snd c + snd s)).
  intros Sx Sy.
  pose proof (@axis_inside lox hix (this (fst minXY)) (this (fst maxXY)) Sx) as Ax.
  pose proof (@axis_inside loy hiy (this (snd minXY)) (this (snd maxXY)) Sy) as Ay.
  destruct (flt (Fin (this (fst maxXY))) lox) eqn:E1;
    destruct (flt hix (Fin (this (fst minXY)))) eqn:E2;
    destruct (flt (Fin (this (snd maxXY))) loy) eqn:E3;
    destruct (flt hiy (Fin (this (snd minXY)))) eqn:E4;
    cbn [orb];
    try (split; [split; [intros _; tauto|reflexivity]
                |split; [discriminate|];
                 intros (A & B & C & D);
                 destruct (Ax A B) as (_ & _ & F1 & F2);
                 destruct (Ay C D) as (_ & _ & F3 & F4); congruence]).
  split.
  - split; [destruct (_ =? 4)%nat; discriminate|].
    intros [H|[H|[H|H]]]; discriminate.
  - destruct (fle (Fin (this (fst minXY))) lox) eqn:A1;
      destruct (fle hix (Fin (this (fst maxXY)))) eqn:A2;
      destruct (fle (Fin (this (snd minXY))) loy) eqn:A3;
      destruct (fle hiy (Fin (this (snd maxXY)))) eqn:A4;
      try (destruct (Ax eq_refl eq_refl) as (-> & -> & _ & _));
      try (destruct (Ay eq_refl eq_refl) as (-> & -> & _ & _));
      cbn [andb Nat.b2n Nat.add Nat.eqb];
      try (split; [intros _; tauto|reflexivity]);
      (split; [|intros (H1 & H2 & H3 & H4); discriminate]);
      destruct (fle lox (Fin (this (fst maxXY))));
      destruct (fle (Fin (this (fst minXY))) hix);
      destruct (fle loy (Fin (this (snd maxXY))));
      destruct (fle (Fin (this (snd minXY))) hiy);
      cbn [andb Nat.b2n Nat.add Nat.eqb]; discriminate.
Qed.

Lemma outside_status (p : point) (n : QuadTreeNode) :
  outside p n = true ->
  enclosure_status (center n) (size n) p p = NODE_NOT_IN_REGION.
Proof.
  unfold outside, enclosure_status, region, gtb. cbn [X Y fst snd].
  intros H. now rewrite H.
Qed.


(** ** Duplicates where there is room *)

Lemma has_room_child (cap : nat) (v : point) (n c : QuadTreeNode) :
  leaf n = false -> get_child n (quadrant n v) = Some c ->
  has_room cap v n = has_room cap v c.
Proof.
  intros L E. unfold has_room. rewrite (leaf_path_eq v n), L. cbn [negb].
  rewrite E. destruct (leaf_path v c) as [path|]; [|reflexivity].
  simpl. now rewrite E.
Qed.

Lemma insert_stored_room (cap : nat) (v : point) (f : nat) :
  forall n r, WF cap n -> In v (points n) -> has_room cap v n = true ->
              _insert f cap v n = Some r -> r = n.
Proof.
  induction f as [|f IH]; intros n r Hwf Hv Hroom H; [discriminate|].
  cbn [_insert] in H. destruct (leaf n) eqn:L.
  - destruct (@WF_leaf_inv _ _ Hwf L) as (Hnc & _).
    rewrite (points_leaf _ Hnc) in Hv.
    unfold has_room in Hroom. rewrite leaf_path_eq, L in Hroom. simpl in Hroom.
    rewrite Hroom in H. rewrite (proj2 (mem_In v (bucket n)) Hv) in H.
    simpl in H. congruence.
  - destruct (@WF_stem_inv _ _ Hwf L) as (Hbk & Hok & _).
    apply In_points_below in Hv. rewrite Hbk in Hv.
    destruct Hv as [[]|(q & c & Hq & Hv)].
    destruct (Hok _ _ Hq) as (Wc & _ & Rc). rewrite <- (Rc _ Hv) in Hq.
    unfold insert_fitting, fitting_child_node in H. rewrite Hq in H.
    destruct (_insert f cap v c) as [c'|] eqn:E; [|discriminate].
    rewrite (@has_room_child cap v n c L Hq) in Hroom.
    rewrite (IH c c' Wc Hv Hroom E) in H. rewrite set_child_same in H by assumption.
    congruence.
Qed.

(** X10. [add] of a stored point where there is room: in a reached state,
    when [v] is stored and the leaf that holds it is not full, [add(v)]
    returns and leaves the tree exactly as it was, structure and buckets. *)
Theorem add_stored_unchanged (log2 : float -> option float) (rg : fpoint * fpoint)
  (cap : nat) (t0 t : QuadTree)
  (v : point) :
  QuadTree_init log2 rg cap = Some t0 -> reachable t0 t ->
  contains v t = true -> has_room cap v (root t) = true ->
  (exists fuel, add fuel v t = Some t) /\
  (forall fuel t', add fuel v t = Some t' -> t' = t).
Proof.
  intros Hi Hr Hv Hroom.
  destruct (@reachable_init_WF _ _ _ _ _ Hi Hr) as (Hwf & Hcap).
  assert (Hin : In v (points (root t)))
    by now apply (@contains_from_correct cap v (root t) Hwf).
  assert (Hall : forall fuel t', add fuel v t = Some t' -> t' = t).
  { intros fuel t'. unfold add. rewrite Hcap.
    destruct (_insert fuel cap v (root t)) as [r|] eqn:E; [|discriminate].
    intros H; inversion H; subst t'; clear H.
    rewrite (@insert_stored_room cap v fuel (root t) r Hwf Hin Hroom E).
    destruct t; simpl in *. congruence. }
  split; [|exact Hall].
  destruct (@insert_room cap v (root t) Hroom) as (fuel & n' & Hins).
  exists fuel.
  assert (Ha : add fuel v t = Some (mkQuadTree n' (max_bucket_size t)))
    by (unfold add; now rewrite Hcap, Hins).
  now rewrite <- (Hall _ _ Ha) at 2.
Qed.

Lemma node_at_geometry (cap : nat) (path : list nat) :
  forall r n,
    WF cap r -> node_at path r = Some n ->
    (center n, size n) = geometry_at path (center r) (size r).
Proof.
  induction path as [|q path IH]; intros r n Hwf H.
  - inversion H; subst. reflexivity.
  - cbn [node_at] in H. destruct (get_child r q) as [c|] eqn:E; [|discriminate].
    destruct (leaf r) eqn:L.
    { destruct (@WF_leaf_inv _ _ Hwf L) as (Hnc & _). rewrite Hnc in E.
      discriminate. }
    destruct (@WF_stem_inv _ _ Hwf L) as (_ & Hok & _).
    destruct (Hok _ _ E) as (Wc & [Gc Gs] & _).
    rewrite (IH c n Wc H), Gc, Gs. reflexivity.
Qed.

(** X11. Geometry of a reached tree: the root keeps the centre and
    half-size it was constructed with, and the centre and half-size of a
    node depend only on them and on the child slots that lead to the node
    from the root: they are what [child_center] and the halving of the size
    give along these slots, whatever calls built the tree, also for a node
    that was removed by [_reduce] and created again. *)
Theorem node_geometry (log2 : float -> option float) (rg : fpoint * fpoint)
  (cap : nat) (t0 t : QuadTree)
  (path : list nat) (n : QuadTreeNode) :
  QuadTree_init log2 rg cap = Some t0 -> reachable t0 t ->
  node_at path (root t) = Some n ->
  center (root t) = center (root t0) /\ size (root t) = size (root t0) /\
  (center n, size n) = geometry_at path (center (root t0)) (size (root t0)).
Proof.
  intros Hi Hr Hn.
  destruct (@init_fresh _ _ _ _ Hi) as (c & s & ->).
  destruct (@reachable_WF _ _ _ _ Hr) as (Hwf & _ & Hc & Hs).
  simpl in *. split; [assumption|]. split; [assumption|].
  rewrite <- Hc, <- Hs. now apply node_at_geometry with (cap := cap).
Qed.

(** ** Instances *)

Lemma init_scenario :
  QuadTree_init log2_ref scenario_region 4 = Some (fresh (0%float, 0%float) (1024%float, 1024%float) 4).
Proof. reflexivity. Qed.

Lemma scenario_tree_eq :
  scenario_tree
  = add_all 10 [pt 205 205; pt 205 205; pt 1 1; pt 2 2; pt 3 3; pt 4 4]
            (fresh (0%float, 0%float) (1024%float, 1024%float) 4).
Proof. unfold scenario_tree. rewrite init_scenario. reflexivity. Qed.

Lemma scenario_result_eq : scenario_tree = Some scenario_result.
Proof.
  unfold scenario_result. destruct scenario_tree as [t|] eqn:E; [reflexivity|].
  pose proof scenario_points as H. rewrite E in H. discriminate.
Qed.

Lemma scenario_reachable :
  reachable (fresh (0%float, 0%float) (1024%float, 1024%float) 4) scenario_result.
Proof.
  apply add_all_reachable with
    (fuel := 10%nat) (t := fresh (0%float, 0%float) (1024%float, 1024%float) 4)
    (l := [pt 205 205; pt 205 205; pt 1 1; pt 2 2; pt 3 3; pt 4 4]).
  - apply reach_init.
  - rewrite <- scenario_tree_eq. exact scenario_result_eq.
Qed.

Lemma scenario_low_at :
  node_at [3; 0; 0; 0]%nat (root scenario_result) = Some scenario_low.
Proof.
  unfold scenario_low.
  destruct (node_at [3; 0; 0; 0]%nat (root scenario_result)) eqn:E;
    [reflexivity|vm_compute in E; discriminate].
Qed.

Lemma scenario_stem_at :
  node_at [3; 0; 0]%nat (root scenario_result) = Some scenario_stem.
Proof.
  unfold scenario_stem.
  destruct (node_at [3; 0; 0]%nat (root scenario_result)) eqn:E;
    [reflexivity|vm_compute in E; discriminate].
Qed.

Lemma scenario_high_at :
  node_at [3; 0; 0; 3]%nat (root scenario_result) = Some scenario_high.
Proof.
  unfold scenario_high.
  destruct (node_at [3; 0; 0; 3]%nat (root scenario_result)) eqn:E;
    [reflexivity|vm_compute in E; discriminate].
Qed.

(** C2 at the scenario tree: the leaf that holds (1,1), (2,2), (3,3), (4,4)
    holds at most 4 points. *)
Lemma capacity_invariant_witness : (length (bucket scenario_low) <= 4)%nat.
Proof.
  apply (@capacity_invariant log2_ref scenario_region 4 _ scenario_result
           init_scenario scenario_reachable scenario_low).
  - exact (node_at_preorder _ _ scenario_low_at).
  - vm_compute. reflexivity.
Defined.

(** C3 at the scenario tree: after the removal of its five points, in the
    order (3,3), (205,205), (1,1), (4,4), (2,2), the root is an empty leaf
    without children. *)
Lemma collapse_invariant_witness :
  let t' := remove_all [pt 3 3; pt 205 205; pt 1 1; pt 4 4; pt 2 2] scenario_result in
  leaf (root t') = true /\ bucket (root t') = [] /\
  (forall q, get_child (root t') q = None) /\ preorder (root t') = [root t'].
Proof.
  apply (@collapse_invariant log2_ref scenario_region 4 _ scenario_result
           [pt 3 3; pt 205 205; pt 1 1; pt 4 4; pt 2 2]
           init_scenario scenario_reachable).
  intros p Hp.
  assert (E : iter_points scenario_result
              = [pt 1 1; pt 2 2; pt 3 3; pt 4 4; pt 205 205])
    by (vm_compute; reflexivity).
  rewrite E in Hp. simpl in Hp. simpl. intuition.
Defined.

Lemma one_tree_reachable (cap : nat) :
  (0 < cap)%nat -> reachable (fresh (0%float, 0%float) (2%float, 2%float) cap)
                             (one_tree cap).
Proof.
  intros Hc. apply reach_add with (t := fresh (0%float, 0%float) (2%float, 2%float) cap)
                                  (fuel := 1%nat) (v := pt 1 1).
  - apply reach_init.
  - unfold add, fresh, one_tree. simpl. destruct cap; [lia|]. reflexivity.
Qed.

Lemma all_covered_spec (r : QuadTreeNode) :
  all_covered r = true ->
  forall a q c, In a (preorder r) -> get_child a q = Some c -> covers a q c = true.
Proof.
  unfold all_covered. rewrite forallb_forall. intros H a q c Ha Hq.
  specialize (H a Ha). rewrite forallb_forall in H.
  assert (Hin : In q (seq 0 4)) by (apply in_seq; pose proof (get_child_lt _ _ Hq); lia).
  specialize (H q Hin). now rewrite Hq in H.
Qed.

Lemma all_placed_spec (p : point) (l : list QuadTreeNode) :
  all_placed p l = true ->
  forall m, In m l -> In p (points m) -> in_region p m = true.
Proof.
  unfold all_placed. rewrite forallb_forall. intros H m Hm Hp.
  specialize (H m Hm). now rewrite (proj2 (mem_In p (points m)) Hp) in H.
Qed.

Lemma scenario_covered : all_covered (root scenario_result) = true.
Proof. vm_compute. reflexivity. Qed.

Lemma scenario_placed : all_placed (pt 3 3) (tested scenario_result) = true.
Proof. vm_compute. reflexivity. Qed.

Lemma scenario_stored : In (pt 3 3) (iter_points scenario_result).
Proof.
  assert (E : iter_points scenario_result
              = [pt 1 1; pt 2 2; pt 3 3; pt 4 4; pt 205 205])
    by (vm_compute; reflexivity).
  rewrite E. simpl. auto.
Qed.



(** C9 at the scenario tree: the stem above the two deepest leaves has an
    empty bucket and a child. *)
Lemma node_shape_invariant_witness :
  bucket scenario_stem = [] /\ exists q c, get_child scenario_stem q = Some c.
Proof.
  apply (@node_shape_invariant log2_ref scenario_region 4 _ scenario_result
           init_scenario scenario_reachable scenario_stem).
  - exact (node_at_preorder _ _ scenario_stem_at).
  - vm_compute. reflexivity.
Defined.



(** C1 at the scenario tree: the search of [(0,0),(3,300)] returns, and
    returns (3,3), which lies in the region of each node that holds it. *)
Lemma range_search_correct_witness :
  exists res,
    range_search scenario_result (pt 0 0, pt 3 300) = Some res /\ In (pt 3 3) res.
Proof.
  destruct (@range_search_correct log2_ref scenario_region 4 _ scenario_result
              (pt 0 0) (pt 3 300) init_scenario scenario_reachable)
    as (res & Hres & _ & Hiff).
  exists res. split; [exact Hres|].
  apply (Hiff (pt 3 3) scenario_stored (all_placed_spec _ _ scenario_placed)).
  repeat split; apply leb_le; vm_compute; reflexivity.
Defined.

(** ** Further instances *)

(** X1 at the scenario tree and (205,205). *)
Lemma contains_iff_iterated_witness :
  contains (pt 205 205) scenario_result = true <->
  In (pt 205 205) (iter_points scenario_result).
Proof.
  exact (@contains_iff_iterated log2_ref scenario_region 4 _ scenario_result (pt 205 205)
           init_scenario scenario_reachable).
Defined.

(** X2 at the empty tree over [(-1,-1),(1,1)] and (3,3): one more point. *)
Lemma add_frame_witness :
  length (iter_points (far_tree 4))
  = (if contains (pt 3 3) (fresh (0%float, 0%float) (2%float, 2%float) 4)
     then length (iter_points (fresh (0%float, 0%float) (2%float, 2%float) 4))
     else S (length (iter_points (fresh (0%float, 0%float) (2%float, 2%float) 4)))).
Proof.
  exact (proj2 (@add_frame log2_ref unit_region 4 _
                  (fresh (0%float, 0%float) (2%float, 2%float) 4) (far_tree 4)
                  1%nat (pt 3 3) (init_unit 4) (reach_init _) eq_refl)).
Defined.

(** X3 at the scenario tree and (3,3). *)
Lemma remove_correct_witness :
  fst (remove (pt 3 3) scenario_result) = contains (pt 3 3) scenario_result /\
  contains (pt 3 3) (snd (remove (pt 3 3) scenario_result)) = false.
Proof.
  pose proof (@remove_correct log2_ref scenario_region 4 _ scenario_result (pt 3 3)
                init_scenario scenario_reachable) as H.
  exact (conj (proj1 H) (proj1 (proj2 H))).
Defined.



(** X7 at the tree that holds (3,3) outside the root's region. *)
Lemma range_search_sound_witness :
  exists res,
    range_search (far_tree 4) (pt (-3) (-3), pt 5 5) = Some res /\
    NoDup res /\ forall p, In p res -> In p (iter_points (far_tree 4)).
Proof.
  exact (@range_search_sound log2_ref unit_region 4 _ (far_tree 4) (pt (-3) (-3)) (pt 5 5)
           (init_unit 4) (@far_tree_reachable 4 ltac:(lia))).
Defined.

(** X8 at the root region [(-2,-2),(2,2)] and the rectangle
    [(-3,-3),(3,3)]. *)
Lemma enclosure_status_spec_witness :
  enclosure_status (0%float, 0%float) (2%float, 2%float) (pt (-3) (-3)) (pt 3 3)
  = NODE_CONTAINED_BY_REGION.
Proof.
  refine (proj2 (proj2 (@enclosure_status_spec (0%float, 0%float) (2%float, 2%float)
                          (pt (-3) (-3)) (pt 3 3) _ _)) _).
  - vm_compute. reflexivity.
  - vm_compute. reflexivity.
  - repeat split; vm_compute; reflexivity.
Defined.

(** X10 at the tree that holds (3,3): adding (3,3) again changes nothing. *)
Lemma add_stored_unchanged_witness :
  exists fuel, add fuel (pt 3 3) (far_tree 4) = Some (far_tree 4).
Proof.
  refine (proj1 (@add_stored_unchanged log2_ref unit_region 4 _ (far_tree 4) (pt 3 3)
                   (init_unit 4) (@far_tree_reachable 4 ltac:(lia)) _ _));
    reflexivity.
Defined.

(** X11 at the deepest leaf of the scenario tree, four levels down. *)
Lemma node_geometry_witness :
  (center scenario_low, size scenario_low)
  = geometry_at [3; 0; 0; 0]%nat (0%float, 0%float) (1024%float, 1024%float).
Proof.
  exact (proj2 (proj2
           (@node_geometry log2_ref scenario_region 4 _ scenario_result [3; 0; 0; 0]%nat
              scenario_low init_scenario scenario_reachable scenario_low_at))).
Defined.
